(** * store_picker.py: quota allocation and stratified sampling

    A shallow embedding of [alloc_proportional_with_min] and [pick_stores]
    from [store_picker.py], and the properties its specification states
    about them.

    Python integers are [Z].  Python floats are IEEE 754 binary64 values,
    taken from the Standard Library's executable specification
    ([SpecFloat]), so that [cap_rem / remaining_total] and
    [remaining * prop] round exactly as they do in CPython.  A [dict] is an
    association list in insertion order.  Exceptions are values of [exn];
    dataframes live in a store, so that in-place column assignment is
    visible. *)

From Stdlib Require Import ZArith Ascii String DecimalString Floats.SpecFloat.
From stdpp Require Import base decidable option list numbers strings gmap.

Local Open Scope Z_scope.

(** ** Exceptions and the result monad *)

Inductive exn :=
  | KeyError (msg : string) (names : list string)
  | ValueError
  | OverflowError
  | ZeroDivisionError.

Inductive res (A : Type) : Type :=
  | Ok (a : A)
  | Raise (e : exn).
Arguments Ok {A} a.
Arguments Raise {A} e.

#[global] Instance res_ret : MRet res := λ A a, Ok a.
#[global] Instance res_bind : MBind res := λ A B f m,
  match m with
  | Ok a => f a
  | Raise e => Raise e
  end.

Definition raise {A} (e : exn) : res A := Raise e.
Definition ret {A} (a : A) : res A := Ok a.

(** ** Python floats: binary64 *)

Module PyFloat.

Definition prec : Z := 53.
Definition emax : Z := 1024.

Definition float := spec_float.

(** [float(n)] for an int [n]: rounded to nearest, ties to even;
    CPython raises [OverflowError] when the result is not finite. *)
Definition of_int (n : Z) : res float :=
  match binary_normalize prec emax n 0 false with
  | S754_infinity _ => raise OverflowError
  | x => ret x
  end.

(** [a / b] for ints: CPython's true division is the correctly rounded
    quotient of the two integers (it does not convert them first). *)
Definition int_truediv (a b : Z) : res float :=
  if b =? 0 then raise ZeroDivisionError
  else if a =? 0 then ret (S754_zero (b <? 0))
  else
    let '(q, e, l) := SFdiv_core_binary prec emax (Z.abs a) 0 (Z.abs b) 0 in
    match binary_round_aux prec emax (xorb (a <? 0) (b <? 0)) q e l with
    | S754_infinity _ => raise OverflowError
    | x => ret x
    end.

(** [x * y] on floats. *)
Definition mul (x y : float) : float := SFmul prec emax x y.

(** [n * y] with [n] an int and [y] a float: [n] is converted first. *)
Definition int_mul_float (n : Z) (y : float) : res float :=
  x ← of_int n ; ret (mul x y).

(** [math.floor(x)]: the integer floor, an error on inf and nan. *)
Definition floor (x : float) : res Z :=
  match x with
  | S754_zero _ => ret 0
  | S754_finite s m e => ret (Z.shiftl (cond_Zopp s (Zpos m)) e)
  | S754_infinity _ => raise OverflowError
  | S754_nan => raise ValueError
  end.

End PyFloat.

(** ** Dictionaries

    A [dict] keeps its items in insertion order; its keys are pairwise
    distinct ([NoDup (keys d)]), which is the well-formedness condition the
    theorems below assume of their inputs. *)

Section Dict.
Context {K : Type} `{EqDecision K}.

Definition dict : Type := list (K * Z).

Definition keys (d : dict) : list K := d.*1.
Definition values (d : dict) : list Z := d.*2.

(** [d[k]]; every subscript in [alloc_proportional_with_min] is on a key
    of the dictionary it reads, so the [KeyError] case is not modelled. *)
Fixpoint item (d : dict) (k : K) : Z :=
  match d with
  | [] => 0
  | (k', v) :: d' => if decide (k' = k) then v else item d' k
  end.

(** [d[k] = v] *)
Fixpoint set_item (d : dict) (k : K) (v : Z) : dict :=
  match d with
  | [] => [(k, v)]
  | (k', v') :: d' =>
      if decide (k' = k) then (k', v) :: d' else (k', v') :: set_item d' k v
  end.

(** [{k: f(k) for k in ks}] *)
Definition from_keys (f : K → Z) (ks : list K) : dict :=
  (λ k, (k, f k)) <$> ks.

(** [sum(l)] *)
Fixpoint sum (l : list Z) : Z :=
  match l with
  | [] => 0
  | x :: l' => x + sum l'
  end.

(** [sorted(ks, key=key, reverse=True)]: descending, and stable (items
    with equal keys keep their order). *)
Fixpoint insert_desc (key : K → Z) (x : K) (l : list K) : list K :=
  match l with
  | [] => [x]
  | y :: l' => if key x <? key y then y :: insert_desc key x l' else x :: l
  end.

Definition sorted_desc (key : K → Z) (ks : list K) : list K :=
  foldr (insert_desc key) [] ks.

End Dict.

Arguments dict K : clear implicits.

(** ** Quota allocation *)

Section Allocation.
Context {K : Type} `{EqDecision K}.

Definition len {A} (l : list A) : Z := Z.of_nat (length l).

(** The first [while] loop (regime A).  [n] is the number of iterations
    the guard [i < len(sorted_keys) * 2] still allows. *)
Fixpoint top_up_loop (total : Z) (capacities : dict K) (sorted_keys : list K)
    (n i : nat) (alloc : dict K) : dict K :=
  match n with
  | O => alloc
  | S n' =>
      if sum (values alloc) <? total then
        match sorted_keys !! (i mod length sorted_keys)%nat with
        | Some k =>
            let alloc :=
              if item alloc k <? item capacities k
              then set_item alloc k (item alloc k + 1)
              else alloc in
            top_up_loop total capacities sorted_keys n' (S i) alloc
        | None => alloc
        end
      else alloc
  end.

(** One iteration of the proportional [for] loop: the value stored in
    [extra_alloc[k]]. *)
Definition proportional_share (remaining remaining_total cap_rem : Z) : res Z :=
  if cap_rem <=? 0 then ret 0
  else
    prop ← PyFloat.int_truediv cap_rem remaining_total ;
    x ← PyFloat.int_mul_float remaining prop ;
    f ← PyFloat.floor x ;
    ret (Z.min f cap_rem).

(** The proportional [for] loop: [extra_alloc] and [running_total]. *)
Fixpoint proportional_pass (remaining remaining_total : Z)
    (remaining_capacity : dict K) (ks : list K) : res (dict K * Z) :=
  match ks with
  | [] => ret ([], 0)
  | k :: ks' =>
      add ← proportional_share remaining remaining_total
              (item remaining_capacity k) ;
      '(extra_alloc, running_total) ←
        proportional_pass remaining remaining_total remaining_capacity ks' ;
      ret ((k, add) :: extra_alloc, add + running_total)
  end.

(** The second [while] loop (leftover distribution). *)
Fixpoint leftover_loop (remaining_capacity : dict K) (sorted_keys : list K)
    (n i : nat) (leftover : Z) (extra_alloc : dict K) : dict K :=
  match n with
  | O => extra_alloc
  | S n' =>
      if 0 <? leftover then
        match sorted_keys !! (i mod length sorted_keys)%nat with
        | Some k =>
            if item extra_alloc k <? item remaining_capacity k
            then leftover_loop remaining_capacity sorted_keys n' (S i)
                   (leftover - 1) (set_item extra_alloc k (item extra_alloc k + 1))
            else leftover_loop remaining_capacity sorted_keys n' (S i)
                   leftover extra_alloc
        | None => extra_alloc
        end
      else extra_alloc
  end.

Definition alloc_proportional_with_min
    (total : Z) (capacities : dict K) (min_per_stratum : Z) : res (dict K) :=
  let ks := keys capacities in
  if bool_decide (ks = []) || (total <=? 0) then ret (from_keys (λ _, 0) ks)
  else
  (* Drop zero-capacity strata *)
  let capacities := filter (λ kv, 0 < kv.2) capacities in
  let ks := keys capacities in
  if bool_decide (ks = []) then ret []
  else
  let total_pop := sum (values capacities) in
  if total_pop =? 0 then ret (from_keys (λ _, 0) ks)
  else
  let min_total := len ks * min_per_stratum in
  if total <? min_total then
    let base := total `div` len ks in
    let alloc := from_keys (λ k, Z.min base (item capacities k)) ks in
    let sorted_keys := sorted_desc (item capacities) ks in
    ret (top_up_loop total capacities sorted_keys
           (2 * length sorted_keys) 0 alloc)
  else
  (* Start by giving the minimum to each stratum *)
  let alloc := from_keys (λ k, Z.min min_per_stratum (item capacities k)) ks in
  let remaining := total - sum (values alloc) in
  if remaining <=? 0 then ret alloc
  else
  let remaining_capacity :=
    from_keys (λ k, item capacities k - item alloc k) ks in
  let remaining_total :=
    sum (filter (λ v, 0 < v) (values remaining_capacity)) in
  if remaining_total <=? 0 then ret alloc
  else
  '(extra_alloc, running_total) ←
    proportional_pass remaining remaining_total remaining_capacity ks ;
  let leftover := remaining - running_total in
  let extra_alloc :=
    if 0 <? leftover then
      let sorted_keys :=
        sorted_desc (λ k, item remaining_capacity k - item extra_alloc k) ks in
      leftover_loop remaining_capacity sorted_keys
        (2 * length sorted_keys) 0 leftover extra_alloc
    else extra_alloc in
  ret (from_keys (λ k, item alloc k + item extra_alloc k) ks).

End Allocation.

(** ** Text

    Strings are modelled over the ASCII repertoire: [str.strip] removes the
    ASCII white space Python recognises, [str.upper] maps [a-z] to [A-Z]. *)

Definition is_space (a : ascii) : bool :=
  let n := nat_of_ascii a in
  ((9 <=? n) && (n <=? 13) || (28 <=? n) && (n <=? 32))%nat.

Definition upper_char (a : ascii) : ascii :=
  let n := nat_of_ascii a in
  if ((97 <=? n) && (n <=? 122))%nat then ascii_of_nat (n - 32) else a.

Fixpoint lstrip (s : string) : string :=
  match s with
  | EmptyString => EmptyString
  | String a s' => if is_space a then lstrip s' else s
  end.

Fixpoint rstrip (s : string) : string :=
  match s with
  | EmptyString => EmptyString
  | String a s' =>
      match rstrip s' with
      | EmptyString => if is_space a then EmptyString else String a EmptyString
      | t => String a t
      end
  end.

(** [s.strip()] *)
Definition strip (s : string) : string := rstrip (lstrip s).

(** [s.upper()] *)
Fixpoint upper (s : string) : string :=
  match s with
  | EmptyString => EmptyString
  | String a s' => String (upper_char a) (upper s')
  end.

(** ** Dataframes *)

(** A cell holds a string, an int or (in the helper column) a tuple of
    strings; a missing cell (NaN, None) is the absence of a value. *)
Inductive value :=
  | VStr (s : string)
  | VInt (z : Z)
  | VTuple (t : list string).

#[global] Instance value_eq_dec : EqDecision value.
Proof. solve_decision. Defined.

(** [str(v)].  For a tuple the items are quoted without escapes. *)
Definition to_str (v : value) : string :=
  match v with
  | VStr s => s
  | VInt z => DecimalString.NilZero.string_of_int (Z.to_int z)
  | VTuple [] => "()"
  | VTuple [x] => "('" +:+ x +:+ "',)"
  | VTuple t =>
      "(" +:+ String.concat ", " ((λ x, "'" +:+ x +:+ "'") <$> t) +:+ ")"
  end.

Abbreviation Row := (gmap string value).
Abbreviation Series := (list (option value)).

Record DataFrame := {
  columns : list string;
  rows : list Row;
}.

(** [df[col]] *)
Definition get_column (d : DataFrame) (col : string) : Series :=
  (λ r : Row, r !! col) <$> rows d.

(** [df[col] = s] *)
Definition set_cell (col : string) (r : Row) (c : option value) : Row :=
  match c with
  | Some v => <[col := v]> r
  | None => delete col r
  end.

Definition set_column (d : DataFrame) (col : string) (s : Series) : DataFrame :=
  {| columns := if decide (col ∈ columns d) then columns d
                else columns d ++ [col];
     rows := zip_with (set_cell col) (rows d) s |}.

(** [df.dropna(subset=subset)] *)
Definition dropna (subset : list string) (d : DataFrame) : DataFrame :=
  {| columns := columns d;
     rows := filter (λ r : Row, Forall (λ c, is_Some (r !! c)) subset) (rows d) |}.

(** [s.fillna(v)], [s.astype(str)], [s.str.strip()], [s.str.upper()] *)
Definition fillna (v : value) (s : Series) : Series :=
  (λ c, Some (default v c)) <$> s.

Definition cell_str (c : option value) : string :=
  match c with
  | Some v => to_str v
  | None => "nan"
  end.

Definition astype_str (s : Series) : Series :=
  (λ c, Some (VStr (cell_str c))) <$> s.

Definition on_str (f : string → string) (c : option value) : option value :=
  match c with
  | Some (VStr t) => Some (VStr (f t))
  | _ => None
  end.

Definition str_strip (s : Series) : Series := on_str strip <$> s.
Definition str_upper (s : Series) : Series := on_str upper <$> s.

(** [df[cols].apply(lambda r: tuple(r.values.tolist()), axis=1)]; the
    cells it reads are the standardised ones, which are strings.  The
    function is applied row by row, as pandas does on a selection of at
    least one column; what pandas does with [cols = []] is not modelled,
    and the results that say the call returns ask for [strat_cols ≠ []]. *)
Definition tuple_of (cols : list string) (r : Row) : option value :=
  Some (VTuple ((λ c, cell_str (r !! c)) <$> cols)).

Definition apply_tuple (d : DataFrame) (cols : list string) : Series :=
  tuple_of cols <$> rows d.

(** [s.value_counts().to_dict()]: the distinct non-missing values with
    their number of occurrences, most frequent first. *)
Definition add_count (d : dict value) (v : value) : dict value :=
  set_item d v (item d v + 1).

Definition value_counts (s : Series) : dict value :=
  sorted_desc snd (foldl add_count [] (omap id s)).

(** [df[mask]] for a row-wise condition *)
Definition filter_rows (P : Row → Prop) `{∀ r, Decision (P r)}
    (d : DataFrame) : DataFrame :=
  {| columns := columns d; rows := filter P (rows d) |}.

(** [df.head(0)] *)
Definition head0 (d : DataFrame) : DataFrame :=
  {| columns := columns d; rows := [] |}.

(** [pd.concat(parts, ignore_index=True)] *)
Definition concat (parts : list DataFrame) : res DataFrame :=
  match parts with
  | [] => raise ValueError
  | _ => ret {| columns := remove_dups (mjoin (columns <$> parts));
                rows := mjoin (rows <$> parts) |}
  end.

(** [df.drop(columns=cols)] *)
Definition drop_columns (cols : list string) (d : DataFrame) : DataFrame :=
  {| columns := filter (λ c, c ∉ cols) (columns d);
     rows := (λ r : Row, foldr delete r cols) <$> rows d |}.

(** ** Randomness

    What [pick_stores] uses of numpy and pandas: a generator made from a
    seed, [rng.integers(low, high)], and [DataFrame.sample(n, random_state)]
    which draws [n] rows without replacement. *)
Class Random := {
  rng_state : Type;
  seed_rng : Z → rng_state;
  rng_integers : rng_state → Z → Z → Z * rng_state;
  sample_rows : Z → nat → list Row → list Row;
  rng_integers_range rng low high :
    low < high → low ≤ (rng_integers rng low high).1 < high;
  sample_rows_submseteq random_state n l :
    (n ≤ length l)%nat → sample_rows random_state n l ⊆+ l;
  sample_rows_length random_state n l :
    (n ≤ length l)%nat → length (sample_rows random_state n l) = n;
}.

Section Sampling.
Context `{Random}.

(** [np.random.default_rng(seed)]: a negative seed is refused; without a
    seed the generator is seeded from the operating system's entropy. *)
Definition default_rng (os_entropy : Z) (seed : option Z) : res rng_state :=
  match seed with
  | None => ret (seed_rng os_entropy)
  | Some s => if s <? 0 then raise ValueError else ret (seed_rng s)
  end.

(** [df.sample(n=n, random_state=random_state)] *)
Definition df_sample (d : DataFrame) (n : Z) (random_state : Z) : res DataFrame :=
  if (n <? 0) || (len (rows d) <? n) then raise ValueError
  else if (random_state <? 0) || (2 ^ 32 <=? random_state) then raise ValueError
  else ret {| columns := columns d;
              rows := sample_rows random_state (Z.to_nat n) (rows d) |}.

(** The [for key, quota in quotas.items()] loop. *)
Fixpoint draw_strata (d : DataFrame) (quotas : dict value)
    (rng : rng_state) (selected_parts : list DataFrame)
    : res (rng_state * list DataFrame) :=
  match quotas with
  | [] => ret (rng, selected_parts)
  | (key, quota) :: quotas' =>
      if quota <=? 0 then draw_strata d quotas' rng selected_parts
      else
        let stratum_data :=
          filter_rows (λ r, r !! "_stratum_key" = Some key) d in
        if bool_decide (rows stratum_data = [])
        then draw_strata d quotas' rng selected_parts
        else
          let n_sample := Z.min quota (len (rows stratum_data)) in
          let '(random_state, rng) := rng_integers rng 0 1000000 in
          sampled ← df_sample stratum_data n_sample random_state ;
          draw_strata d quotas' rng (selected_parts ++ [sampled])
  end.

End Sampling.

(** ** The store of dataframe objects

    A dataframe variable holds a reference; [df[col] = ...] changes the
    object it refers to, for every holder of the reference. *)

Abbreviation ref := nat.
Abbreviation heap := (list DataFrame).

Definition M (A : Type) : Type := heap → res A * heap.

#[global] Instance M_ret : MRet M := λ A a h, (Ok a, h).
#[global] Instance M_bind : MBind M := λ A B f m h,
  match m h with
  | (Ok a, h') => f a h'
  | (Raise e, h') => (Raise e, h')
  end.

Definition lift {A} (r : res A) : M A := λ h, (r, h).

#[global] Instance DataFrame_inhabited : Inhabited DataFrame :=
  populate {| columns := []; rows := [] |}.

(** Reading through a reference, making a new object, changing one. *)
Definition load (l : ref) : M DataFrame := λ h, (Ok (h !!! l), h).
Definition new (d : DataFrame) : M ref := λ h, (Ok (length h), h ++ [d]).
Definition store (l : ref) (d : DataFrame) : M unit := λ h, (Ok (), <[l := d]> h).

(** ** pick_stores *)

Section PickStores.
Context `{Random}.

(** The stratum-key normalisation of one column. *)
Definition standardise_series (s : Series) : Series :=
  str_upper (str_strip (astype_str (fillna (VStr "UNKNOWN") s))).

(** [for col in strat_cols: df[col] = ...] *)
Fixpoint standardise (df : ref) (strat_cols : list string) : M unit :=
  match strat_cols with
  | [] => mret ()
  | col :: cols =>
      d ← load df ;
      _ ← store df (set_column d col (standardise_series (get_column d col))) ;
      standardise df cols
  end.

Definition id_text (id_col : string) (r : Row) : string := cell_str (r !! id_col).

Definition pick_stores (os_entropy : Z) (df : ref) (id_col : string)
    (strat_cols : list string) (target_n : Z) (random_state : option Z)
    (min_per_stratum : Z) : M DataFrame :=
  d ← load df ;
  if bool_decide (id_col ∉ columns d)
  then lift (raise (KeyError "Missing required ID column" [id_col]))
  else
  let missing := filter (λ c, c ∉ columns d) strat_cols in
  if bool_decide (missing ≠ [])
  then lift (raise (KeyError "Missing stratification columns" missing))
  else
  (* Drop rows without an ID *)
  df ← new (dropna [id_col] d) ;
  (* Standardise stratification columns *)
  _ ← standardise df strat_cols ;
  (* Tuple key for each stratum *)
  d ← load df ;
  _ ← store df (set_column d "_stratum_key" (apply_tuple d strat_cols)) ;
  (* Stratum capacities and quotas *)
  d ← load df ;
  let stratum_counts := value_counts (get_column d "_stratum_key") in
  let capacities := stratum_counts in
  let total_target := Z.min target_n (len (rows d)) in
  quotas ← lift (alloc_proportional_with_min total_target capacities
                   min_per_stratum) ;
  rng ← lift (default_rng os_entropy random_state) ;
  '(rng, selected_parts) ← lift (draw_strata d quotas rng []) ;
  selected ← lift (if bool_decide (selected_parts ≠ [])
                   then concat selected_parts
                   else ret (head0 d)) ;
  (* Top-up globally if some strata were too small *)
  selected ←
    (if len (rows selected) <? total_target then
       let need := total_target - len (rows selected) in
       let remaining :=
         filter_rows (λ r, id_text id_col r ∉ id_text id_col <$> rows selected) d in
       if bool_decide (rows remaining ≠ []) then
         let '(sample_seed, _) := rng_integers rng 0 1000000 in
         additional ← lift (df_sample remaining
                              (Z.min need (len (rows remaining))) sample_seed) ;
         lift (concat [selected; additional])
       else mret selected
     else mret selected) ;
  (* Drop helper column *)
  mret (if bool_decide ("_stratum_key" ∈ columns selected)
        then drop_columns ["_stratum_key"] selected
        else selected).

End PickStores.

(** A concrete source of randomness, for running the model: a linear
    congruential generator, and a sampler that takes the first [n] rows
    after a rotation by the seed. *)
Definition lcg_next (s : Z) : Z :=
  (s * 6364136223846793005 + 1442695040888963407) `mod` 2 ^ 64.

Definition rotate_take (random_state : Z) (n : nat) (l : list Row) : list Row :=
  take n (rotate (Z.to_nat random_state `mod` length l) l).

#[global, refine] Instance lcg_random : Random := {|
  rng_state := Z;
  seed_rng s := s;
  rng_integers rng low high := (low + lcg_next rng `mod` (high - low), lcg_next rng);
  sample_rows := rotate_take;
|}.
Proof.
  - intros rng low high Hlt. simpl.
    pose proof (Z.mod_pos_bound (lcg_next rng) (high - low)). lia.
  - intros random_state n l Hn. unfold rotate_take.
    trans (rotate (Z.to_nat random_state `mod` length l) l).
    + apply sublist_submseteq, sublist_take.
    + apply Permutation_submseteq. unfold rotate.
      by rewrite Permutation_app_comm, take_drop.
  - intros random_state n l Hn. unfold rotate_take.
    rewrite length_take, length_rotate. lia.
Defined.

(** * Properties *)

(** ** Rounding in binary64

    What the proportional pass needs of [SpecFloat]'s rounding: on
    mantissas of at least 53 bits and in the normal range,
    [binary_round_aux] yields a finite float that exceeds the truncated
    mantissa by at most one unit in the last place. *)

Module Binary64.

Lemma digits2_pos_size p : digits2_pos p = Pos.size p.
Proof. induction p; simpl; congruence. Qed.

Lemma Zdigits2_bounds m : 0 < m → 2 ^ (Zdigits2 m - 1) ≤ m < 2 ^ Zdigits2 m.
Proof.
destruct m as [|p|p]; try lia. intros _. simpl Zdigits2.
rewrite digits2_pos_size.
pose proof (Pos.size_gt p) as Hgt. pose proof (Pos.size_le p) as Hle.
apply Pos2Z.pos_lt_pos in Hgt. apply Pos2Z.pos_le_pos in Hle.
rewrite Pos2Z.inj_pow in Hgt, Hle. change (Z.pos p~0) with (2 * Z.pos p) in Hle.
split; [| exact Hgt].
assert (2 ^ Z.pos (Pos.size p) = 2 * 2 ^ (Z.pos (Pos.size p) - 1)) as Heq.
{ rewrite <- Z.pow_succ_r by lia. f_equal. lia. }
lia.
Qed.

Lemma shr_1_m mrs : 0 ≤ shr_m mrs → shr_m (shr_1 mrs) = shr_m mrs / 2.
Proof.
destruct mrs as [[|[p|p|]|p] r s]; simpl; intros Hm; try done.
- replace (Z.pos p~1) with (2 * Z.pos p + 1) by lia.
  Z.div_mod_to_equations. lia.
- replace (Z.pos p~0) with (2 * Z.pos p) by lia.
  Z.div_mod_to_equations. lia.
Qed.

Lemma pow2_xO p : 2 ^ Z.pos p~0 = 2 ^ Z.pos p * 2 ^ Z.pos p.
Proof.
replace (Z.pos p~0) with (Z.pos p + Z.pos p) by lia.
apply Z.pow_add_r; lia.
Qed.

Lemma pow2_xI p : 2 ^ Z.pos p~1 = 2 * (2 ^ Z.pos p * 2 ^ Z.pos p).
Proof.
replace (Z.pos p~1) with (1 + (Z.pos p + Z.pos p)) by lia.
rewrite !Z.pow_add_r by lia. done.
Qed.

Lemma iter_shr_1_m p mrs :
0 ≤ shr_m mrs → shr_m (SpecFloat.iter_pos shr_1 p mrs) = shr_m mrs / 2 ^ Z.pos p.
Proof.
revert mrs. induction p as [p IH|p IH|]; intros mrs Hm; simpl SpecFloat.iter_pos.
- assert (0 ≤ shr_m (shr_1 mrs)) as H1.
  { rewrite shr_1_m by done. by apply Z.div_pos. }
  assert (0 ≤ shr_m (SpecFloat.iter_pos shr_1 p (shr_1 mrs))) as H2.
  { rewrite IH by done. apply Z.div_pos; [done | lia]. }
  rewrite IH, IH, shr_1_m by done.
  rewrite !Z.div_div by lia. by rewrite pow2_xI, !Z.mul_assoc.
- assert (0 ≤ shr_m (SpecFloat.iter_pos shr_1 p mrs)) as H2.
  { rewrite IH by done. apply Z.div_pos; [done | lia]. }
  rewrite IH, IH by done.
  rewrite !Z.div_div by lia. by rewrite pow2_xO.
- by apply shr_1_m.
Qed.

Lemma round_nearest_even_range x l :
x ≤ round_nearest_even x l ≤ x + 1.
Proof.
destruct l as [|[]]; simpl; try lia. case_match; lia.
Qed.

Lemma Zdigits2_unique m d : 2 ^ (d - 1) ≤ m < 2 ^ d → 0 < d → Zdigits2 m = d.
Proof.
intros [Hlo Hhi] Hd.
assert (0 < m) as Hm by (pose proof (Z.pow_pos_nonneg 2 (d - 1)); lia).
destruct (Zdigits2_bounds m Hm) as [Hlo' Hhi'].
assert (0 < Zdigits2 m) as Hd' by (by destruct m).
destruct (Z.lt_trichotomy (Zdigits2 m) d) as [Hlt|[Heq|Hgt]]; [| done |].
- assert (2 ^ Zdigits2 m ≤ 2 ^ (d - 1)) by (apply Z.pow_le_mono_r; lia). lia.
- assert (2 ^ d ≤ 2 ^ (Zdigits2 m - 1)) by (apply Z.pow_le_mono_r; lia). lia.
Qed.

Lemma binary_round_aux_normal m e l :
2 ^ 52 ≤ m →
let n := Zdigits2 m - 53 in
-1074 ≤ e + n → e + n + 1 ≤ 971 →
∃ M E, binary_round_aux 53 1024 false m e l = S754_finite false M E
  ∧ 2 ^ 52 ≤ Z.pos M < 2 ^ 53
  ∧ e + n ≤ E ≤ e + n + 1
  ∧ Z.pos M * 2 ^ (E - (e + n)) ≤ m / 2 ^ n + 1
  ∧ (l = loc_Exact → n = 0 → Z.pos M = m ∧ E = e).
Proof.
intros Hm n Hlo Hhi.
assert (0 < m) as Hm0 by lia.
destruct (Zdigits2_bounds m Hm0) as [Hdlo Hdhi]. fold n in Hdlo, Hdhi.
assert (0 ≤ n) as Hn.
{ destruct (Z.le_gt_cases 53 (Zdigits2 m)); [lia |].
  assert (2 ^ Zdigits2 m ≤ 2 ^ 52) by (apply Z.pow_le_mono_r; lia). lia. }
set (m' := m / 2 ^ n).
assert (2 ^ 52 ≤ m' < 2 ^ 53) as Hm'.
{ assert (0 < 2 ^ n) by (by apply Z.pow_pos_nonneg).
  replace (Zdigits2 m - 1) with (n + 52) in Hdlo by lia.
  replace (Zdigits2 m) with (n + 53) in Hdhi by lia.
  rewrite Z.pow_add_r in Hdlo, Hdhi by lia. split.
  - apply Z.div_le_lower_bound; [done | lia].
  - apply Z.div_lt_upper_bound; [done | lia]. }
unfold binary_round_aux, shr_fexp.
replace (fexp 53 1024 (Zdigits2 m + e) - e) with n
  by (unfold fexp, emin, n; lia).
assert (∃ mrs, shr (shr_record_of_loc m l) e n = (mrs, e + n) ∧ shr_m mrs = m' ∧
          (l = loc_Exact → n = 0 → loc_of_shr_record mrs = loc_Exact))
  as (mrs & -> & Hmrs & Hex).
{ unfold shr. destruct n as [|p|p] eqn:Hp; [| | lia].
  - exists (shr_record_of_loc m l). rewrite Z.add_0_r. split; [done |]. split.
    + unfold m'. rewrite Z.div_1_r. by destruct l as [|[]].
    + by intros -> _.
  - eexists. split; [done |]. split; [| done].
    rewrite iter_shr_1_m; destruct l as [|[]]; simpl; try lia; done. }
rewrite Hmrs.
pose proof (round_nearest_even_range m' (loc_of_shr_record mrs)) as Hr.
set (m1 := round_nearest_even m' (loc_of_shr_record mrs)) in *.
destruct (Z.eq_dec m1 (2 ^ 53)) as [Heq|Hne].
- rewrite Heq. replace (fexp 53 1024 (Zdigits2 (2 ^ 53) + (e + n)) - (e + n)) with 1
    by (unfold fexp, emin; simpl Zdigits2; lia).
  simpl shr. simpl shr_m. cbv iota.
  replace (e + n + 1 <=? 1024 - 53) with true by (symmetry; apply Z.leb_le; lia).
  eexists _, _. split; [done |]. split; [simpl; lia |]. split; [lia |].
  split.
  + replace (e + n + 1 - (e + n)) with 1 by lia. fold m'. 
    change (Z.pos 4503599627370496 * 2 ^ 1) with (2 ^ 53). lia.
  + intros Hl Hn0. specialize (Hex Hl Hn0). unfold m1 in Heq.
    rewrite Hex in Heq. simpl in Heq. lia.
- assert (Zdigits2 m1 = 53) as Hd by (apply Zdigits2_unique; simpl; lia).
  replace (fexp 53 1024 (Zdigits2 m1 + (e + n)) - (e + n)) with 0
    by (unfold fexp, emin; lia).
  simpl shr. simpl shr_m.
  destruct m1 as [|M|M] eqn:HM1; [simpl in *; lia | | lia].
  replace (e + n <=? 1024 - 53) with true by (symmetry; apply Z.leb_le; lia).
  eexists _, _. split; [done |]. split; [lia |]. split; [lia |].
  split.
  + rewrite Z.sub_diag, Z.mul_1_r. fold m'. lia.
  + intros Hl Hn0. specialize (Hex Hl Hn0). subst m1.
    rewrite Hex in HM1. simpl in HM1. unfold m' in HM1.
    rewrite Hn0, Z.div_1_r in HM1. split; [lia | lia].
Qed.

Import PyFloat.

Lemma pos_iter_xO p d : Z.pos (Pos.iter xO p d) = Z.pos p * 2 ^ Z.pos d.
Proof.
  rewrite (Pos.iter_swap_gen _ _ Z.pos xO (Z.mul 2)) by done.
  change (Pos.iter (Z.mul 2) (Z.pos p) d) with (Z.shiftl (Z.pos p) (Z.pos d)).
  by apply Z.shiftl_mul_pow2.
Qed.

(** [float(n)] is finite for [0 < n < 2**1000], and exact below [2**53]. *)
Lemma of_int_finite n :
  0 < n < 2 ^ 1000 →
  ∃ M E, of_int n = Ok (S754_finite false M E)
    ∧ 2 ^ 52 ≤ Z.pos M < 2 ^ 53
    ∧ -52 ≤ E ≤ 948
    ∧ (n < 2 ^ 53 → E ≤ 0 ∧ Z.pos M = n * 2 ^ (- E)).
Proof.
  intros [Hn Hhi]. destruct n as [|p|p]; try lia.
  destruct (Zdigits2_bounds (Z.pos p) Hn) as [Hdlo Hdhi].
  set (d := Zdigits2 (Z.pos p)) in *.
  assert (0 < d) as Hd by done.
  assert (d ≤ 1000) as Hd'.
  { destruct (Z.le_gt_cases d 1000); [done |].
    assert (2 ^ 1000 ≤ 2 ^ (d - 1)) by (apply Z.pow_le_mono_r; lia). lia. }
  unfold of_int, binary_normalize, binary_round, prec, emax.
  change (Z.pos (digits2_pos p)) with d. rewrite Z.add_0_r.
  replace (fexp 53 1024 d) with (d - 53) by (unfold fexp, emin; lia).
  unfold shl_align. rewrite Z.sub_0_r.
  destruct (d - 53) as [|k|k] eqn:Hk.
  - (* exactly 53 bits *)
    destruct (binary_round_aux_normal (Z.pos p) 0 loc_Exact)
      as (M & E & -> & HM & HE & _ & Hex);
      fold d; rewrite ?Hk; try lia.
    { replace 52 with (d - 1) by lia. done. }
    destruct (Hex eq_refl Hk) as [HMeq ->].
    exists M, 0. split; [done |]. split; [done |]. split; [lia |].
    intros _. split; [done |]. rewrite HMeq; simpl; lia.
  - (* more than 53 bits: rounded *)
    destruct (binary_round_aux_normal (Z.pos p) 0 loc_Exact)
      as (M & E & -> & HM & HE & _ & _);
      fold d; rewrite ?Hk; try lia.
    { trans (2 ^ (d - 1)); [| done]. apply Z.pow_le_mono_r; lia. }
    exists M, E. split; [done |]. split; [done |]. split; [lia |].
    intros Hlt. exfalso.
    assert (2 ^ 53 ≤ 2 ^ (d - 1)) by (apply Z.pow_le_mono_r; lia). lia.
  - (* fewer than 53 bits: shifted left, exact *)
    set (mz := Pos.iter xO p k).
    assert (Z.pos mz = Z.pos p * 2 ^ Z.pos k) as Hmz by apply pos_iter_xO.
    assert (2 ^ 52 ≤ Z.pos mz < 2 ^ 53) as Hr.
    { rewrite Hmz. replace 52 with ((d - 1) + Z.pos k) by lia.
      replace 53 with (d + Z.pos k) by lia.
      rewrite !Z.pow_add_r by lia.
      assert (0 < 2 ^ Z.pos k) by (by apply Z.pow_pos_nonneg). nia. }
    assert (Zdigits2 (Z.pos mz) = 53) as Hdz by (by apply Zdigits2_unique).
    destruct (binary_round_aux_normal (Z.pos mz) (Z.neg k) loc_Exact)
      as (M & E & -> & HM & HE & _ & Hex);
      rewrite ?Hdz; try lia.
    destruct (Hex eq_refl ltac:(lia)) as [HMeq ->].
    exists M, (Z.neg k). split; [done |]. split; [done |]. split; [lia |].
    intros _. split; [lia |]. rewrite HMeq, Hmz. done.
Qed.

(** One unit in the last place is at most [2**-52] of a 53-bit mantissa:
    the arithmetic behind both rounding bounds below. *)
Lemma ulp_bound M X Y q' big small :
  0 < X → 0 < Y → 0 ≤ small → 2 ^ 52 ≤ q' →
  M * X ≤ q' + 1 → q' * Y ≤ big → 
  M * 2 ^ 52 * (X * Y) ≤ big * (2 ^ 52 + 1).
Proof.
  intros HX HY _ Hq HM Hbig.
  trans ((q' + 1) * 2 ^ 52 * Y); [nia |].
  trans (q' * (2 ^ 52 + 1) * Y); nia.
Qed.

(** [a / b] on ints [0 < a ≤ b < 2**1000] is finite and at most
    [(a / b) * (1 + 2**-52)]. *)
Lemma int_truediv_finite a b :
  0 < a ≤ b → b < 2 ^ 1000 →
  ∃ M E, int_truediv a b = Ok (S754_finite false M E)
    ∧ 2 ^ 52 ≤ Z.pos M < 2 ^ 53
    ∧ -1052 ≤ E ≤ -51
    ∧ Z.pos M * 2 ^ 52 * b ≤ a * (2 ^ 52 + 1) * 2 ^ (- E).
Proof.
  intros [Ha Hab] Hb.
  destruct (Zdigits2_bounds a Ha) as [Halo Hahi].
  destruct (Zdigits2_bounds b ltac:(lia)) as [Hblo Hbhi].
  set (d1 := Zdigits2 a) in *. set (d2 := Zdigits2 b) in *.
  assert (0 < d1) as Hd1 by (unfold d1; destruct a; done).
  assert (d1 ≤ d2) as Hd12.
  { destruct (Z.le_gt_cases d1 d2); [done |].
    assert (2 ^ d2 ≤ 2 ^ (d1 - 1)) by (apply Z.pow_le_mono_r; lia). lia. }
  assert (d2 ≤ 1000) as Hd2.
  { destruct (Z.le_gt_cases d2 1000); [done |].
    assert (2 ^ 1000 ≤ 2 ^ (d2 - 1)) by (apply Z.pow_le_mono_r; lia). lia. }
  unfold int_truediv, prec, emax.
  destruct (Z.eqb_spec b 0); [lia |]. destruct (Z.eqb_spec a 0); [lia |].
  rewrite !Z.abs_eq by lia.
  replace (a <? 0) with false by (symmetry; apply Z.ltb_ge; lia).
  replace (b <? 0) with false by (symmetry; apply Z.ltb_ge; lia).
  unfold SFdiv_core_binary. fold d1 d2. rewrite !Z.add_0_r, Z.sub_diag.
  replace (fexp 53 1024 (d1 - d2)) with (d1 - d2 - 53)
    by (unfold fexp, emin; lia).
  rewrite Z.min_l by lia.
  set (e' := d1 - d2 - 53). set (s := - e').
  replace (0 - e') with s by lia.
  destruct s as [|ps|ps] eqn:Hs; try lia. rewrite <- Hs.
  rewrite Z.shiftl_mul_pow2 by lia.
  assert (0 < 2 ^ s) as HS by (apply Z.pow_pos_nonneg; lia).
  pose proof (Z.div_eucl_eq (a * 2 ^ s) b ltac:(lia)) as Heucl.
  pose proof (Z.mod_pos_bound (a * 2 ^ s) b ltac:(lia)) as Hmod.
  unfold Z.modulo, Z.div in *.
  destruct (Z.div_eucl (a * 2 ^ s) b) as [q r]. simpl in *.
  assert (2 ^ 52 ≤ q < 2 ^ 54) as Hq.
  { assert (2 ^ (52 + d2) ≤ a * 2 ^ s) as H1.
    { replace (52 + d2) with ((d1 - 1) + s) by lia.
      rewrite Z.pow_add_r by lia. nia. }
    assert (a * 2 ^ s < 2 ^ (54 + (d2 - 1))) as H2.
    { replace (54 + (d2 - 1)) with (d1 + s) by lia.
      rewrite Z.pow_add_r by lia. nia. }
    rewrite Z.pow_add_r in H1, H2 by lia. split; nia. }
  destruct (Zdigits2_bounds q ltac:(lia)) as [Hqlo Hqhi].
  set (dq := Zdigits2 q) in *.
  assert (53 ≤ dq ≤ 54) as Hdq.
  { split.
    - destruct (Z.le_gt_cases 53 dq); [done |].
      assert (2 ^ dq ≤ 2 ^ 52) by (apply Z.pow_le_mono_r; lia). lia.
    - destruct (Z.le_gt_cases dq 54); [done |].
      assert (2 ^ 54 ≤ 2 ^ (dq - 1)) by (apply Z.pow_le_mono_r; lia). lia. }
  destruct (binary_round_aux_normal q e' (new_location b r))
    as (M & E & -> & HM & HE & Hval & _); fold dq; try lia.
  exists M, E. split; [done |]. split; [done |]. split; [lia |].
  set (nq := dq - 53) in *. set (δ := E - (e' + nq)) in *.
  assert (0 < 2 ^ nq) as HY by (apply Z.pow_pos_nonneg; lia).
  assert (0 < 2 ^ δ) as HX by (apply Z.pow_pos_nonneg; lia).
  assert (0 < 2 ^ (- E)) as HA by (apply Z.pow_pos_nonneg; lia).
  assert (2 ^ s = 2 ^ (- E) * (2 ^ δ * 2 ^ nq)) as HSeq.
  { rewrite <- !Z.pow_add_r by lia. f_equal. lia. }
  assert (2 ^ 52 ≤ q `div` 2 ^ nq) as Hq'.
  { apply Z.div_le_lower_bound; [done |].
    replace (dq - 1) with (nq + 52) in Hqlo by lia.
    rewrite Z.pow_add_r in Hqlo by lia. lia. }
  pose proof (Z.mul_div_le q (2 ^ nq) HY) as Hq'q.
  pose proof (ulp_bound (Z.pos M) (2 ^ δ) (2 ^ nq) (q `div` 2 ^ nq) q 0
                HX HY ltac:(lia) Hq' Hval ltac:(lia)) as Hulp.
  apply (Z.mul_le_mono_pos_r _ _ (2 ^ δ * 2 ^ nq)); [nia |].
  trans (q * (2 ^ 52 + 1) * b); [nia |].
  trans (a * 2 ^ s * (2 ^ 52 + 1)); [nia |].
  rewrite HSeq. lia.
Qed.

(** The product of two normal floats is finite, and at most the exact
    product times [1 + 2**-52]. *)
Lemma mul_finite Mx Ex My Ey :
  2 ^ 52 ≤ Z.pos Mx < 2 ^ 53 → 2 ^ 52 ≤ Z.pos My < 2 ^ 53 →
  -1126 ≤ Ex + Ey ≤ 917 →
  ∃ M E, mul (S754_finite false Mx Ex) (S754_finite false My Ey)
           = S754_finite false M E
    ∧ Ex + Ey + 52 ≤ E
    ∧ Z.pos M * 2 ^ 52 * 2 ^ (E - Ex - Ey)
        ≤ Z.pos Mx * Z.pos My * (2 ^ 52 + 1).
Proof.
  intros HMx HMy HE. unfold mul, SFmul, prec, emax. simpl xorb.
  rewrite Pos2Z.inj_mul. set (P := Z.pos Mx * Z.pos My).
  assert (2 ^ 104 ≤ P < 2 ^ 106) as HP.
  { change (2 ^ 104) with (2 ^ 52 * 2 ^ 52).
    change (2 ^ 106) with (2 ^ 53 * 2 ^ 53). unfold P. nia. }
  destruct (Zdigits2_bounds P ltac:(lia)) as [HPlo HPhi].
  set (dP := Zdigits2 P) in *.
  assert (105 ≤ dP ≤ 106) as HdP.
  { split.
    - destruct (Z.le_gt_cases 105 dP); [done |].
      assert (2 ^ dP ≤ 2 ^ 104) by (apply Z.pow_le_mono_r; lia). lia.
    - destruct (Z.le_gt_cases dP 106); [done |].
      assert (2 ^ 106 ≤ 2 ^ (dP - 1)) by (apply Z.pow_le_mono_r; lia). lia. }
  destruct (binary_round_aux_normal P (Ex + Ey) loc_Exact)
    as (M & E & -> & HM & HEr & Hval & _); fold dP; try lia.
  exists M, E. split; [done |]. split; [lia |].
  set (nP := dP - 53) in *. set (δ := E - (Ex + Ey + nP)) in *.
  assert (0 < 2 ^ nP) as HY by (apply Z.pow_pos_nonneg; lia).
  assert (0 < 2 ^ δ) as HX by (apply Z.pow_pos_nonneg; lia).
  replace (2 ^ (E - Ex - Ey)) with (2 ^ δ * 2 ^ nP)
    by (rewrite <- Z.pow_add_r by lia; f_equal; lia).
  assert (2 ^ 52 ≤ P `div` 2 ^ nP) as HP'.
  { apply Z.div_le_lower_bound; [done |].
    replace (dP - 1) with (nP + 52) in HPlo by lia.
    rewrite Z.pow_add_r in HPlo by lia. lia. }
  pose proof (Z.mul_div_le P (2 ^ nP) HY) as HP'P.
  apply (ulp_bound _ _ _ (P `div` 2 ^ nP) P 0); try done; lia.
Qed.

(** [math.floor] of a finite non-negative float. *)
Lemma floor_finite M E :
  ∃ f, floor (S754_finite false M E) = Ok f
    ∧ ∀ g, 0 ≤ g → 0 ≤ E + g → f * 2 ^ g ≤ Z.pos M * 2 ^ (E + g).
Proof.
  unfold floor. simpl cond_Zopp. eexists. split; [done |].
  intros g Hg HEg. destruct (Z.le_gt_cases 0 E).
  - rewrite Z.shiftl_mul_pow2, Z.pow_add_r by lia. lia.
  - rewrite <- Z.shiftr_opp_r, Z.shiftr_div_pow2 by lia.
    assert (0 < 2 ^ (- E)) as HnE by (apply Z.pow_pos_nonneg; lia).
    pose proof (Z.mul_div_le (Z.pos M) (2 ^ (- E)) HnE) as Hdiv.
    replace g with ((- E) + (E + g)) at 1 by lia.
    rewrite Z.pow_add_r by lia.
    assert (0 < 2 ^ (E + g)) by (apply Z.pow_pos_nonneg; lia). nia.
Qed.

(** [int(math.floor(remaining * (cap_rem / remaining_total)))]: it is
    computed without error below [2**1000], and it does not exceed the
    exact quotient when [remaining * cap_rem < 2**50]. *)
Lemma floor_share remaining cap_rem remaining_total :
  0 < remaining < 2 ^ 1000 →
  0 < cap_rem ≤ remaining_total → remaining_total < 2 ^ 1000 →
  ∃ f, (prop ← int_truediv cap_rem remaining_total ;
        x ← int_mul_float remaining prop ;
        floor x) = Ok f
    ∧ (remaining * cap_rem < 2 ^ 50 →
       f ≤ (remaining * cap_rem) `div` remaining_total).
Proof.
  intros HR Hc HT.
  destruct (int_truediv_finite cap_rem remaining_total Hc HT)
    as (Mp & Ep & -> & HMp & HEp & Hp).
  destruct (of_int_finite remaining HR) as (Mx & Ex & Hx & HMx & HEx & Hexact).
  destruct (mul_finite Mx Ex Mp Ep HMx HMp ltac:(lia))
    as (My & Ey & Hy & HEy & Hmul).
  destruct (floor_finite My Ey) as (f & Hf & Hfloor).
  exists f. split.
  { unfold mbind, res_bind, int_mul_float. rewrite Hx.
    unfold mbind, res_bind, ret. by rewrite Hy. }
  intros Hsmall.
  assert (remaining < 2 ^ 53) as HR53.
  { destruct (Z.le_gt_cases (2 ^ 53) remaining); [| lia].
    assert (2 ^ 53 * 1 ≤ remaining * cap_rem) by nia. lia. }
  destruct (Hexact HR53) as [HEx0 HMxeq].
  set (a := - Ep) in *. set (b := - Ex) in *.
  assert (0 < 2 ^ a) as HA by (apply Z.pow_pos_nonneg; lia).
  assert (0 < 2 ^ b) as HB by (apply Z.pow_pos_nonneg; lia).
  specialize (Hfloor (a + b) ltac:(lia) ltac:(lia)).
  replace (Ey + (a + b)) with (Ey - Ex - Ep) in Hfloor by lia.
  rewrite Z.pow_add_r in Hfloor by lia. rewrite HMxeq in Hmul.
  assert (f * 2 ^ 52 * 2 ^ a ≤ remaining * Z.pos Mp * (2 ^ 52 + 1)) as H1.
  { apply (Z.mul_le_mono_pos_r _ _ (2 ^ b)); [done |]. nia. }
  assert (f * remaining_total * 2 ^ 104
            ≤ remaining * cap_rem * ((2 ^ 52 + 1) * (2 ^ 52 + 1))) as H2.
  { change (2 ^ 104) with (2 ^ 52 * 2 ^ 52).
    apply (Z.mul_le_mono_pos_r _ _ (2 ^ a)); [done |].
    trans (remaining * (2 ^ 52 + 1) * (Z.pos Mp * 2 ^ 52 * remaining_total));
      [nia |].
    trans (remaining * (2 ^ 52 + 1) * (cap_rem * (2 ^ 52 + 1) * 2 ^ a));
      [| lia].
    apply Z.mul_le_mono_nonneg_l; [lia | done]. }
  apply Z.div_le_lower_bound; [lia |].
  assert (f * remaining_total < remaining * cap_rem + 1); [| lia].
  apply (Z.mul_lt_mono_pos_r (2 ^ 104)); [done |].
  eapply Z.le_lt_trans; [exact H2 |].
  change ((2 ^ 52 + 1) * (2 ^ 52 + 1)) with (2 ^ 104 + (2 ^ 53 + 1)).
  assert (remaining * cap_rem * (2 ^ 53 + 1) < 2 ^ 104); [| lia].
  change (2 ^ 104) with (2 ^ 50 * 2 ^ 54). nia.
Qed.

End Binary64.
(** ** Dictionaries *)

Section DictFacts.
Context {K : Type} `{EqDecision K}.
Implicit Types (d : dict K) (k : K) (v : Z) (ks : list K).

Lemma keys_from_keys (f : K → Z) ks : keys (from_keys f ks) = ks.
Proof.
  unfold keys, from_keys. rewrite <- list_fmap_compose.
  induction ks as [|k ks IH]; simpl; [done | by f_equal].
Qed.

Lemma values_from_keys (f : K → Z) ks : values (from_keys f ks) = f <$> ks.
Proof. unfold values, from_keys. by rewrite <- list_fmap_compose. Qed.

Lemma item_from_keys (f : K → Z) ks k :
  k ∈ ks → item (from_keys f ks) k = f k.
Proof.
  induction ks as [|k' ks IH]; intros Hin; [by apply elem_of_nil in Hin |].
  simpl. case_decide as Hk; [by subst |].
  apply IH. apply elem_of_cons in Hin as [->|]; done.
Qed.

Lemma item_elem_of d k v : NoDup (keys d) → (k, v) ∈ d → item d k = v.
Proof.
  induction d as [|[k' v'] d IH]; intros Hnd Hin; [by apply elem_of_nil in Hin |].
  simpl in *. apply NoDup_cons in Hnd as [Hk' Hnd].
  apply elem_of_cons in Hin as [Heq|Hin].
  - injection Heq as -> ->. by rewrite decide_True.
  - case_decide as Hk; [| by apply IH].
    subst k'. exfalso. apply Hk'.
    change k with ((k, v).1). by apply list_elem_of_fmap_2.
Qed.

Lemma elem_of_keys d k : k ∈ keys d ↔ ∃ v, (k, v) ∈ d.
Proof.
  unfold keys. rewrite list_elem_of_fmap. split.
  - intros [[k' v] [-> Hin]]. by exists v.
  - intros [v Hin]. by exists (k, v).
Qed.

Lemma elem_of_item d k : k ∈ keys d → (k, item d k) ∈ d.
Proof.
  induction d as [|[k' v'] d IH]; intros Hin; [by apply elem_of_nil in Hin |].
  simpl in *. case_decide as Hk.
  - subst. apply elem_of_cons. by left.
  - apply elem_of_cons. right. apply IH.
    apply elem_of_cons in Hin as [->|]; done.
Qed.

Lemma keys_set_item d k v : k ∈ keys d → keys (set_item d k v) = keys d.
Proof.
  induction d as [|[k' v'] d IH]; intros Hin; [by apply elem_of_nil in Hin |].
  simpl in *. case_decide as Hk; simpl; [done |].
  f_equal. apply IH. apply elem_of_cons in Hin as [->|]; done.
Qed.

Lemma item_set_item d k v k' :
  item (set_item d k v) k' = if decide (k = k') then v else item d k'.
Proof.
  induction d as [|[k0 v0] d IH]; simpl.
  - destruct (decide (k = k')); done.
  - destruct (decide (k0 = k)) as [->|Hne]; simpl.
    + destruct (decide (k = k')); done.
    + destruct (decide (k0 = k')) as [->|Hne'].
      * by rewrite decide_False.
      * apply IH.
Qed.

Lemma sum_set_item d k v :
  k ∈ keys d →
  sum (values (set_item d k v)) = sum (values d) - item d k + v.
Proof.
  induction d as [|[k' v'] d IH]; intros Hin; [by apply elem_of_nil in Hin |].
  simpl in *. case_decide as Hk; simpl; [lia |].
  rewrite IH; [lia |]. apply elem_of_cons in Hin as [->|]; done.
Qed.

Lemma sum_app (l1 l2 : list Z) : sum (l1 ++ l2) = sum l1 + sum l2.
Proof. induction l1 as [|x l1 IH]; simpl; lia. Qed.

Lemma sum_fmap_le (f g : K → Z) ks :
  (∀ k, k ∈ ks → f k ≤ g k) → sum (f <$> ks) ≤ sum (g <$> ks).
Proof.
  induction ks as [|k ks IH]; intros Hle; [done |].
  rewrite !fmap_cons. cbn [sum].
  pose proof (Hle k ltac:(left)).
  assert (sum (f <$> ks) ≤ sum (g <$> ks)); [| lia].
  apply IH. intros k' Hk'. apply Hle. by right.
Qed.

Lemma sum_fmap_add (f g : K → Z) ks :
  sum ((λ k, f k + g k) <$> ks) = sum (f <$> ks) + sum (g <$> ks).
Proof.
  induction ks as [|k ks IH]; [done |].
  rewrite !fmap_cons. cbn [sum]. rewrite IH. lia.
Qed.

Lemma sum_fmap_const (c : Z) ks : sum ((λ _, c) <$> ks) = len ks * c.
Proof.
  induction ks as [|k ks IH]; [done |].
  rewrite fmap_cons. cbn [sum]. rewrite IH. unfold len. rewrite length_cons. lia.
Qed.

Lemma sum_values_items d :
  NoDup (keys d) → sum (values d) = sum (item d <$> keys d).
Proof.
  intros Hnd. induction d as [|[k v] d IH]; simpl in *; [done |].
  apply NoDup_cons in Hnd as [Hk Hnd]. rewrite decide_True by done.
  rewrite IH by done. f_equal.
  f_equal. apply list_fmap_ext. intros i k' Hk'. simpl.
  rewrite decide_False; [done |]. intros ->. apply Hk.
  by eapply list_elem_of_lookup_2.
Qed.

Lemma insert_desc_perm (key : K → Z) k ks : insert_desc key k ks ≡ₚ k :: ks.
Proof.
  induction ks as [|k' ks IH]; simpl; [done |].
  case_match; [| done]. rewrite IH. apply Permutation_swap.
Qed.

Lemma sorted_desc_perm (key : K → Z) ks : sorted_desc key ks ≡ₚ ks.
Proof.
  induction ks as [|k' ks IH]; simpl; [done |].
  rewrite insert_desc_perm. by f_equiv.
Qed.

Lemma elem_of_sorted_desc (key : K → Z) ks k : k ∈ sorted_desc key ks ↔ k ∈ ks.
Proof. by rewrite sorted_desc_perm. Qed.

Lemma keys_filter (P : K * Z → Prop) `{∀ x, Decision (P x)} d k :
  k ∈ keys (filter P d) → ∃ v, (k, v) ∈ d ∧ P (k, v).
Proof.
  intros [v Hin]%elem_of_keys. apply list_elem_of_filter in Hin as [? ?].
  by exists v.
Qed.

Lemma NoDup_keys_filter (P : K * Z → Prop) `{∀ x, Decision (P x)} d :
  NoDup (keys d) → NoDup (keys (filter P d)).
Proof.
  intros Hnd. unfold keys.
  apply (sublist_NoDup _ (d.*1)); [exact Hnd |].
  apply fmap_sublist, sublist_filter.
Qed.

Lemma item_filter (P : K * Z → Prop) `{∀ x, Decision (P x)} d k :
  NoDup (keys d) → k ∈ keys (filter P d) →
  item (filter P d) k = item d k ∧ P (k, item d k).
Proof.
  intros Hnd Hin. destruct (keys_filter P d k Hin) as (v & Hv & HP).
  rewrite (item_elem_of d k v) by done. split; [| done].
  apply item_elem_of; [by apply NoDup_keys_filter |].
  by apply list_elem_of_filter.
Qed.

End DictFacts.

(** ** The two bounded loops *)

Section LoopFacts.
Context {K : Type} `{EqDecision K}.
Implicit Types (d : dict K) (k : K) (ks : list K).

(** Whatever an increment of a key below its capacity preserves, the
    first loop preserves. *)
Lemma top_up_loop_ind (P : dict K → Prop) total capacities sorted_keys :
  (∀ d k, P d → k ∈ sorted_keys → sum (values d) < total →
          item d k < item capacities k →
          P (set_item d k (item d k + 1))) →
  ∀ n i d, P d → P (top_up_loop total capacities sorted_keys n i d).
Proof.
  intros Hstep. induction n as [|n IH]; intros i d HP; simpl; [done |].
  destruct (Z.ltb_spec (sum (values d)) total) as [Hlt|]; [| done].
  destruct (sorted_keys !! _) as [k|] eqn:Hk; [| done].
  apply IH. destruct (Z.ltb_spec (item d k) (item capacities k)); [| done].
  apply Hstep; try done. by eapply list_elem_of_lookup_2.
Qed.

(** The same for the second loop, which also counts [leftover] down. *)
Lemma leftover_loop_ind (P : Z → dict K → Prop) remaining_capacity sorted_keys :
  (∀ l d k, P l d → k ∈ sorted_keys → 0 < l →
            item d k < item remaining_capacity k →
            P (l - 1) (set_item d k (item d k + 1))) →
  ∀ n i l d, P l d →
    ∃ l', P l' (leftover_loop remaining_capacity sorted_keys n i l d).
Proof.
  intros Hstep. induction n as [|n IH]; intros i l d HP; simpl; [by exists l |].
  destruct (Z.ltb_spec 0 l) as [Hlt|]; [| by exists l].
  destruct (sorted_keys !! _) as [k|] eqn:Hk; [| by exists l].
  destruct (Z.ltb_spec (item d k) (item remaining_capacity k)).
  - apply IH, Hstep; try done. by eapply list_elem_of_lookup_2.
  - by apply IH.
Qed.

(** The invariant both loops keep: the keys stay, every value moves
    between its start and its cap. *)
Definition between (ks : list K) (lo hi : K → Z) (d : dict K) : Prop :=
  keys d = ks ∧ ∀ k, k ∈ ks → lo k ≤ item d k ≤ hi k.

Lemma between_step ks lo hi d k :
  between ks lo hi d → k ∈ ks → item d k < hi k →
  between ks lo hi (set_item d k (item d k + 1)).
Proof.
  intros [Hks Hb] Hk Hlt. split.
  - rewrite keys_set_item; [done |]. by rewrite Hks.
  - intros k' Hk'. rewrite item_set_item. specialize (Hb k' Hk').
    case_decide; [subst; lia | done].
Qed.

Lemma top_up_loop_between total capacities ks key n i d :
  between ks (item d) (item capacities) d →
  sum (values d) ≤ total →
  let d' := top_up_loop total capacities (sorted_desc key ks) n i d in
  between ks (item d) (item capacities) d' ∧ sum (values d') ≤ total.
Proof.
  intros Hb Hsum. simpl.
  apply (top_up_loop_ind
           (λ d', between ks (item d) (item capacities) d' ∧
                  sum (values d') ≤ total)); [| done].
  intros d' k [Hb' Hs'] Hk%elem_of_sorted_desc Hlt Hcap. split.
  - by apply between_step.
  - rewrite sum_set_item; [lia |]. by rewrite (proj1 Hb').
Qed.

Lemma leftover_loop_between remaining_capacity ks key n i leftover d :
  between ks (item d) (item remaining_capacity) d →
  0 ≤ leftover →
  let d' := leftover_loop remaining_capacity (sorted_desc key ks) n i leftover d in
  between ks (item d) (item remaining_capacity) d' ∧
  sum (values d') ≤ sum (values d) + leftover.
Proof.
  intros Hb Hl. simpl.
  destruct (leftover_loop_ind
    (λ l d', 0 ≤ l ∧ between ks (item d) (item remaining_capacity) d' ∧
             sum (values d') + l = sum (values d) + leftover)
    remaining_capacity (sorted_desc key ks)) with (n := n) (i := i)
    (l := leftover) (d := d) as (l' & Hl' & Hb' & Hs'); [| done | split; [done | lia]].
  intros l d' k (Hl0 & Hb' & Hs') Hk%elem_of_sorted_desc Hlt Hcap.
  split; [lia |]. split.
  - by apply between_step.
  - rewrite sum_set_item; [lia |]. by rewrite (proj1 Hb').
Qed.

Lemma between_from_keys ks (f lo hi : K → Z) :
  (∀ k, k ∈ ks → lo k ≤ f k ≤ hi k) → between ks lo hi (from_keys f ks).
Proof.
  intros Hf. split; [apply keys_from_keys |].
  intros k Hk. rewrite item_from_keys by done. by apply Hf.
Qed.

Lemma between_weaken ks (lo lo' hi hi' : K → Z) d :
  between ks lo hi d →
  (∀ k, k ∈ ks → lo' k ≤ lo k ∧ hi k ≤ hi' k) →
  between ks lo' hi' d.
Proof.
  intros [Hks Hb] Hw. split; [done |]. intros k Hk.
  specialize (Hb k Hk). specialize (Hw k Hk). lia.
Qed.

Lemma between_elem_of ks lo hi d k q :
  NoDup ks → between ks lo hi d → (k, q) ∈ d → k ∈ ks ∧ lo k ≤ q ≤ hi k.
Proof.
  intros Hnd [Hks Hb] Hin.
  assert (k ∈ ks) as Hk by (rewrite <- Hks; apply elem_of_keys; eauto).
  split; [done |]. rewrite <- (item_elem_of d k q); [by apply Hb | by rewrite Hks | done].
Qed.

End LoopFacts.

(** ** Signs of the float operations *)

Module PyFloatFacts.
Import PyFloat.

(** [x] is not negative: its sign bit, when it has one, is clear. *)
Definition nonneg (x : float) : Prop :=
  match x with
  | S754_zero s | S754_infinity s | S754_finite s _ _ => s = false
  | S754_nan => True
  end.

Lemma binary_round_aux_nonneg m e l :
  nonneg (binary_round_aux prec emax false m e l).
Proof.
  unfold binary_round_aux.
  destruct (shr_fexp _ _ m e l) as [mrs' e'].
  destruct (shr_fexp _ _ _ e' loc_Exact) as [mrs'' e''].
  destruct (shr_m mrs''); simpl; [done | | done]. by case_match.
Qed.

Lemma int_truediv_nonneg a b x :
  0 < a → 0 < b → int_truediv a b = Ok x → nonneg x.
Proof.
  intros Ha Hb. unfold int_truediv.
  destruct (Z.eqb_spec b 0); [lia |]. destruct (Z.eqb_spec a 0); [lia |].
  destruct (SFdiv_core_binary _ _ _ _ _ _) as [[q e] l].
  replace (a <? 0) with false by (symmetry; apply Z.ltb_ge; lia).
  replace (b <? 0) with false by (symmetry; apply Z.ltb_ge; lia).
  pose proof (binary_round_aux_nonneg q e l) as Hs. simpl xorb.
  destruct (binary_round_aux _ _ _ _ _ _); simpl; intros [= <-]; done.
Qed.

Lemma of_int_nonneg n x : 0 < n → of_int n = Ok x → nonneg x.
Proof.
  intros Hn. unfold of_int. destruct n as [|p|p]; try lia.
  unfold binary_normalize, binary_round.
  destruct (shl_align _ _ _) as [mz ez].
  pose proof (binary_round_aux_nonneg (Z.pos mz) ez loc_Exact) as Hs.
  destruct (binary_round_aux _ _ _ _ _ _); simpl; intros [= <-]; done.
Qed.

Lemma mul_nonneg x y : nonneg x → nonneg y → nonneg (mul x y).
Proof.
  destruct x as [sx|sx| |sx mx ex], y as [sy|sy| |sy my ey]; simpl;
    try done; try (by intros -> ->).
  intros -> ->. apply binary_round_aux_nonneg.
Qed.

Lemma floor_nonneg x f : nonneg x → floor x = Ok f → 0 ≤ f.
Proof.
  destruct x as [s|s| |s m e]; simpl; try done.
  - by intros _ [= <-].
  - intros -> [= <-]. simpl. by apply Z.shiftl_nonneg.
Qed.

End PyFloatFacts.

(** ** The proportional pass *)

Section PassFacts.
Context {K : Type} `{EqDecision K}.
Implicit Types (d : dict K) (k : K) (ks : list K).

Lemma proportional_share_range remaining remaining_total cap_rem add :
  0 < remaining → 0 < remaining_total →
  proportional_share remaining remaining_total cap_rem = Ok add →
  (cap_rem ≤ 0 → add = 0) ∧ (0 < cap_rem → 0 ≤ add ≤ cap_rem).
Proof.
  intros HR HT. unfold proportional_share.
  destruct (Z.leb_spec cap_rem 0) as [Hc|Hc].
  { intros [= <-]. split; [done | lia]. }
  destruct (PyFloat.int_truediv _ _) as [prop|] eqn:Hdiv; [| done]. simpl.
  unfold PyFloat.int_mul_float.
  destruct (PyFloat.of_int _) as [x|] eqn:Hx; [| done]. simpl.
  destruct (PyFloat.floor _) as [f|] eqn:Hf; [| done]. simpl.
  intros [= <-]. split; [lia |]. intros _.
  assert (0 ≤ f); [| lia].
  eapply PyFloatFacts.floor_nonneg; [| exact Hf].
  apply PyFloatFacts.mul_nonneg.
  - by apply (PyFloatFacts.of_int_nonneg remaining).
  - by apply (PyFloatFacts.int_truediv_nonneg cap_rem remaining_total).
Qed.

Lemma proportional_pass_spec remaining remaining_total remaining_capacity ks
    extra_alloc running_total :
  0 < remaining → 0 < remaining_total →
  proportional_pass remaining remaining_total remaining_capacity ks
    = Ok (extra_alloc, running_total) →
  keys extra_alloc = ks ∧
  running_total = sum (values extra_alloc) ∧
  ∀ k, k ∈ ks →
    proportional_share remaining remaining_total (item remaining_capacity k)
      = Ok (item extra_alloc k).
Proof.
  intros HR HT. revert extra_alloc running_total.
  induction ks as [|k ks IH]; intros extra running; simpl.
  { intros [= <- <-]. split; [done |]. split; [done |].
    intros k Hk. by apply elem_of_nil in Hk. }
  destruct (proportional_share _ _ _) as [add|] eqn:Hadd; [| done]. simpl.
  destruct (proportional_pass _ _ _ _) as [[extra' running']|]; [| done]. simpl.
  intros [= <- <-]. destruct (IH extra' running' eq_refl) as (Hks & Hrun & Hshare).
  split; [simpl; by f_equal |]. split; [simpl; by f_equal |].
  intros k' Hk'. simpl. case_decide as Hkk; [by subst |].
  apply Hshare. apply elem_of_cons in Hk' as [->|]; done.
Qed.

End PassFacts.

(** ** The allocator, branch by branch *)

Section AllocFacts.
Context {K : Type} `{EqDecision K}.
Implicit Types (d capacities : dict K) (k : K) (ks : list K).

(** The strata that survive [# Drop zero-capacity strata]. *)
Definition live capacities : dict K := filter (λ kv, 0 < kv.2) capacities.

(** The floor allocation of regime B and what is left after it. *)
Definition floor_alloc capacities (m : Z) : dict K :=
  from_keys (λ k, Z.min m (item capacities k)) (keys capacities).
Definition remaining_of (total : Z) capacities (m : Z) : Z :=
  total - sum (values (floor_alloc capacities m)).
Definition remaining_capacity_of capacities (m : Z) : dict K :=
  from_keys (λ k, item capacities k - item (floor_alloc capacities m) k)
    (keys capacities).
Definition remaining_total_of capacities (m : Z) : Z :=
  sum (filter (λ v, 0 < v) (values (remaining_capacity_of capacities m))).

(** The proportional pass hands out no more than the remaining budget. *)
Definition pass_within_budget (total : Z) capacities (m : Z) : Prop :=
  ∀ extra_alloc running_total,
    0 < remaining_of total capacities m →
    0 < remaining_total_of capacities m →
    proportional_pass (remaining_of total capacities m)
      (remaining_total_of capacities m) (remaining_capacity_of capacities m)
      (keys capacities) = Ok (extra_alloc, running_total) →
    running_total ≤ remaining_of total capacities m.

(** The least a stratum receives once the early returns are passed. *)
Definition lower (total : Z) capacities (m : Z) (k : K) : Z :=
  if total <? len (keys capacities) * m
  then Z.min (total `div` len (keys capacities)) (item capacities k)
  else Z.min m (item capacities k).

Lemma alloc_early total capacities m :
  keys capacities = [] ∨ total ≤ 0 →
  alloc_proportional_with_min total capacities m
    = Ok (from_keys (λ _, 0) (keys capacities)).
Proof.
  intros Hearly. unfold alloc_proportional_with_min.
  destruct (bool_decide (keys capacities = [])) eqn:Hk; [done |].
  apply bool_decide_eq_false in Hk. destruct Hearly as [|Hle]; [done |].
  by destruct (Z.leb_spec total 0); [| lia].
Qed.

Lemma live_positive capacities k :
  NoDup (keys capacities) → k ∈ keys (live capacities) →
  item (live capacities) k = item capacities k ∧ 0 < item capacities k.
Proof. intros Hnd Hk. by apply (item_filter (λ kv, 0 < kv.2)). Qed.

Lemma sum_live_positive capacities :
  live capacities ≠ [] → 0 < sum (values (live capacities)).
Proof.
  unfold live.
  assert (∀ d : dict K, Forall (λ kv, 0 < kv.2) d → d ≠ [] → 0 < sum (values d))
    as Hpos.
  { induction d as [|[k v] [|kv d] IH]; intros Hall Hne; [done | |].
    - apply Forall_cons in Hall as [? _]. simpl in *. lia.
    - apply Forall_cons in Hall as [? Hall]. specialize (IH Hall ltac:(done)).
      simpl in *. lia. }
  apply Hpos. by apply Forall_forall; intros x [? ?]%list_elem_of_filter.
Qed.

Lemma sum_floor_share_le (total : Z) capacities :
  0 ≤ total → keys capacities ≠ [] →
  sum (values (from_keys
                 (λ k, Z.min (total `div` len (keys capacities)) (item capacities k))
                 (keys capacities))) ≤ total.
Proof.
  intros Htot Hne. rewrite values_from_keys.
  set (n := len (keys capacities)).
  assert (0 < n) as Hn.
  { unfold n, len. destruct (keys capacities); [done | simpl; lia]. }
  trans (sum ((λ _, total `div` n) <$> keys capacities)).
  - apply sum_fmap_le. intros k _. lia.
  - rewrite sum_fmap_const. fold n.
    pose proof (Z.mul_div_le total n Hn). lia.
Qed.

(** What [alloc_proportional_with_min] returns when [total > 0]: the
    live keys, each between [lower] and its capacity; and a sum within
    [total] whenever the proportional pass stays within budget. *)
Lemma alloc_main total capacities m result :
  NoDup (keys capacities) → 0 < total →
  alloc_proportional_with_min total capacities m = Ok result →
  between (keys (live capacities)) (lower total (live capacities) m)
    (item (live capacities)) result ∧
  (len (keys (live capacities)) * m ≤ total →
   pass_within_budget total (live capacities) m →
   sum (values result) ≤ total) ∧
  (total < len (keys (live capacities)) * m → sum (values result) ≤ total).
Proof.
  intros Hnd Htot. unfold alloc_proportional_with_min. cbv zeta.
  fold (live capacities). set (caps := live capacities). set (ks := keys caps).
  destruct (bool_decide (keys capacities = [])) eqn:Hk0; simpl.
  { apply bool_decide_eq_true in Hk0. intros [= <-].
    assert (capacities = []) as Hnil by (by destruct capacities).
    subst ks caps capacities.
    split; [split; [done | intros k' Hk'; by apply elem_of_nil in Hk'] |].
    split; intros; simpl; lia. }
  destruct (Z.leb_spec total 0) as [|_]; [lia |].
  destruct (bool_decide (ks = [])) eqn:Hks.
  { apply bool_decide_eq_true in Hks. intros [= <-]. rewrite Hks.
    split; [split; [done | intros k' Hk'; by apply elem_of_nil in Hk'] |].
    split; intros; simpl; lia. }
  apply bool_decide_eq_false in Hks.
  assert (caps ≠ []) as Hcaps by (intros Heq; apply Hks; unfold ks; by rewrite Heq).
  pose proof (sum_live_positive capacities Hcaps) as Hpop. fold caps in Hpop.
  destruct (Z.eqb_spec (sum (values caps)) 0) as [|_]; [lia |].
  assert (NoDup ks) as Hndks by (by apply NoDup_keys_filter).
  unfold lower. fold ks.
  destruct (Z.ltb_spec total (len ks * m)) as [HA|HB].
  { (* regime A *)
    intros [= <-].
    set (base := total `div` len ks).
    set (alloc := from_keys (λ k, Z.min base (item caps k)) ks).
    destruct (top_up_loop_between total caps ks (item caps)
                (2 * length (sorted_desc (item caps) ks)) 0 alloc)
      as [Hb Hsum].
    - apply between_from_keys. intros k Hk. unfold alloc.
      rewrite item_from_keys by done. lia.
    - apply sum_floor_share_le; [lia | done].
    - split; [| split; [lia | done]].
      eapply between_weaken; [exact Hb |]. intros k Hk. unfold alloc.
      rewrite item_from_keys by done. lia. }
  (* regime B *)
  change (from_keys (λ k, Z.min m (item caps k)) ks) with (floor_alloc caps m).
  set (alloc := floor_alloc caps m).
  change (total - sum (values alloc)) with (remaining_of total caps m).
  set (remaining := remaining_of total caps m).
  assert (between ks (λ k, Z.min m (item caps k)) (item caps) alloc) as Halloc.
  { apply between_from_keys. lia. }
  assert (sum (values alloc) ≤ total) as Hfloor.
  { trans (len ks * m); [| done]. unfold alloc, floor_alloc.
    rewrite values_from_keys, <- sum_fmap_const.
    apply sum_fmap_le. intros k _. lia. }
  destruct (Z.leb_spec remaining 0) as [Hrem|Hrem].
  { intros [= <-]. split; [done |]. split; lia. }
  change (from_keys (λ k, item caps k - item alloc k) ks)
    with (remaining_capacity_of caps m).
  set (remaining_capacity := remaining_capacity_of caps m).
  change (sum (filter (λ v, 0 < v) (values remaining_capacity)))
    with (remaining_total_of caps m).
  set (remaining_total := remaining_total_of caps m).
  destruct (Z.leb_spec remaining_total 0) as [HT|HT].
  { intros [= <-]. split; [done |]. split; lia. }
  destruct (proportional_pass _ _ _ _) as [[extra running]|] eqn:Hpass;
    [| done]. simpl.
  intros [= <-].
  destruct (proportional_pass_spec _ _ _ _ _ _ Hrem HT Hpass)
    as (Hkeys & Hrun & Hshare).
  assert (∀ k, k ∈ ks → item remaining_capacity k
            = item caps k - Z.min m (item caps k)) as Hremcap.
  { intros k Hk. unfold remaining_capacity, remaining_capacity_of.
    rewrite item_from_keys by done. unfold floor_alloc.
    by rewrite item_from_keys. }
  assert (between ks (λ _, 0) (item remaining_capacity) extra) as Hextra.
  { split; [done |]. intros k Hk.
    destruct (proportional_share_range _ _ _ _ Hrem HT (Hshare k Hk)) as [H0 H1].
    rewrite Hremcap in * by done. lia. }
  set (extra' := if 0 <? remaining - running then _ else extra).
  assert (between ks (λ _, 0) (item remaining_capacity) extra' ∧
          (running ≤ remaining → sum (values extra') ≤ remaining))
    as [Hextra' Hsum'].
  { unfold extra'. destruct (Z.ltb_spec 0 (remaining - running)) as [Hl|Hl].
    - edestruct (leftover_loop_between remaining_capacity ks) as [Hb Hs];
        [| | split; [| intros _; etrans; [exact Hs | lia]]].
      + destruct Hextra as [? Hx]. split; [done |].
        intros k Hk. specialize (Hx k Hk). lia.
      + lia.
      + eapply between_weaken; [exact Hb |].
        intros k Hk. destruct Hextra as [_ Hx]. specialize (Hx k Hk). lia.
    - split; [done |]. lia. }
  split.
  { apply between_from_keys. intros k Hk.
    destruct Halloc as [_ Ha]. destruct Hextra' as [_ Hx].
    specialize (Ha k Hk). specialize (Hx k Hk).
    rewrite Hremcap in Hx by done.
    unfold alloc, floor_alloc in *. rewrite item_from_keys in * by done. lia. }
  split; [| lia]. intros _ Hbudget.
  specialize (Hsum' (Hbudget extra running Hrem HT Hpass)).
  rewrite values_from_keys.
  rewrite sum_fmap_add.
  rewrite <- (proj1 Halloc) at 1. rewrite <- sum_values_items
    by (by rewrite (proj1 Halloc)).
  rewrite <- (proj1 Hextra') at 1. rewrite <- sum_values_items
    by (by rewrite (proj1 Hextra')).
  unfold remaining, remaining_of in Hsum'. fold alloc in Hsum'. lia.
Qed.

End AllocFacts.

(** ** The allocator's contract *)

Section AllocTheorems.
Context {K : Type} `{EqDecision K}.
Implicit Types (d capacities result : dict K) (k : K) (ks : list K).

Lemma len_pos {A} (l : list A) (x : A) : x ∈ l → 0 < len l.
Proof.
  unfold len. destruct l; [by intros ?%elem_of_nil | simpl; lia].
Qed.

(** C2 (capacity bound).  Every key of the result whose capacity is
    positive is assigned at most that capacity, for every [total] and
    every [min_per_stratum]. *)
Theorem capacity_bound total capacities m result k q :
  NoDup (keys capacities) →
  alloc_proportional_with_min total capacities m = Ok result →
  (k, q) ∈ result →
  0 < item capacities k →
  q ≤ item capacities k.
Proof.
  intros Hnd Hres Hin Hpos.
  destruct (Z.le_gt_cases total 0) as [Hle|Hgt].
  - rewrite alloc_early in Hres by (by right). injection Hres as <-.
    apply list_elem_of_fmap in Hin as (k' & [= -> ->] & _). lia.
  - destruct (alloc_main total capacities m result Hnd Hgt Hres) as [Hb _].
    destruct (between_elem_of _ _ _ _ k q (NoDup_keys_filter _ _ Hnd) Hb Hin)
      as [Hk [_ Hq]].
    destruct (live_positive capacities k Hnd Hk) as [Heq _]. lia.
Qed.

(** C3 (minimum guarantee).  If [total] covers [min_per_stratum] for
    every key and every capacity is at least [min_per_stratum], every
    quota of the result is at least [min_per_stratum]. *)
Theorem minimum_guarantee total capacities m result k q :
  NoDup (keys capacities) →
  len (keys capacities) * m ≤ total →
  (∀ k' v, (k', v) ∈ capacities → m ≤ v) →
  alloc_proportional_with_min total capacities m = Ok result →
  (k, q) ∈ result →
  m ≤ q.
Proof.
  intros Hnd Htot Hcap Hres Hin.
  destruct (Z.le_gt_cases total 0) as [Hle|Hgt].
  - rewrite alloc_early in Hres by (by right). injection Hres as <-.
    apply list_elem_of_fmap in Hin as (k' & [= -> ->] & Hk').
    pose proof (len_pos _ _ Hk'). nia.
  - destruct (alloc_main total capacities m result Hnd Hgt Hres) as [Hb _].
    destruct (between_elem_of _ _ _ _ k q (NoDup_keys_filter _ _ Hnd) Hb Hin)
      as [Hk [Hq _]].
    destruct (live_positive capacities k Hnd Hk) as [Heq Hpos].
    assert (m ≤ item capacities k) as Hmk.
    { apply (Hcap k). apply elem_of_item.
      apply elem_of_keys. destruct (keys_filter _ _ _ Hk) as (v & ? & _). eauto. }
    assert (len (keys (live capacities)) ≤ len (keys capacities)) as Hlen.
    { unfold len, keys, live. rewrite !length_fmap.
      apply inj_le, length_filter. }
    unfold lower in Hq.
    destruct (Z.ltb_spec total (len (keys (live capacities)) * m)); [| lia].
    assert (0 ≤ len (keys (live capacities))) by (unfold len; lia).
    destruct (Z.le_gt_cases m 0); nia.
Qed.

(** C4, as the code has it.  Once [total > 0], no key of capacity [≤ 0]
    is in the result; when [total ≤ 0] the early return maps every key of
    the input to 0, the keys of capacity [≤ 0] included. *)
Theorem zero_capacity_dropped total capacities m result :
  NoDup (keys capacities) →
  alloc_proportional_with_min total capacities m = Ok result →
  (0 < total → ∀ k, k ∈ keys result → 0 < item capacities k) ∧
  (total ≤ 0 → result = from_keys (λ _, 0) (keys capacities)).
Proof.
  intros Hnd Hres. split.
  - intros Hgt k Hk.
    destruct (alloc_main total capacities m result Hnd Hgt Hres) as [[Hks _] _].
    rewrite Hks in Hk. by apply live_positive.
  - intros Hle. rewrite alloc_early in Hres by (by right). by injection Hres.
Qed.

(** With a non-negative [min_per_stratum] no quota is negative. *)
Lemma quota_nonneg total capacities m result k q :
  NoDup (keys capacities) → 0 ≤ m →
  alloc_proportional_with_min total capacities m = Ok result →
  (k, q) ∈ result → 0 ≤ q.
Proof.
  intros Hnd Hm Hres Hin.
  destruct (Z.le_gt_cases total 0) as [Hle|Hgt].
  - rewrite alloc_early in Hres by (by right). injection Hres as <-.
    apply list_elem_of_fmap in Hin as (k' & [= -> ->] & _). lia.
  - destruct (alloc_main total capacities m result Hnd Hgt Hres) as [Hb _].
    destruct (between_elem_of _ _ _ _ k q (NoDup_keys_filter _ _ Hnd) Hb Hin)
      as [Hk [Hq _]].
    destruct (live_positive capacities k Hnd Hk) as [Heq Hpos].
    unfold lower in Hq.
    assert (0 ≤ total `div` len (keys (live capacities))).
    { apply Z.div_pos; [lia |]. by apply (len_pos _ k). }
    case_match; lia.
Qed.

(** No quota exceeds the number of rows of its stratum. *)
Lemma quota_le_capacity total capacities m result k q :
  NoDup (keys capacities) →
  alloc_proportional_with_min total capacities m = Ok result →
  (k, q) ∈ result → 0 < item capacities k → q ≤ item capacities k.
Proof.
  intros Hnd Hres Hin Hpos.
  destruct (Z.le_gt_cases total 0) as [Hle|Hgt].
  - rewrite alloc_early in Hres by (by right). injection Hres as <-.
    apply list_elem_of_fmap in Hin as (k' & [= -> ->] & _). lia.
  - destruct (alloc_main total capacities m result Hnd Hgt Hres) as [Hb _].
    destruct (between_elem_of _ _ _ _ k q (NoDup_keys_filter _ _ Hnd) Hb Hin)
      as [Hk [_ Hq]].
    destruct (live_positive capacities k Hnd Hk) as [Heq _]. lia.
Qed.

(** The keys of the result, in order. *)
Lemma keys_alloc total capacities m result :
  NoDup (keys capacities) →
  alloc_proportional_with_min total capacities m = Ok result →
  keys result = if decide (0 < total) then keys (live capacities)
                else keys capacities.
Proof.
  intros Hnd Hres. case_decide as Hgt.
  - by destruct (alloc_main total capacities m result Hnd Hgt Hres) as [[? _] _].
  - rewrite alloc_early in Hres by (right; lia). injection Hres as <-.
    apply keys_from_keys.
Qed.

(** The budget bound, where the proportional pass respects it. *)
Lemma budget_bound_if total capacities m result :
  NoDup (keys capacities) → 0 ≤ total →
  pass_within_budget total (live capacities) m →
  alloc_proportional_with_min total capacities m = Ok result →
  sum (values result) ≤ total.
Proof.
  intros Hnd Htot Hpass Hres.
  destruct (Z.le_gt_cases total 0) as [Hle|Hgt].
  - rewrite alloc_early in Hres by (by right). injection Hres as <-.
    rewrite values_from_keys, sum_fmap_const. lia.
  - destruct (alloc_main total capacities m result Hnd Hgt Hres)
      as (_ & HB & HA).
    destruct (Z.le_gt_cases (len (keys (live capacities)) * m) total); auto.
Qed.

End AllocTheorems.

(** ** The allocator on inputs the floats represent well *)

Section Bounded.
Context {K : Type} `{EqDecision K}.
Implicit Types (d capacities : dict K) (k : K) (ks : list K).

Lemma sum_filter_pos (g : K → Z) ks :
  sum (filter (λ v, 0 < v) (g <$> ks)) = sum ((λ k, Z.max 0 (g k)) <$> ks).
Proof.
  induction ks as [|k ks IH]; [done |].
  rewrite !fmap_cons, filter_cons. cbn [sum]. case_decide; cbn [sum]; lia.
Qed.

Lemma elem_le_sum (h : K → Z) ks k :
  (∀ k', 0 ≤ h k') → k ∈ ks → h k ≤ sum (h <$> ks).
Proof.
  intros Hh. induction ks as [|k' ks IH]; intros Hk; [by apply elem_of_nil in Hk |].
  rewrite fmap_cons. cbn [sum]. apply elem_of_cons in Hk as [->|Hk].
  - assert (0 ≤ sum (h <$> ks)); [| lia].
    clear IH. induction ks as [|k0 ks IH]; [done |].
    rewrite fmap_cons. cbn [sum]. specialize (Hh k0). lia.
  - specialize (IH Hk). specialize (Hh k'). lia.
Qed.

Lemma sum_div_le (x : K → Z) (T : Z) ks :
  0 < T → sum ((λ k, x k `div` T) <$> ks) ≤ sum (x <$> ks) `div` T.
Proof.
  intros HT. apply Z.div_le_lower_bound; [done |].
  induction ks as [|k ks IH]; [simpl; lia |].
  rewrite !fmap_cons. cbn [sum].
  pose proof (Z.mul_div_le (x k) T HT). lia.
Qed.

(** One share is computed without error, and stays below the exact
    proportional share when the numbers are small. *)
Lemma proportional_share_ok remaining remaining_total cap_rem :
  0 < remaining < 2 ^ 1000 → 0 < remaining_total < 2 ^ 1000 →
  cap_rem ≤ remaining_total →
  ∃ add, proportional_share remaining remaining_total cap_rem = Ok add ∧
    (remaining * remaining_total < 2 ^ 50 →
     add ≤ (remaining * Z.max 0 cap_rem) `div` remaining_total).
Proof.
  intros HR HT Hc. unfold proportional_share.
  destruct (Z.leb_spec cap_rem 0) as [H0|H0].
  { exists 0. split; [done |]. intros _. rewrite Z.max_l by lia.
    rewrite Z.mul_0_r. done. }
  destruct (Binary64.floor_share remaining cap_rem remaining_total)
    as (f & Hf & Hle); try lia.
  unfold mbind, res_bind in Hf |- *.
  destruct (PyFloat.int_truediv _ _) as [prop|]; [| done].
  destruct (PyFloat.int_mul_float _ _) as [x|]; [| done].
  rewrite Hf. eexists. split; [done |]. intros Hsmall.
  rewrite Z.max_r by lia. etrans; [apply Z.le_min_l |].
  apply Hle. nia.
Qed.

Lemma proportional_pass_ok remaining remaining_total remaining_capacity ks :
  0 < remaining < 2 ^ 1000 → 0 < remaining_total < 2 ^ 1000 →
  (∀ k, k ∈ ks → item remaining_capacity k ≤ remaining_total) →
  ∃ extra_alloc running_total,
    proportional_pass remaining remaining_total remaining_capacity ks
      = Ok (extra_alloc, running_total) ∧
    (remaining * remaining_total < 2 ^ 50 →
     running_total ≤
       sum ((λ k, (remaining * Z.max 0 (item remaining_capacity k))
                    `div` remaining_total) <$> ks)).
Proof.
  intros HR HT. induction ks as [|k ks IH]; intros Hcap.
  { exists [], 0. split; [done |]. done. }
  destruct (proportional_share_ok remaining remaining_total
              (item remaining_capacity k) HR HT) as (add & Hadd & Hle).
  { apply Hcap. by left. }
  destruct IH as (extra & running & Hpass & Hrun).
  { intros k' Hk'. apply Hcap. by right. }
  exists ((k, add) :: extra), (add + running). split.
  - cbn [proportional_pass]. rewrite Hadd. unfold mbind, res_bind.
    rewrite Hpass. done.
  - intros Hsmall. rewrite fmap_cons. cbn [sum].
    specialize (Hle Hsmall). specialize (Hrun Hsmall). lia.
Qed.

(** Bounds on what is left after the floor allocation. *)
Lemma floor_alloc_bounds capacities m :
  (∀ k, k ∈ keys capacities → 0 < item capacities k) →
  let slack := len (keys capacities) * Z.max 0 (- m) in
  - slack ≤ sum (values (floor_alloc capacities m)) ∧
  remaining_total_of capacities m
    = sum ((λ k, Z.max 0 (item capacities k - Z.min m (item capacities k)))
             <$> keys capacities) ∧
  remaining_total_of capacities m
    ≤ sum (item capacities <$> keys capacities) + slack ∧
  (0 ≤ m → 0 ≤ sum (values (floor_alloc capacities m))) ∧
  ∀ k, k ∈ keys capacities →
    item (remaining_capacity_of capacities m) k
      = item capacities k - Z.min m (item capacities k).
Proof.
  intros Hpos slack.
  assert (∀ k, k ∈ keys capacities →
            item (remaining_capacity_of capacities m) k
              = item capacities k - Z.min m (item capacities k)) as Hrc.
  { intros k Hk. unfold remaining_capacity_of, floor_alloc.
    by rewrite !item_from_keys. }
  assert (remaining_total_of capacities m
            = sum ((λ k, Z.max 0 (item capacities k - Z.min m (item capacities k)))
                     <$> keys capacities)) as HT.
  { unfold remaining_total_of, remaining_capacity_of.
    rewrite values_from_keys, sum_filter_pos.
    f_equal. apply list_fmap_ext. intros i k Hk.
    apply list_elem_of_lookup_2 in Hk. unfold floor_alloc.
    by rewrite item_from_keys. }
  split; [| split; [done | split; [| split; [| done]]]].
  - unfold floor_alloc. rewrite values_from_keys. unfold slack.
    rewrite <- sum_fmap_const.
    trans (sum ((λ _, - Z.max 0 (- m)) <$> keys capacities)).
    + rewrite !sum_fmap_const. lia.
    + apply sum_fmap_le. intros k Hk. specialize (Hpos k Hk). lia.
  - rewrite HT. unfold slack. rewrite <- sum_fmap_const, <- sum_fmap_add.
    apply sum_fmap_le. intros k Hk. specialize (Hpos k Hk). lia.
  - intros Hm. unfold floor_alloc. rewrite values_from_keys.
    trans (sum ((λ _, 0) <$> keys capacities)).
    + rewrite sum_fmap_const. lia.
    + apply sum_fmap_le. intros k Hk. specialize (Hpos k Hk). lia.
Qed.

Lemma live_all_positive capacities :
  NoDup (keys capacities) →
  ∀ k, k ∈ keys (live capacities) → 0 < item (live capacities) k.
Proof.
  intros Hnd k Hk. destruct (live_positive capacities k Hnd Hk) as [-> ?]. done.
Qed.

Lemma sum_live_nonneg capacities : 0 ≤ sum (values (live capacities)).
Proof.
  induction capacities as [|[k v] d IH]; [done |].
  unfold live, dict in *. rewrite filter_cons. case_decide; simpl in *; lia.
Qed.

(** The allocator raises nothing while the numbers stay below
    [2**1000]. *)
Lemma alloc_ok total capacities m :
  NoDup (keys capacities) →
  total + sum (values (live capacities))
    + len (keys (live capacities)) * Z.max 0 (- m) < 2 ^ 1000 →
  ∃ result, alloc_proportional_with_min total capacities m = Ok result.
Proof.
  intros Hnd Hbound.
  destruct (Z.le_gt_cases total 0) as [Hle|Hgt].
  { rewrite alloc_early by (by right). eauto. }
  unfold alloc_proportional_with_min. cbv zeta.
  fold (live capacities). set (caps := live capacities) in *.
  set (ks := keys caps) in *.
  destruct (bool_decide (keys capacities = []) || (total <=? 0)); [by eexists |].
  destruct (bool_decide (ks = [])); [by eexists |].
  destruct (sum (values caps) =? 0); [by eexists |].
  destruct (total <? len ks * m); [by eexists |].
  change (from_keys (λ k, Z.min m (item caps k)) ks) with (floor_alloc caps m).
  set (alloc := floor_alloc caps m).
  change (total - sum (values alloc)) with (remaining_of total caps m).
  destruct (Z.leb_spec (remaining_of total caps m) 0) as [|HR]; [by eexists |].
  change (from_keys (λ k, item caps k - item alloc k) ks)
    with (remaining_capacity_of caps m).
  change (sum (filter (λ v, 0 < v) (values (remaining_capacity_of caps m))))
    with (remaining_total_of caps m).
  destruct (Z.leb_spec (remaining_total_of caps m) 0) as [|HT]; [by eexists |].
  destruct (floor_alloc_bounds caps m (live_all_positive capacities Hnd))
    as (Hfl & HTeq & HTle & _ & Hrc).
  assert (NoDup ks) as Hndks by (by apply NoDup_keys_filter).
  rewrite <- sum_values_items in HTle by done.
  destruct (proportional_pass_ok (remaining_of total caps m)
              (remaining_total_of caps m) (remaining_capacity_of caps m) ks)
    as (extra & running & -> & _).
  - pose proof (sum_live_nonneg capacities) as Hnn. fold caps in Hnn.
    unfold remaining_of in *. subst alloc ks. lia.
  - subst ks. lia.
  - intros k Hk. rewrite HTeq. fold ks.
    trans (Z.max 0 (item (remaining_capacity_of caps m) k)); [lia |].
    rewrite Hrc by done.
    apply (elem_le_sum
             (λ k, Z.max 0 (item caps k - Z.min m (item caps k)))); [lia | done].
  - by eexists.
Qed.

(** Below [2**25] the proportional pass stays within the budget. *)
Lemma pass_within_budget_small total capacities m :
  NoDup (keys capacities) → 0 ≤ m →
  total < 2 ^ 25 → sum (values (live capacities)) < 2 ^ 25 →
  pass_within_budget total (live capacities) m.
Proof.
  intros Hnd Hm Htot Hcap extra running HR HT Hpass.
  set (caps := live capacities) in *. set (ks := keys caps) in *.
  set (R := remaining_of total caps m) in *.
  set (T := remaining_total_of caps m) in *.
  destruct (floor_alloc_bounds caps m (live_all_positive capacities Hnd))
    as (_ & HTeq & HTle & Hfl & Hrc).
  specialize (Hfl Hm).
  assert (NoDup ks) as Hndks by (by apply NoDup_keys_filter).
  rewrite <- sum_values_items in HTle by done.
  rewrite Z.max_l, Z.mul_0_r, Z.add_0_r in HTle by lia.
  fold ks T in HTeq, HTle, Hrc.
  assert (R ≤ total) as HRle by (unfold R, remaining_of; lia).
  destruct (proportional_pass_ok R T (remaining_capacity_of caps m) ks)
    as (extra' & running' & Hpass' & Hle); [lia | lia | |].
  { intros k Hk. rewrite HTeq.
    trans (Z.max 0 (item (remaining_capacity_of caps m) k)); [lia |].
    rewrite Hrc by done.
    apply (elem_le_sum
             (λ k, Z.max 0 (item caps k - Z.min m (item caps k)))); [lia | done]. }
  rewrite Hpass in Hpass'. injection Hpass' as <- <-.
  etrans; [apply Hle |].
  { change (2 ^ 50) with (2 ^ 25 * 2 ^ 25). nia. }
  etrans; [apply (sum_div_le
                    (λ k, R * Z.max 0 (item (remaining_capacity_of caps m) k)));
           lia |].
  assert (sum ((λ k, R * Z.max 0 (item (remaining_capacity_of caps m) k)) <$> ks)
            = R * T) as ->.
  { rewrite HTeq. clear -Hrc. induction ks as [|k ks IH]; [simpl; lia |].
    rewrite !fmap_cons. cbn [sum]. rewrite IH.
    - rewrite Hrc by (by left). lia.
    - intros k' Hk'. apply Hrc. by right. }
  rewrite Z.div_mul by lia. done.
Qed.

End Bounded.

(** The budget bound on small inputs: with a non-negative
    [min_per_stratum], and [total] and the capacities below [2**25], the
    quotas sum to at most [total]. *)
Lemma budget_bound_small {K : Type} `{EqDecision K}
    (total : Z) (capacities : dict K) (m : Z) (result : dict K) :
  NoDup (keys capacities) → 0 ≤ m →
  0 ≤ total < 2 ^ 25 → sum (values (live capacities)) < 2 ^ 25 →
  alloc_proportional_with_min total capacities m = Ok result →
  sum (values result) ≤ total.
Proof.
  intros Hnd Hm [Htot0 Htot] Hcap Hres.
  apply (budget_bound_if total capacities m); try done.
  by apply pass_within_budget_small.
Qed.
(** Closes a decidable goal on closed terms by evaluation. *)
Ltac by_decide := apply (bool_decide_unpack _); vm_compute; exact I.

(** C1 (budget bound) fails on the code.  With [capacities = {A: 2**60,
    B: 2}], [total = 2**60 + 1] and [min_per_stratum = 1] the floats of the
    proportional pass round [2**60 - 1] up to [2**60]: the quotas are
    [{A: 2**60, B: 2}] and sum to [total + 1]. *)
Theorem budget_bound_float_overshoot :
  alloc_proportional_with_min (2^60 + 1) [("A", 2^60); ("B", 2)]%string 1
    = Ok [("A", 2^60); ("B", 2)]%string ∧
  sum (values [("A", 2^60); ("B", 2)]%string) = (2^60 + 1) + 1.
Proof. split; by vm_compute. Qed.

(** C4 as stated fails: with [total = 0] the zero-capacity key [A] is in
    the result. *)
Lemma zero_capacity_kept_when_total_is_zero :
  alloc_proportional_with_min 0 [("A", 0); ("B", 10)]%string 1
    = Ok [("A", 0); ("B", 0)]%string ∧
  item [("A", 0); ("B", 10)]%string "A"%string ≤ 0 ∧
  "A"%string ∈ keys [("A", 0); ("B", 0)]%string.
Proof. split; [by vm_compute |]. split; [done |]. by left. Qed.

Lemma capacity_bound_witness :
  18 ≤ item [("A", 100); ("B", 5)]%string "A"%string.
Proof.
  apply (capacity_bound 20 [("A", 100); ("B", 5)]%string 2
           [("A", 18); ("B", 2)]%string "A"%string 18).
  - by_decide.
  - by vm_compute.
  - by left.
  - by vm_compute.
Defined.

Lemma minimum_guarantee_witness : 2 ≤ 2.
Proof.
  apply (minimum_guarantee 20 [("A", 100); ("B", 5)]%string 2
           [("A", 18); ("B", 2)]%string "B"%string 2).
  - by_decide.
  - by vm_compute.
  - intros k' v Hin. repeat (apply elem_of_cons in Hin as [[= -> ->]|Hin]; [lia |]).
    by apply elem_of_nil in Hin.
  - by vm_compute.
  - right. by left.
Defined.

Lemma zero_capacity_dropped_witness :
  (0 < 5 → ∀ k, k ∈ keys [("B", 5)]%string → 0 < item [("A", 0); ("B", 10)]%string k) ∧
  (5 ≤ 0 → [("B", 5)]%string = from_keys (λ _, 0) (keys [("A", 0); ("B", 10)]%string)).
Proof.
  apply (zero_capacity_dropped 5 [("A", 0); ("B", 10)]%string 1 [("B", 5)]%string).
  - by_decide.
  - by vm_compute.
Defined.
(** ** Text *)

Section TextFacts.













End TextFacts.

(** ** Stratum-key normalisation *)

(** What [standardise_series] does to one cell. *)
Definition standardise_cell (c : option value) : option value :=
  Some (VStr (upper (strip (cell_str (Some (default (VStr "UNKNOWN") c)))))).

Lemma standardise_series_cells s :
  standardise_series s = standardise_cell <$> s.
Proof.
  unfold standardise_series, str_upper, str_strip, astype_str, fillna.
  rewrite <- !list_fmap_compose. by apply list_fmap_ext.
Qed.



(** A missing value becomes the sentinel, which is a fixed point. *)
Lemma standardise_cell_missing :
  standardise_cell None = Some (VStr "UNKNOWN").
Proof. done. Qed.

(** ** Rows of the working copy *)

Abbreviation stratum_key := "_stratum_key"%string (only parsing).

Section FrameFacts.
Implicit Types (d : DataFrame) (r : Row) (col : string) (cols : list string).

Lemma zip_with_fmap_same {A B C} (f : A → B → C) (g : A → B) (l : list A) :
  zip_with f l (g <$> l) = (λ x, f x (g x)) <$> l.
Proof. induction l as [|x l IH]; simpl; [done | by f_equal]. Qed.

(** One column standardised, in one row. *)
Definition std_cell_in col r : Row :=
  set_cell col r (standardise_cell (r !! col)).

Definition std_row cols r : Row := foldl (λ r col, std_cell_in col r) r cols.

Definition key_row cols r : Row := set_cell stratum_key r (tuple_of cols r).

Definition work_row cols r : Row := key_row cols (std_row cols r).

(** The frame after the standardisation loop, and after the key column
    is added. *)
Definition standardised d cols : DataFrame :=
  foldl (λ d col, set_column d col (standardise_series (get_column d col))) d cols.

Definition working d id_col cols : DataFrame :=
  let d1 := standardised (dropna [id_col] d) cols in
  set_column d1 stratum_key (apply_tuple d1 cols).

Lemma rows_standardise_column d col :
  rows (set_column d col (standardise_series (get_column d col)))
    = std_cell_in col <$> rows d.
Proof.
  unfold set_column, get_column. simpl.
  rewrite standardise_series_cells, <- list_fmap_compose.
  apply (zip_with_fmap_same (set_cell col) (λ r, standardise_cell (r !! col))).
Qed.

Lemma rows_standardised d cols : rows (standardised d cols) = std_row cols <$> rows d.
Proof.
  revert d. induction cols as [|col cols IH]; intros d; simpl.
  - by rewrite list_fmap_id.
  - unfold standardised in *. simpl. rewrite IH, rows_standardise_column.
    by rewrite <- list_fmap_compose.
Qed.

(** The rows that have an identifier. *)
Definition with_id id_col d : list Row :=
  filter (λ r : Row, is_Some (r !! id_col)) (rows d).

Lemma rows_dropna id_col d : rows (dropna [id_col] d) = with_id id_col d.
Proof.
  unfold dropna, with_id. simpl. apply list_filter_iff. intros r.
  rewrite Forall_singleton. done.
Qed.

Lemma rows_working d id_col cols :
  rows (working d id_col cols) = work_row cols <$> with_id id_col d.
Proof.
  unfold working, apply_tuple. cbv zeta. unfold set_column at 1. simpl.
  rewrite zip_with_fmap_same, rows_standardised, rows_dropna.
  by rewrite <- list_fmap_compose.
Qed.

Lemma work_row_key cols r :
  work_row cols r !! stratum_key = tuple_of cols (std_row cols r).
Proof. unfold work_row, key_row, tuple_of, set_cell. apply lookup_insert_eq. Qed.

Lemma std_row_other cols r col :
  col ∉ cols → std_row cols r !! col = r !! col.
Proof.
  revert r. induction cols as [|c cols IH]; intros r Hnot; [done |].
  apply not_elem_of_cons in Hnot as [Hne Hnot].
  change (std_row (c :: cols) r) with (std_row cols (std_cell_in c r)).
  rewrite IH by done. unfold std_cell_in, standardise_cell, set_cell.
  by apply lookup_insert_ne.
Qed.

Lemma work_row_other cols r col :
  col ∉ cols → col ≠ stratum_key → work_row cols r !! col = r !! col.
Proof.
  intros Hnot Hne. unfold work_row, key_row, tuple_of, set_cell.
  rewrite lookup_insert_ne by done. by apply std_row_other.
Qed.

End FrameFacts.

(** ** Running pick_stores on the store *)

Section RunFacts.
Context `{Random}.
Implicit Types (h : heap) (d : DataFrame) (df : ref).

(** Everything [pick_stores] does once the working copy is built; it no
    longer touches the store. *)
Definition select (os_entropy : Z) (d : DataFrame) (id_col : string)
    (target_n : Z) (random_state : option Z) (min_per_stratum : Z)
    : res DataFrame :=
  let capacities := value_counts (get_column d stratum_key) in
  let total_target := Z.min target_n (len (rows d)) in
  quotas ← alloc_proportional_with_min total_target capacities min_per_stratum ;
  rng ← default_rng os_entropy random_state ;
  '(rng, selected_parts) ← draw_strata d quotas rng [] ;
  selected ← (if bool_decide (selected_parts ≠ [])
              then concat selected_parts
              else ret (head0 d)) ;
  selected ←
    (if len (rows selected) <? total_target then
       let need := total_target - len (rows selected) in
       let remaining :=
         filter_rows (λ r, id_text id_col r ∉ id_text id_col <$> rows selected) d in
       if bool_decide (rows remaining ≠ []) then
         let '(sample_seed, _) := rng_integers rng 0 1000000 in
         additional ← df_sample remaining
                        (Z.min need (len (rows remaining))) sample_seed ;
         concat [selected; additional]
       else ret selected
     else ret selected) ;
  ret (if bool_decide (stratum_key ∈ columns selected)
       then drop_columns [stratum_key] selected
       else selected).

Definition valid_columns (d : DataFrame) (id_col : string)
    (strat_cols : list string) : Prop :=
  id_col ∈ columns d ∧ ∀ c, c ∈ strat_cols → c ∈ columns d.

#[global] Instance valid_columns_dec d id_col strat_cols :
  Decision (valid_columns d id_col strat_cols).
Proof.
  unfold valid_columns.
  refine (cast_if_and (decide (id_col ∈ columns d))
            (decide (Forall (λ c, c ∈ columns d) strat_cols)));
    rewrite ?Forall_forall in *; tauto.
Defined.

Lemma lift_bind {A B} (r : res A) (f : A → M B) h :
  (lift r ≫= f) h = match r with
                    | Ok a => f a h
                    | Raise e => (Raise e, h)
                    end.
Proof. by destruct r. Qed.

Lemma standardise_run df cols h d :
  h !! df = Some d →
  standardise df cols h = (Ok (), <[df := standardised d cols]> h).
Proof.
  revert h d. induction cols as [|col cols IH]; intros h d Hdf.
  - cbn [standardise]. unfold mret, M_ret, standardised. cbn [foldl].
    by rewrite list_insert_id.
  - cbn [standardise]. unfold mbind, M_bind, load, store.
    rewrite (list_lookup_total_correct _ _ _ Hdf).
    rewrite (IH _ (set_column d col (standardise_series (get_column d col)))).
    + by rewrite list_insert_insert_eq.
    + apply list_lookup_insert_eq. by eapply lookup_lt_Some.
Qed.

(** The error raised when a column is missing. *)
Definition missing_columns_error (d : DataFrame) (id_col : string)
    (strat_cols : list string) : exn :=
  if bool_decide (id_col ∉ columns d)
  then KeyError "Missing required ID column" [id_col]
  else KeyError "Missing stratification columns"
         (filter (λ c, c ∉ columns d) strat_cols).

(** With a missing column nothing is computed and the store is left as
    it was. *)
Lemma pick_stores_invalid os_entropy df id_col strat_cols target_n
    random_state m h :
  ¬ valid_columns (h !!! df) id_col strat_cols →
  pick_stores os_entropy df id_col strat_cols target_n random_state m h
    = (Raise (missing_columns_error (h !!! df) id_col strat_cols), h).
Proof.
  intros Hinv. unfold pick_stores, missing_columns_error. cbv zeta.
  unfold mbind at 1. unfold M_bind at 1. unfold load at 1.
  case_bool_decide as Hid; [done |].
  case_bool_decide as Hmiss; [done |].
  exfalso. apply Hinv. split; [done |].
  intros c Hc. apply dec_stable. intros Hnot.
  assert (c ∈ filter (λ c, c ∉ columns (h !!! df)) strat_cols) as Hin
    by (by apply list_elem_of_filter).
  rewrite Hmiss in Hin. by apply elem_of_nil in Hin.
Qed.

Lemma bind_load {B} (l : ref) (f : DataFrame → M B) h :
  (load l ≫= f) h = f (h !!! l) h.
Proof. done. Qed.

Lemma bind_new {B} d (f : ref → M B) h :
  (new d ≫= f) h = f (length h) (h ++ [d]).
Proof. done. Qed.

Lemma bind_store {B} (l : ref) d (f : unit → M B) h :
  (store l d ≫= f) h = f () (<[l := d]> h).
Proof. done. Qed.

Lemma bind_standardise {B} df cols (f : unit → M B) h d :
  h !! df = Some d →
  (standardise df cols ≫= f) h = f () (<[df := standardised d cols]> h).
Proof.
  intros Hdf. unfold mbind, M_bind. by rewrite (standardise_run _ _ _ d).
Qed.

Lemma lookup_snoc h d : (h ++ [d]) !! length h = Some d.
Proof. by apply list_lookup_middle. Qed.

Lemma insert_snoc h d d' : <[length h := d']> (h ++ [d]) = h ++ [d'].
Proof.
  rewrite insert_app_r_alt by done. by rewrite Nat.sub_diag.
Qed.

Lemma no_missing_columns (cols present : list string) :
  (∀ c, c ∈ cols → c ∈ present) → filter (λ c, c ∉ present) cols = [].
Proof.
  intros Hall. induction cols as [|c cols IH]; [done |].
  rewrite filter_cons, decide_False.
  - apply IH. intros c' Hc'. apply Hall. by right.
  - intros Hnot. apply Hnot, Hall. by left.
Qed.

(** With the columns present the working copy is a new object in the
    store, and the selection is computed from it. *)
Lemma pick_stores_run os_entropy df id_col strat_cols target_n
    random_state m h d :
  h !! df = Some d →
  valid_columns d id_col strat_cols →
  pick_stores os_entropy df id_col strat_cols target_n random_state m h
    = (select os_entropy (working d id_col strat_cols) id_col target_n
         random_state m,
       h ++ [working d id_col strat_cols]).
Proof.
  intros Hdf [Hid Hcols]. unfold pick_stores. cbv zeta.
  rewrite bind_load, (list_lookup_total_correct _ _ _ Hdf).
  rewrite bool_decide_false by (by intros ?).
  rewrite no_missing_columns by done.
  rewrite bool_decide_false by (by intros ?).
  rewrite bind_new.
  rewrite (bind_standardise _ _ _ _ (dropna [id_col] d)) by apply lookup_snoc.
  rewrite insert_snoc, bind_load.
  rewrite (list_lookup_total_correct _ _ _ (lookup_snoc _ _)).
  rewrite bind_store, insert_snoc, bind_load.
  rewrite (list_lookup_total_correct _ _ _ (lookup_snoc _ _)).
  fold (working d id_col strat_cols).
  set (w := working d id_col strat_cols). set (h' := h ++ [w]).
  unfold select. cbv zeta.
  rewrite lift_bind.
  destruct (alloc_proportional_with_min _ _ _) as [quotas|];
    cbn [mbind res_bind]; [| done].
  rewrite lift_bind.
  destruct (default_rng _ _) as [rng|]; cbn [mbind res_bind]; [| done].
  rewrite lift_bind.
  destruct (draw_strata _ _ _ _) as [[rng' parts]|];
    cbn [mbind res_bind]; [| done].
  rewrite lift_bind.
  destruct (if bool_decide (parts ≠ []) then concat parts else ret (head0 w))
    as [selected|]; cbn [mbind res_bind]; [| done].
  unfold mbind at 1. unfold M_bind at 1.
  destruct (len (rows selected) <? _); [| done].
  case_bool_decide; [| done].
  destruct (rng_integers rng' 0 1000000) as [sample_seed ?].
  rewrite lift_bind.
  destruct (df_sample _ _ _) as [additional|]; cbn [mbind res_bind]; [| done].
  unfold lift at 1.
  by destruct (concat [selected; additional]).
Qed.

(** A reference that is valid for [pick_stores] points to an object. *)
Lemma valid_columns_lookup h df id_col strat_cols :
  valid_columns (h !!! df) id_col strat_cols → h !! df = Some (h !!! df).
Proof.
  intros [Hid _]. destruct (h !! df) as [d|] eqn:Hdf.
  - by rewrite (list_lookup_total_correct _ _ _ Hdf).
  - rewrite list_lookup_total_alt, Hdf in Hid. by apply elem_of_nil in Hid.
Qed.

(** The two outcomes of a call, by the validity of the columns. *)
Lemma pick_stores_cases os_entropy df id_col strat_cols target_n
    random_state m h :
  let d := h !!! df in
  pick_stores os_entropy df id_col strat_cols target_n random_state m h =
    if decide (valid_columns d id_col strat_cols)
    then (select os_entropy (working d id_col strat_cols) id_col target_n
            random_state m,
          h ++ [working d id_col strat_cols])
    else (Raise (missing_columns_error d id_col strat_cols), h).
Proof.
  intros d. case_decide as Hv.
  - apply pick_stores_run; [| done]. by eapply valid_columns_lookup.
  - by apply pick_stores_invalid.
Qed.

Lemma select_seeded e1 e2 d id_col target_n seed m :
  select e1 d id_col target_n (Some seed) m
    = select e2 d id_col target_n (Some seed) m.
Proof. done. Qed.

(** C10 (the input is not modified).  After the call, with or without
    an exception, every dataframe object that was in the store before
    the call (the caller's dataframe among them) is what it was: the
    filtering, the standardisation and the helper column go to a new
    object. *)
Theorem pick_stores_frame os_entropy df id_col strat_cols target_n
    random_state m h :
  take (length h)
    (pick_stores os_entropy df id_col strat_cols target_n random_state m h).2
    = h.
Proof.
  rewrite pick_stores_cases. cbv zeta. case_decide; simpl.
  - by rewrite take_app_length.
  - by rewrite firstn_all.
Qed.

(** C7 (determinism in the seed).  Two successive calls with the same
    dataframe, columns, [target_n], [min_per_stratum] and the same seed
    return the same result, hence the same identifiers, whatever the
    operating system's entropy is at each call. *)
Theorem pick_stores_deterministic e1 e2 df id_col strat_cols target_n
    seed m h :
  let first := pick_stores e1 df id_col strat_cols target_n (Some seed) m h in
  let second :=
    pick_stores e2 df id_col strat_cols target_n (Some seed) m first.2 in
  second.1 = first.1.
Proof.
  cbv zeta. rewrite (pick_stores_cases e1). cbv zeta.
  case_decide as Hv; simpl.
  - pose proof (valid_columns_lookup _ _ _ _ Hv) as Hdf.
    assert ((h ++ [working (h !!! df) id_col strat_cols]) !!! df = h !!! df)
      as Hsame.
    { apply list_lookup_total_correct. by apply lookup_app_l_Some. }
    rewrite pick_stores_cases. cbv zeta. rewrite Hsame.
    rewrite decide_True by done. done.
  - rewrite pick_stores_cases. cbv zeta. by rewrite decide_False.
Qed.

End RunFacts.

(** ** Counting strata *)

Section CountFacts.
Implicit Types (d : dict value) (k v : value) (l : list value).

Lemma item_absent d k : k ∉ keys d → item d k = 0.
Proof.
  induction d as [|[k' v'] d IH]; intros Hk; simpl in *; [done |].
  apply not_elem_of_cons in Hk as [Hne Hk].
  rewrite decide_False by done. by apply IH.
Qed.

Lemma keys_set_item_absent d k (x : Z) :
  k ∉ keys d → keys (set_item d k x) = keys d ++ [k].
Proof.
  induction d as [|[k' v'] d IH]; intros Hk; simpl in *; [done |].
  apply not_elem_of_cons in Hk as [Hne Hk].
  rewrite decide_False by done. simpl. f_equal. by apply IH.
Qed.

Lemma sum_set_item_any d k (x : Z) :
  sum (values (set_item d k x)) = sum (values d) - item d k + x.
Proof.
  induction d as [|[k' v'] d IH]; simpl in *; [lia |].
  case_decide; simpl; [lia |]. rewrite IH. lia.
Qed.

(** How often [k] occurs in [l]. *)
Definition occurrences k l : Z := len (filter (k =.) l).

Lemma occurrences_cons k v l :
  occurrences k (v :: l) = (if decide (k = v) then 1 else 0) + occurrences k l.
Proof.
  unfold occurrences, len. rewrite filter_cons.
  case_decide; [rewrite length_cons |]; lia.
Qed.

Lemma occurrences_pos k l : k ∈ l → 0 < occurrences k l.
Proof.
  induction l as [|v l IH]; intros Hk; [by apply elem_of_nil in Hk |].
  rewrite occurrences_cons. case_decide as Hkv.
  - unfold occurrences, len. lia.
  - apply elem_of_cons in Hk as [?|Hk]; [done |]. specialize (IH Hk). lia.
Qed.

Lemma fold_add_count l d :
  NoDup (keys d) →
  let d' := foldl add_count d l in
  NoDup (keys d') ∧
  (∀ k, item d' k = item d k + occurrences k l) ∧
  (∀ k, k ∈ keys d' ↔ k ∈ keys d ∨ k ∈ l) ∧
  sum (values d') = sum (values d) + len l.
Proof.
  revert d. induction l as [|v l IH]; intros d Hnd; cbn [foldl].
  { split; [done |]. split; [| split].
    - intros k. unfold occurrences, len. simpl. lia.
    - intros k. rewrite elem_of_nil. tauto.
    - unfold len. simpl. lia. }
  assert (NoDup (keys (add_count d v)) ∧
          ∀ k, k ∈ keys (add_count d v) ↔ k ∈ keys d ∨ k = v) as [Hnd1 Hk1].
  { unfold add_count. destruct (decide (v ∈ keys d)) as [Hin|Hnin].
    - rewrite keys_set_item by done. split; [done |].
      intros k. split; [tauto |]. intros [?| ->]; done.
    - rewrite keys_set_item_absent by done. split.
      + apply NoDup_app. split; [done |]. split; [| apply NoDup_singleton].
        intros k Hk ->%list_elem_of_singleton. done.
      + intros k. rewrite elem_of_app, list_elem_of_singleton. done. }
  destruct (IH (add_count d v) Hnd1) as (Hnd' & Hitem & Hkeys & Hsum).
  split; [done |]. split; [| split].
  - intros k. rewrite Hitem, occurrences_cons. unfold add_count.
    rewrite item_set_item. repeat case_decide; subst; try done; lia.
  - intros k. rewrite Hkeys, Hk1, elem_of_cons. tauto.
  - rewrite Hsum. unfold add_count. rewrite sum_set_item_any.
    unfold len. rewrite length_cons. lia.
Qed.

Lemma sum_Permutation (l1 l2 : list Z) : l1 ≡ₚ l2 → sum l1 = sum l2.
Proof. induction 1; simpl; lia. Qed.

(** [value_counts]: one entry per distinct value, with its number of
    occurrences. *)
Lemma value_counts_spec (s : Series) :
  let c := value_counts s in
  NoDup (keys c) ∧
  (∀ k q, (k, q) ∈ c → q = occurrences k (omap id s) ∧ 0 < q) ∧
  sum (values c) = len (omap id s).
Proof.
  unfold value_counts.
  destruct (fold_add_count (omap id s) []) as (Hnd & Hitem & Hkeys & Hsum);
    [apply NoDup_nil_2 |].
  set (items := foldl add_count [] (omap id s)) in *.
  pose proof (sorted_desc_perm snd items) as Hperm.
  cbv zeta. split; [| split].
  - unfold keys. by rewrite Hperm.
  - intros k q Hin. rewrite Hperm in Hin.
    assert (q = occurrences k (omap id s)) as ->.
    { rewrite <- (item_elem_of items k q) by done. rewrite Hitem. simpl. lia. }
    split; [done |]. apply occurrences_pos.
    assert (k ∈ keys items) as Hk by (apply elem_of_keys; eauto).
    apply Hkeys in Hk as [Hk|Hk]; [by apply elem_of_nil in Hk | done].
  - unfold values. rewrite (sum_Permutation _ (items.*2)) by (by rewrite Hperm).
    fold (values items). rewrite Hsum. simpl. lia.
Qed.

(** In a column the occurrences of a key are the rows that carry it. *)
Lemma occurrences_column (f : Row → option value) (l : list Row) k :
  occurrences k (omap id (f <$> l)) = len (filter (λ r, f r = Some k) l).
Proof.
  unfold occurrences, len. f_equal.
  induction l as [|r l IH]; [done |].
  rewrite fmap_cons. cbn [omap list_omap]. rewrite (filter_cons _ r).
  destruct (f r) as [v|] eqn:Hf; simpl.
  - rewrite filter_cons. repeat case_decide; simplify_eq; simpl; by rewrite ?IH.
  - done.
Qed.

Lemma length_omap_column (f : Row → option value) (l : list Row) :
  (∀ r, r ∈ l → is_Some (f r)) → len (omap id (f <$> l)) = len l.
Proof.
  unfold len. intros Hall. f_equal.
  induction l as [|r l IH]; [done |].
  rewrite fmap_cons. cbn [omap list_omap].
  destruct (Hall r ltac:(left)) as [v ->]. simpl. f_equal.
  apply IH. intros r' Hr'. apply Hall. by right.
Qed.

End CountFacts.

(** ** Drawing *)

Section DrawFacts.
Context `{Random}.
Implicit Types (d w : DataFrame) (r : Row) (quotas : dict value).

Lemma df_sample_spec d n random_state s :
  df_sample d n random_state = Ok s →
  0 ≤ n ≤ len (rows d) ∧ rows s ⊆+ rows d ∧ len (rows s) = n.
Proof.
  unfold df_sample.
  destruct (Z.ltb_spec n 0); [done |].
  destruct (Z.ltb_spec (len (rows d)) n); [done |]. simpl.
  destruct ((random_state <? 0) || (2 ^ 32 <=? random_state)); [done |].
  intros [= <-]. simpl. split; [lia |].
  assert (Z.to_nat n ≤ length (rows d))%nat by (unfold len in *; lia).
  split; [by apply sample_rows_submseteq |].
  unfold len. rewrite sample_rows_length by done. lia.
Qed.



(** The rows whose stratum key is among [ks]. *)
Definition in_strata (ks : list value) (r : Row) : Prop :=
  match r !! stratum_key with
  | Some k => k ∈ ks
  | None => False
  end.

#[global] Instance in_strata_dec ks r : Decision (in_strata ks r).
Proof. unfold in_strata. destruct (r !! stratum_key); apply _. Defined.

(** The rows of stratum [k]. *)
Definition stratum (w : DataFrame) (k : value) : list Row :=
  filter (λ r : Row, r !! stratum_key = Some k) (rows w).

(** What one turn of the loop draws from its stratum. *)
Definition drawn_from (w : DataFrame) (kq : value * Z) : Z :=
  if kq.2 <=? 0 then 0 else Z.min kq.2 (len (stratum w kq.1)).

Lemma filter_two_submseteq {A} (P Q R : A → Prop)
    `{∀ x, Decision (P x)} `{∀ x, Decision (Q x)} `{∀ x, Decision (R x)}
    (l : list A) :
  (∀ x, P x → Q x → False) → (∀ x, P x → R x) → (∀ x, Q x → R x) →
  filter P l ++ filter Q l ⊆+ filter R l.
Proof.
  intros Hdisj HP HQ. induction l as [|x l IH]; [done |].
  rewrite !filter_cons.
  destruct (decide (P x)) as [Hp|Hp], (decide (Q x)) as [Hq|Hq].
  - destruct (Hdisj x Hp Hq).
  - rewrite decide_True by auto. simpl. by apply submseteq_skip.
  - rewrite decide_True by auto.
    rewrite <- Permutation_middle. by apply submseteq_skip.
  - case_decide; [by apply submseteq_cons | done].
Qed.

Lemma filter_mono_submseteq {A} (P R : A → Prop)
    `{∀ x, Decision (P x)} `{∀ x, Decision (R x)} (l : list A) :
  (∀ x, P x → R x) → filter P l ⊆+ filter R l.
Proof.
  intros HP. induction l as [|x l IH]; [done |].
  rewrite !filter_cons. destruct (decide (P x)) as [Hp|Hp].
  - rewrite decide_True by auto. by apply submseteq_skip.
  - case_decide; [by apply submseteq_cons | done].
Qed.

(** The loop over the quotas: what it appends to [selected_parts] is drawn
    without replacement from the strata of the quotas, as much from each
    as [drawn_from] says. *)
Lemma draw_strata_spec w quotas rng parts rng' parts' :
  NoDup (keys quotas) →
  draw_strata w quotas rng parts = Ok (rng', parts') →
  ∃ new,
    mjoin (rows <$> parts') = mjoin (rows <$> parts) ++ new ∧
    new ⊆+ filter (in_strata (keys quotas)) (rows w) ∧
    len new = sum (drawn_from w <$> quotas).
Proof.
  revert rng parts. induction quotas as [|[key quota] quotas IH];
    intros rng parts Hnd Hdraw.
  { injection Hdraw as <- <-. exists [].
    split; [by rewrite app_nil_r |]. split; [apply submseteq_nil_l | done]. }
  simpl in Hnd. apply NoDup_cons in Hnd as [Hkey Hnd].
  assert (∀ new, new ⊆+ filter (in_strata (keys quotas)) (rows w) →
            new ⊆+ filter (in_strata (keys ((key, quota) :: quotas))) (rows w))
    as Hweaken.
  { intros new Hnew. etrans; [exact Hnew |]. apply filter_mono_submseteq.
    intros r. unfold in_strata. simpl. destruct (r !! stratum_key); [| done].
    by right. }
  cbn [draw_strata] in Hdraw. rewrite fmap_cons. cbn [sum]. unfold drawn_from at 1.
  simpl fst. simpl snd. fold (stratum w key).
  destruct (Z.leb_spec quota 0) as [Hq|Hq].
  { destruct (IH _ _ Hnd Hdraw) as (new & Hrows & Hsub & Hlen).
    exists new. split; [done |]. split; [by apply Hweaken | lia]. }
  cbv zeta in Hdraw. unfold filter_rows in Hdraw. simpl rows in Hdraw.
  fold (stratum w key) in Hdraw.
  case_bool_decide as Hempty.
  { destruct (IH _ _ Hnd Hdraw) as (new & Hrows & Hsub & Hlen).
    exists new. split; [done |]. split; [by apply Hweaken |].
    rewrite Hempty. change (len (@nil Row)) with 0. lia. }
  destruct (rng_integers rng 0 1000000) as [random_state rng1].
  destruct (df_sample _ _ _) as [sampled|] eqn:Hsample; [| done].
  cbn [mbind res_bind] in Hdraw.
  apply df_sample_spec in Hsample as (Hn & Hsampled & Hlen1). simpl in Hsampled, Hlen1, Hn.
  destruct (IH _ _ Hnd Hdraw) as (new & Hrows & Hsub & Hlen).
  exists (rows sampled ++ new). split; [| split].
  - rewrite Hrows, fmap_app, join_app. simpl. by rewrite app_nil_r, <- app_assoc.
  - etrans; [apply submseteq_app; [exact Hsampled | exact Hsub] |].
    apply (filter_two_submseteq _ _ _ (rows w)).
    + intros r Hr Hin. unfold in_strata in Hin. rewrite Hr in Hin. done.
    + intros r Hr. unfold in_strata. rewrite Hr. by left.
    + intros r. unfold in_strata. destruct (r !! stratum_key); [| done]. by right.
  - unfold len in *. rewrite length_app. lia.
Qed.


End DrawFacts.

(** ** The selection *)

Section SelectFacts.
Context `{Random}.
Implicit Types (d w : DataFrame) (r : Row) (quotas : dict value).

(** Every row carries a stratum key. *)
Definition keyed (w : DataFrame) : Prop :=
  ∀ r, r ∈ rows w → is_Some (r !! stratum_key).

Lemma keyed_working d id_col cols : keyed (working d id_col cols).
Proof.
  intros r. rewrite rows_working. intros (r0 & -> & _)%list_elem_of_fmap.
  rewrite work_row_key. by eexists.
Qed.

Lemma filter_all {A} (P : A → Prop) `{∀ x, Decision (P x)} (l : list A) :
  (∀ x, x ∈ l → P x) → filter P l = l.
Proof.
  intros Hall. induction l as [|x l IH]; [done |].
  rewrite filter_cons, decide_True by (apply Hall; by left).
  f_equal. apply IH. intros y Hy. apply Hall. by right.
Qed.

Lemma len_le_sum_positive (c : dict value) :
  (∀ k q, (k, q) ∈ c → 0 < q) → len (keys c) ≤ sum (values c).
Proof.
  unfold len. induction c as [|[k q] c IH]; intros Hpos; simpl; [done |].
  specialize (Hpos k q ltac:(left)) as Hq.
  assert (Z.of_nat (length (keys c)) ≤ sum (values c)).
  { apply IH. intros k' q' Hin. apply (Hpos k' q'). by right. }
  unfold keys, values in *. lia.
Qed.

(** The capacity table of a keyed frame. *)
Lemma capacities_spec w :
  keyed w →
  let capacities := value_counts (get_column w stratum_key) in
  NoDup (keys capacities) ∧
  (∀ k q, (k, q) ∈ capacities → q = len (stratum w k) ∧ 0 < q) ∧
  sum (values capacities) = len (rows w) ∧
  live capacities = capacities ∧
  len (keys capacities) ≤ len (rows w).
Proof.
  intros Hkeyed capacities.
  destruct (value_counts_spec (get_column w stratum_key)) as (Hnd & Hocc & Hsum).
  fold capacities in Hnd, Hocc, Hsum. unfold get_column in Hocc, Hsum.
  rewrite length_omap_column in Hsum by done.
  assert (∀ k q, (k, q) ∈ capacities → q = len (stratum w k) ∧ 0 < q) as Hcap.
  { intros k q Hin. destruct (Hocc k q Hin) as [-> Hpos].
    split; [| done]. apply occurrences_column. }
  split; [done |]. split; [done |]. split; [done |]. split.
  - apply filter_all. intros [k q] Hin. simpl. by apply (Hcap k q).
  - rewrite <- Hsum. apply len_le_sum_positive. intros k q Hin. by apply (Hcap k q).
Qed.

Lemma rows_concat parts sel :
  concat parts = Ok sel → rows sel = mjoin (rows <$> parts).
Proof. destruct parts; [done |]. by intros [= <-]. Qed.

Definition unselected (id_col : string) (S : list Row) (w : DataFrame) : list Row :=
  filter (λ r, id_text id_col r ∉ id_text id_col <$> S) (rows w).

(** What [select] returns: the rows [S] drawn from the strata, then the
    rows [A] of the top-up, with or without the helper column. *)
Lemma select_spec os_entropy w id_col target_n random_state m sel :
  keyed w →
  select os_entropy w id_col target_n random_state m = Ok sel →
  let total := Z.min target_n (len (rows w)) in
  ∃ quotas S A,
    alloc_proportional_with_min total
      (value_counts (get_column w stratum_key)) m = Ok quotas ∧
    S ⊆+ rows w ∧
    len S = sum (drawn_from w <$> quotas) ∧
    A ⊆+ unselected id_col S w ∧
    len A = (if len S <? total
             then Z.min (total - len S) (len (unselected id_col S w))
             else 0) ∧
    (rows sel = S ++ A ∨ rows sel = (λ r : Row, delete stratum_key r) <$> (S ++ A)).
Proof.
  intros Hkeyed Hsel total. unfold select in Hsel. cbv zeta in Hsel.
  fold total in Hsel.
  destruct (capacities_spec w Hkeyed) as (Hnd & _).
  destruct (alloc_proportional_with_min _ _ _) as [quotas|] eqn:Halloc; [| done].
  cbn [mbind res_bind] in Hsel.
  destruct (default_rng _ _) as [rng|]; [| done]. cbn [mbind res_bind] in Hsel.
  destruct (draw_strata _ _ _ _) as [[rng' parts]|] eqn:Hdraw; [| done].
  cbn [mbind res_bind] in Hsel.
  assert (NoDup (keys quotas)) as Hndq.
  { rewrite (keys_alloc _ _ _ _ Hnd Halloc). case_decide; [| done].
    by apply NoDup_keys_filter. }
  destruct (draw_strata_spec _ _ _ _ _ _ Hndq Hdraw) as (S & Hrows & Hsub & Hlen).
  simpl in Hrows.
  assert (S ⊆+ rows w) as HS.
  { etrans; [exact Hsub |]. apply sublist_submseteq, sublist_filter. }
  destruct (if bool_decide (parts ≠ []) then concat parts else ret (head0 w))
    as [selected|] eqn:Hselected; [| done].
  cbn [mbind res_bind] in Hsel.
  assert (rows selected = S) as Hrs.
  { destruct (decide (parts = [])) as [Hnil|Hne].
    - subst parts. rewrite bool_decide_false in Hselected by (by intros ?).
      by injection Hselected as <-.
    - rewrite bool_decide_true in Hselected by done.
      by rewrite (rows_concat _ _ Hselected). }
  rewrite Hrs in Hsel. fold (unselected id_col S w) in Hsel.
  exists quotas, S.
  assert (∃ A before, A ⊆+ unselected id_col S w ∧
            len A = (if len S <? total
                     then Z.min (total - len S) (len (unselected id_col S w))
                     else 0) ∧
            rows before = S ++ A ∧
            sel = (if bool_decide (stratum_key ∈ columns before)
                   then drop_columns [stratum_key] before else before))
    as (A & before & HA & HlenA & Hbefore & ->).
  { destruct (Z.ltb_spec (len S) total) as [Hlt|Hge].
    - unfold filter_rows in Hsel. simpl rows in Hsel.
      fold (unselected id_col S w) in Hsel.
      case_bool_decide as Hrem.
      + destruct (rng_integers rng' 0 1000000) as [sample_seed ?].
        destruct (df_sample _ _ _) as [additional|] eqn:Hadd; [| done].
        cbn [mbind res_bind] in Hsel.
        apply df_sample_spec in Hadd as (_ & Hsubadd & Hlenadd).
        simpl in Hsubadd, Hlenadd.
        destruct (concat [selected; additional]) as [both|] eqn:Hboth; [| done].
        cbn [mbind res_bind] in Hsel. injection Hsel as <-.
        exists (rows additional), both. split; [done |]. split; [done |].
        split; [| done]. rewrite (rows_concat _ _ Hboth). simpl.
        by rewrite Hrs, app_nil_r.
      + cbn [mbind res_bind] in Hsel. injection Hsel as <-.
        exists [], selected. split; [apply submseteq_nil_l |].
        split; [rewrite Hrem; change (len (@nil Row)) with 0; lia |].
        split; [by rewrite app_nil_r | done].
    - cbn [mbind res_bind] in Hsel. injection Hsel as <-.
      exists [], selected. split; [apply submseteq_nil_l |].
      split; [done |]. split; [by rewrite app_nil_r | done]. }
  exists A. split; [done |]. split; [done |]. split; [done |].
  split; [done |]. split; [done |].
  destruct (bool_decide (stratum_key ∈ columns before)); [right | by left].
  unfold drop_columns. simpl. by rewrite Hbefore.
Qed.

End SelectFacts.

(** ** Identifiers *)

Section IdFacts.
Context {A B : Type} `{EqDecision B} (f : A → B).
Implicit Types (l S T : list A).

Lemma submseteq_NoDup_fmap l S : NoDup (f <$> l) → S ⊆+ l → NoDup (f <$> S).
Proof.
  intros Hnd Hsub. apply submseteq_Permutation in Hsub as [k Hk].
  rewrite Hk, fmap_app in Hnd. by apply NoDup_app in Hnd as (? & _).
Qed.

(** Rows drawn from [l], then rows drawn from those of [l] whose
    identifier is not yet taken: no identifier twice. *)
Lemma NoDup_fmap_top_up l S T :
  NoDup (f <$> l) → S ⊆+ l → T ⊆+ filter (λ x, f x ∉ f <$> S) l →
  NoDup (f <$> (S ++ T)).
Proof.
  intros Hnd HS HT. rewrite fmap_app. apply NoDup_app. split; [| split].
  - by apply (submseteq_NoDup_fmap l).
  - intros y Hy (x & -> & Hx)%list_elem_of_fmap.
    apply (elem_of_submseteq _ _ _ Hx) in HT.
    by apply list_elem_of_filter in HT as [Hnot _].
  - apply (submseteq_NoDup_fmap l); [done |].
    etrans; [exact HT |]. apply sublist_submseteq, sublist_filter.
Qed.

Lemma filter_none (P : A → Prop) `{∀ x, Decision (P x)} l :
  (∀ x, x ∈ l → ¬ P x) → filter P l = [].
Proof.
  intros Hnone. induction l as [|x l IH]; [done |].
  rewrite filter_cons, decide_False by (apply Hnone; by left).
  apply IH. intros y Hy. apply Hnone. by right.
Qed.

(** With identifiers that are pairwise distinct, the rows not yet taken
    are all the others. *)
Lemma length_unselected l S :
  NoDup (f <$> l) → S ⊆+ l →
  length (filter (λ x, f x ∉ f <$> S) l) = (length l - length S)%nat.
Proof.
  intros Hnd HS. apply submseteq_Permutation in HS as [k Hk].
  rewrite Hk in Hnd |- *. rewrite filter_app, !length_app.
  rewrite fmap_app in Hnd. apply NoDup_app in Hnd as (_ & Hdisj & _).
  rewrite filter_none, filter_all; [simpl; lia | |].
  - intros x Hx Hin. apply (Hdisj (f x)); [done |]. by apply list_elem_of_fmap_2.
  - intros x Hx Hnot. apply Hnot. by apply list_elem_of_fmap_2.
Qed.

End IdFacts.

(** ** The contract of pick_stores *)

Section PickTheorems.
Context `{Random}.
Implicit Types (d w : DataFrame) (r : Row) (h : heap).

Lemma ids_working d id_col cols :
  id_col ∉ cols → id_col ≠ stratum_key →
  id_text id_col <$> rows (working d id_col cols)
    = id_text id_col <$> with_id id_col d.
Proof.
  intros Hnot Hne. rewrite rows_working, <- list_fmap_compose.
  apply list_fmap_ext. intros i r _. unfold id_text. simpl.
  by rewrite work_row_other.
Qed.

Lemma ids_drop_key id_col (l : list Row) :
  id_col ≠ stratum_key →
  id_text id_col <$> ((λ r : Row, delete stratum_key r) <$> l)
    = id_text id_col <$> l.
Proof.
  intros Hne. rewrite <- list_fmap_compose. apply list_fmap_ext.
  intros i r _. unfold id_text. simpl. by rewrite lookup_delete_ne.
Qed.

(** C6, as the code has it.  If the identifiers of the rows that have one
    are pairwise distinct as text, and the identifier column is neither a
    stratification column nor the helper column, the selection has no
    identifier twice. *)
Theorem pick_stores_unique_ids os_entropy df id_col strat_cols target_n
    random_state m h d sel :
  h !! df = Some d →
  id_col ∉ strat_cols → id_col ≠ stratum_key →
  NoDup (id_text id_col <$> with_id id_col d) →
  (pick_stores os_entropy df id_col strat_cols target_n random_state m h).1
    = Ok sel →
  NoDup (id_text id_col <$> rows sel).
Proof.
  intros Hdf Hnot Hne Hids. rewrite pick_stores_cases. cbv zeta.
  rewrite (list_lookup_total_correct _ _ _ Hdf).
  case_decide as Hv; [| done]. simpl. intros Hsel.
  set (w := working d id_col strat_cols) in *.
  destruct (select_spec _ _ _ _ _ _ _ (keyed_working d id_col strat_cols) Hsel)
    as (quotas & S & A & _ & HS & _ & HA & _ & Hrows).
  rewrite <- (ids_working d id_col strat_cols) in Hids by done. fold w in Hids.
  assert (NoDup (id_text id_col <$> (S ++ A))) as Hnd
    by (by apply (NoDup_fmap_top_up _ (rows w))).
  destruct Hrows as [-> | ->]; [done |]. by rewrite ids_drop_key.
Qed.

Lemma sum_drawn_from w quotas :
  (∀ k q, (k, q) ∈ quotas → 0 ≤ q ≤ len (stratum w k)) →
  sum (drawn_from w <$> quotas) = sum (values quotas).
Proof.
  induction quotas as [|[k q] quotas IH]; intros Hq; [done |].
  rewrite fmap_cons. unfold values. rewrite fmap_cons. cbn [sum].
  fold (values quotas). rewrite IH by (intros k' q' Hin; apply Hq; by right).
  specialize (Hq k q ltac:(left)). unfold drawn_from. simpl.
  destruct (Z.leb_spec q 0); lia.
Qed.

(** C5, as the code has it.  With a non-negative [min_per_stratum],
    identifiers that are pairwise distinct as text, an identifier column
    that is neither a stratification column nor the helper column, and
    fewer than [2**25] rows with an identifier, the selection has exactly
    [max(0, min(target_n, rows with an identifier))] rows. *)
Theorem pick_stores_size os_entropy df id_col strat_cols target_n
    random_state m h d sel :
  h !! df = Some d →
  0 ≤ m →
  len (with_id id_col d) < 2 ^ 25 →
  id_col ∉ strat_cols → id_col ≠ stratum_key →
  NoDup (id_text id_col <$> with_id id_col d) →
  (pick_stores os_entropy df id_col strat_cols target_n random_state m h).1
    = Ok sel →
  len (rows sel) = Z.max 0 (Z.min target_n (len (with_id id_col d))).
Proof.
  intros Hdf Hm Hsmall Hnot Hne Hids. rewrite pick_stores_cases. cbv zeta.
  rewrite (list_lookup_total_correct _ _ _ Hdf).
  case_decide as Hv; [| done]. simpl. intros Hsel.
  set (w := working d id_col strat_cols) in *.
  assert (len (rows w) = len (with_id id_col d)) as HN.
  { unfold w, len. by rewrite rows_working, length_fmap. }
  pose proof (keyed_working d id_col strat_cols) as Hkeyed. fold w in Hkeyed.
  destruct (select_spec _ _ _ _ _ _ _ Hkeyed Hsel)
    as (quotas & S & A & Halloc & HS & HlenS & HA & HlenA & Hrows).
  rewrite <- (ids_working d id_col strat_cols) in Hids by done. fold w in Hids.
  rewrite <- HN in *. set (total := Z.min target_n (len (rows w))) in *.
  destruct (capacities_spec w Hkeyed) as (Hnd & Hcap & Hsum & Hlive & _).
  set (capacities := value_counts (get_column w stratum_key)) in *.
  assert (len (rows sel) = len S + len A) as ->.
  { unfold len. destruct Hrows as [-> | ->];
      rewrite ?length_fmap, length_app; lia. }
  assert (len (unselected id_col S w) = len (rows w) - len S) as Hun.
  { unfold unselected, len. rewrite length_unselected by done.
    pose proof (submseteq_length _ _ HS). lia. }
  assert (len S ≤ len (rows w)) as HSle.
  { pose proof (submseteq_length _ _ HS). unfold len. lia. }
  destruct (Z.le_gt_cases total 0) as [Hle|Hgt].
  - rewrite alloc_early in Halloc by (by right). injection Halloc as <-.
    assert (len S = 0) as HS0.
    { rewrite HlenS. unfold from_keys. rewrite <- list_fmap_compose.
      clear. induction (keys capacities) as [|k ks IH]; [done |].
      rewrite fmap_cons. cbn [sum]. rewrite IH. done. }
    rewrite HS0 in *. destruct (Z.ltb_spec 0 total); lia.
  - assert (sum (drawn_from w <$> quotas) = sum (values quotas)) as Hdrawn.
    { apply sum_drawn_from. intros k q Hin.
      assert (k ∈ keys capacities) as Hk.
      { assert (k ∈ keys quotas) as Hkq by (apply elem_of_keys; eauto).
        rewrite (keys_alloc _ _ _ _ Hnd Halloc), decide_True, Hlive in Hkq by done.
        done. }
      destruct (Hcap k _ (elem_of_item _ _ Hk)) as [Hitem Hpos].
      split.
      - by apply (quota_nonneg total capacities m quotas k).
      - rewrite <- Hitem.
        by apply (quota_le_capacity total capacities m quotas k q). }
    assert (sum (values quotas) ≤ total) as Hbudget.
    { apply (budget_bound_small total capacities m); try done.
      - unfold total. lia.
      - rewrite Hlive, Hsum. lia. }
    rewrite Hun in HlenA. destruct (Z.ltb_spec (len S) total); unfold total in *; lia.
Qed.

(** A seed that numpy refuses. *)
Definition negative_seed (random_state : option Z) : Prop :=
  ∃ s, random_state = Some s ∧ s < 0.





End PickTheorems.

(** ** Runs of pick_stores on small frames

    The frames below have the columns [Store_ID] and [Region]; a missing
    cell is a missing entry of the row.  Randomness is [lcg_random]. *)

Definition store_row (id : option Z) (region : option string) : Row :=
  list_to_map (omap (λ c, c)
    [(λ i, ("Store_ID"%string, VInt i)) <$> id;
     (λ r, ("Region"%string, VStr r)) <$> region]).

Definition frame (l : list (option Z * option string)) : DataFrame :=
  {| columns := ["Store_ID"; "Region"]%string;
     rows := (λ p, store_row p.1 p.2) <$> l |}.

(** Five stores, one without an identifier, one without a region. *)
Definition stores : DataFrame :=
  frame [(Some 1, Some " north"); (Some 2, Some "North ");
         (None, Some "south"); (Some 3, Some "south");
         (Some 4, None)]%string.

(** Two rows with the same identifier, in different regions. *)
Definition twins : DataFrame :=
  frame [(Some 1, Some "north"); (Some 1, Some "south")]%string.

(** Six rows of region A that share the identifier 7, one row of region B. *)
Definition crowd : DataFrame :=
  frame [(Some 7, Some "A"); (Some 7, Some "A"); (Some 7, Some "A");
         (Some 7, Some "A"); (Some 7, Some "A"); (Some 7, Some "A");
         (Some 8, Some "B")]%string.

(** One store in region A, ten in region B, identifiers 1 to 11. *)
Definition lopsided : DataFrame :=
  frame ((Some 1, Some "A"%string)
           :: ((λ i, (Some i, Some "B"%string)) <$> seqZ 2 10)).

(** The dataframe a run returned, the empty one if it raised. *)
Definition selection_of (out : res DataFrame * heap) : DataFrame :=
  match out.1 with
  | Ok sel => sel
  | Raise _ => {| columns := []; rows := [] |}
  end.

(** C5 as stated fails.  [crowd] has 7 rows with an identifier, so with
    [target_n = 7] the effective total is 7 and the population has 7
    units; with [min_per_stratum = 4] the quotas are [{A: 5, B: 1}], and
    the top-up finds no row whose identifier is not selected already:
    6 rows are returned. *)
Lemma pick_stores_short_on_repeated_ids :
  ∃ sel,
    (pick_stores 0 0%nat "Store_ID" ["Region"%string] 7 (Some 42) 4 [crowd]).1
      = Ok sel ∧
    len (rows sel) = 6 ∧
    Z.min 7 (len (with_id "Store_ID" crowd)) = 7.
Proof.
  eexists. split; [vm_compute; reflexivity |]. split; by vm_compute.
Qed.

(** A negative [min_per_stratum] gives more rows than the effective
    total, identifiers unique: the quotas of [lopsided] for a total of 3
    and a minimum of -5 are [{B: 5, A: -2}], and 5 rows are returned. *)
Lemma pick_stores_over_on_negative_minimum :
  ∃ sel,
    (pick_stores 0 0%nat "Store_ID" ["Region"%string] 3 (Some 42) (-5)
       [lopsided]).1 = Ok sel ∧
    len (rows sel) = 5 ∧
    Z.min 3 (len (with_id "Store_ID" lopsided)) = 3 ∧
    NoDup (id_text "Store_ID" <$> with_id "Store_ID" lopsided).
Proof.
  eexists. split; [vm_compute; reflexivity |].
  split; [by vm_compute |]. split; [by vm_compute | by_decide].
Qed.

(** A negative [target_n] gives no row, which is more than the effective
    total [min(target_n, rows)]. *)
Lemma pick_stores_empty_on_negative_target :
  ∃ sel,
    (pick_stores 0 0%nat "Store_ID" ["Region"%string] (-1) (Some 42) 1
       [stores]).1 = Ok sel ∧
    len (rows sel) = 0 ∧
    Z.min (-1) (len (with_id "Store_ID" stores)) = -1.
Proof.
  eexists. split; [vm_compute; reflexivity |]. split; by vm_compute.
Qed.

Lemma pick_stores_size_witness :
  len (rows (selection_of
    (pick_stores 0 0%nat "Store_ID" ["Region"%string] 3 (Some 42) 1 [stores])))
  = Z.max 0 (Z.min 3 (len (with_id "Store_ID" stores))).
Proof.
  apply (pick_stores_size 0 0%nat "Store_ID" ["Region"%string] 3 (Some 42) 1
           [stores] stores).
  - reflexivity.
  - lia.
  - by vm_compute.
  - by_decide.
  - by_decide.
  - by_decide.
  - vm_compute. reflexivity.
Defined.

(** C6 as stated fails.  The two rows of [twins] are the only row of
    their strata; with [target_n = 2] both are drawn, and the selection
    holds the identifier 1 twice. *)
Lemma pick_stores_repeats_repeated_ids :
  ∃ sel,
    (pick_stores 0 0%nat "Store_ID" ["Region"%string] 2 (Some 42) 1 [twins]).1
      = Ok sel ∧
    id_text "Store_ID" <$> rows sel = ["1"; "1"]%string.
Proof.
  eexists. split; [vm_compute; reflexivity | by vm_compute].
Qed.

Lemma pick_stores_unique_ids_witness :
  NoDup (id_text "Store_ID" <$> rows (selection_of
    (pick_stores 0 0%nat "Store_ID" ["Region"%string] 3 (Some 42) 1 [stores]))).
Proof.
  apply (pick_stores_unique_ids 0 0%nat "Store_ID" ["Region"%string] 3
           (Some 42) 1 [stores] stores).
  - reflexivity.
  - by_decide.
  - by_decide.
  - by_decide.
  - vm_compute. reflexivity.
Defined.


(** Past the range of a float the allocator raises, columns present:
    [remaining * prop] converts an integer of 1100 bits to float. *)
Lemma pick_stores_raises_on_huge_negative_minimum :
  (pick_stores 0 0%nat "Store_ID" ["Region"%string] 3 (Some 42) (- 2 ^ 1100)
     [stores]).1 = Raise OverflowError.
Proof. by vm_compute. Qed.


(** * Further properties *)

(** ** Rounding in binary64, from below

    Rounding to nearest never falls below truncation: the quotient and
    the product of the proportional pass lose at most [2**-51] of their
    exact value. *)

Module Binary64Lower.
Import PyFloat Binary64.

Lemma binary_round_aux_normal_lower m e l :
2 ^ 52 ≤ m →
let n := Zdigits2 m - 53 in
-1074 ≤ e + n → e + n + 1 ≤ 971 →
∃ M E, binary_round_aux 53 1024 false m e l = S754_finite false M E
  ∧ e + n ≤ E ≤ e + n + 1
  ∧ m / 2 ^ n ≤ Z.pos M * 2 ^ (E - (e + n)).
Proof.
intros Hm n Hlo Hhi.
assert (0 < m) as Hm0 by lia.
destruct (Zdigits2_bounds m Hm0) as [Hdlo Hdhi]. fold n in Hdlo, Hdhi.
assert (0 ≤ n) as Hn.
{ destruct (Z.le_gt_cases 53 (Zdigits2 m)); [lia |].
  assert (2 ^ Zdigits2 m ≤ 2 ^ 52) by (apply Z.pow_le_mono_r; lia). lia. }
set (m' := m / 2 ^ n).
assert (2 ^ 52 ≤ m' < 2 ^ 53) as Hm'.
{ assert (0 < 2 ^ n) by (by apply Z.pow_pos_nonneg).
  replace (Zdigits2 m - 1) with (n + 52) in Hdlo by lia.
  replace (Zdigits2 m) with (n + 53) in Hdhi by lia.
  rewrite Z.pow_add_r in Hdlo, Hdhi by lia. split.
  - apply Z.div_le_lower_bound; [done | lia].
  - apply Z.div_lt_upper_bound; [done | lia]. }
unfold binary_round_aux, shr_fexp.
replace (fexp 53 1024 (Zdigits2 m + e) - e) with n
  by (unfold fexp, emin, n; lia).
assert (∃ mrs, shr (shr_record_of_loc m l) e n = (mrs, e + n) ∧ shr_m mrs = m')
  as (mrs & -> & Hmrs).
{ unfold shr. destruct n as [|p|p] eqn:Hp; [| | lia].
  - exists (shr_record_of_loc m l). rewrite Z.add_0_r. split; [done |].
    unfold m'. rewrite Z.div_1_r. by destruct l as [|[]].
  - eexists. split; [done |].
    rewrite iter_shr_1_m; destruct l as [|[]]; simpl; try lia; done. }
rewrite Hmrs.
pose proof (round_nearest_even_range m' (loc_of_shr_record mrs)) as Hr.
set (m1 := round_nearest_even m' (loc_of_shr_record mrs)) in *.
destruct (Z.eq_dec m1 (2 ^ 53)) as [Heq|Hne].
- rewrite Heq. replace (fexp 53 1024 (Zdigits2 (2 ^ 53) + (e + n)) - (e + n)) with 1
    by (unfold fexp, emin; simpl Zdigits2; lia).
  simpl shr. simpl shr_m. cbv iota.
  replace (e + n + 1 <=? 1024 - 53) with true by (symmetry; apply Z.leb_le; lia).
  eexists _, _. split; [done |]. split; [lia |].
  replace (e + n + 1 - (e + n)) with 1 by lia.
  change (Z.pos 4503599627370496 * 2 ^ 1) with (2 ^ 53). lia.
- assert (Zdigits2 m1 = 53) as Hd by (apply Zdigits2_unique; simpl; lia).
  replace (fexp 53 1024 (Zdigits2 m1 + (e + n)) - (e + n)) with 0
    by (unfold fexp, emin; lia).
  simpl shr. simpl shr_m.
  destruct m1 as [|M|M] eqn:HM1; [simpl in *; lia | | lia].
  replace (e + n <=? 1024 - 53) with true by (symmetry; apply Z.leb_le; lia).
  eexists _, _. split; [done |]. split; [lia |].
  rewrite Z.sub_diag, Z.mul_1_r. lia.
Qed.

(** [a / b] on ints [0 < a ≤ b < 2**1000] is at least
    [(a / b) * (1 - 2**-51)]. *)
Lemma int_truediv_lower a b :
  0 < a ≤ b → b < 2 ^ 1000 →
  ∃ M E, int_truediv a b = Ok (S754_finite false M E)
    ∧ E ≤ -51
    ∧ a * (2 ^ 51 - 1) * 2 ^ (- E) ≤ Z.pos M * 2 ^ 51 * b.
Proof.
  intros [Ha Hab] Hb.
  destruct (Zdigits2_bounds a Ha) as [Halo Hahi].
  destruct (Zdigits2_bounds b ltac:(lia)) as [Hblo Hbhi].
  set (d1 := Zdigits2 a) in *. set (d2 := Zdigits2 b) in *.
  assert (0 < d1) as Hd1 by (unfold d1; destruct a; done).
  assert (d1 ≤ d2) as Hd12.
  { destruct (Z.le_gt_cases d1 d2); [done |].
    assert (2 ^ d2 ≤ 2 ^ (d1 - 1)) by (apply Z.pow_le_mono_r; lia). lia. }
  assert (d2 ≤ 1000) as Hd2.
  { destruct (Z.le_gt_cases d2 1000); [done |].
    assert (2 ^ 1000 ≤ 2 ^ (d2 - 1)) by (apply Z.pow_le_mono_r; lia). lia. }
  unfold int_truediv, prec, emax.
  destruct (Z.eqb_spec b 0); [lia |]. destruct (Z.eqb_spec a 0); [lia |].
  rewrite !Z.abs_eq by lia.
  replace (a <? 0) with false by (symmetry; apply Z.ltb_ge; lia).
  replace (b <? 0) with false by (symmetry; apply Z.ltb_ge; lia).
  unfold SFdiv_core_binary. fold d1 d2. rewrite !Z.add_0_r, Z.sub_diag.
  replace (fexp 53 1024 (d1 - d2)) with (d1 - d2 - 53)
    by (unfold fexp, emin; lia).
  rewrite Z.min_l by lia.
  set (e' := d1 - d2 - 53). set (s := - e').
  replace (0 - e') with s by lia.
  destruct s as [|ps|ps] eqn:Hs; try lia. rewrite <- Hs.
  rewrite Z.shiftl_mul_pow2 by lia.
  assert (0 < 2 ^ s) as HS by (apply Z.pow_pos_nonneg; lia).
  pose proof (Z.div_eucl_eq (a * 2 ^ s) b ltac:(lia)) as Heucl.
  pose proof (Z.mod_pos_bound (a * 2 ^ s) b ltac:(lia)) as Hmod.
  unfold Z.modulo, Z.div in *.
  destruct (Z.div_eucl (a * 2 ^ s) b) as [q r]. simpl in *.
  assert (2 ^ 52 ≤ q < 2 ^ 54) as Hq.
  { assert (2 ^ (52 + d2) ≤ a * 2 ^ s) as H1.
    { replace (52 + d2) with ((d1 - 1) + s) by lia.
      rewrite Z.pow_add_r by lia. nia. }
    assert (a * 2 ^ s < 2 ^ (54 + (d2 - 1))) as H2.
    { replace (54 + (d2 - 1)) with (d1 + s) by lia.
      rewrite Z.pow_add_r by lia. nia. }
    rewrite Z.pow_add_r in H1, H2 by lia. split; nia. }
  destruct (Zdigits2_bounds q ltac:(lia)) as [Hqlo Hqhi].
  set (dq := Zdigits2 q) in *.
  assert (53 ≤ dq ≤ 54) as Hdq.
  { split.
    - destruct (Z.le_gt_cases 53 dq); [done |].
      assert (2 ^ dq ≤ 2 ^ 52) by (apply Z.pow_le_mono_r; lia). lia.
    - destruct (Z.le_gt_cases dq 54); [done |].
      assert (2 ^ 54 ≤ 2 ^ (dq - 1)) by (apply Z.pow_le_mono_r; lia). lia. }
  destruct (binary_round_aux_normal_lower q e' (new_location b r))
    as (M & E & -> & HE & Hval); fold dq; try lia.
  exists M, E. split; [done |]. split; [lia |].
  set (nq := dq - 53) in *. set (δ := E - (e' + nq)) in *.
  assert (0 < 2 ^ nq ≤ 2) as HY.
  { split; [apply Z.pow_pos_nonneg; lia |].
    change 2 with (2 ^ 1) at 2. apply Z.pow_le_mono_r; lia. }
  assert (0 < 2 ^ δ) as HX by (apply Z.pow_pos_nonneg; lia).
  assert (0 < 2 ^ (- E)) as HA by (apply Z.pow_pos_nonneg; lia).
  assert (2 ^ s = 2 ^ (- E) * (2 ^ δ * 2 ^ nq)) as HSeq.
  { rewrite <- !Z.pow_add_r by lia. f_equal. lia. }
  assert (q - 1 ≤ q `div` 2 ^ nq * 2 ^ nq) as Hq'.
  { pose proof (Z.div_mod q (2 ^ nq) ltac:(lia)).
    pose proof (Z.mod_pos_bound q (2 ^ nq) ltac:(lia)). lia. }
  rewrite HSeq in Heucl. clear HSeq Hs HS Hqlo Hqhi Halo Hahi Hblo Hbhi.
  assert (0 < 2 ^ δ * 2 ^ nq) as HXY by (apply Z.mul_pos_pos; lia).
  assert (q - 1 ≤ Z.pos M * (2 ^ δ * 2 ^ nq)) as H1.
  { etrans; [exact Hq' |]. rewrite Z.mul_assoc.
    apply Z.mul_le_mono_nonneg_r; [lia | done]. }
  revert Heucl H1 HXY HA.
  generalize (2 ^ δ * 2 ^ nq) (2 ^ (- E)) (Z.pos M). intros X A Mz Heucl H1 HXY HA.
  assert (b * 2 ^ 52 ≤ b * q) as Hbq by (apply Z.mul_le_mono_nonneg_l; lia).
  assert ((q - 1) * b ≤ Mz * X * b) as H3
    by (apply Z.mul_le_mono_nonneg_r; lia).
  apply (Z.mul_le_mono_pos_r _ _ X); [done |].
  trans (a * (A * X) * (2 ^ 51 - 1)); [lia |].
  rewrite Heucl.
  trans ((q - 1) * b * 2 ^ 51); [lia |]. lia.
Qed.

(** The product of two normal floats is at least the exact product times
    [1 - 2**-51]. *)
Lemma mul_lower Mx Ex My Ey :
  2 ^ 52 ≤ Z.pos Mx < 2 ^ 53 → 2 ^ 52 ≤ Z.pos My < 2 ^ 53 →
  -1126 ≤ Ex + Ey ≤ 917 →
  ∃ M E, mul (S754_finite false Mx Ex) (S754_finite false My Ey)
           = S754_finite false M E
    ∧ Ex + Ey + 52 ≤ E
    ∧ Z.pos Mx * Z.pos My * (2 ^ 51 - 1)
        ≤ Z.pos M * 2 ^ 51 * 2 ^ (E - Ex - Ey).
Proof.
  intros HMx HMy HE. unfold mul, SFmul, prec, emax. simpl xorb.
  rewrite Pos2Z.inj_mul. set (P := Z.pos Mx * Z.pos My).
  assert (2 ^ 104 ≤ P < 2 ^ 106) as HP.
  { change (2 ^ 104) with (2 ^ 52 * 2 ^ 52).
    change (2 ^ 106) with (2 ^ 53 * 2 ^ 53). unfold P. nia. }
  destruct (Zdigits2_bounds P ltac:(lia)) as [HPlo HPhi].
  set (dP := Zdigits2 P) in *.
  assert (105 ≤ dP ≤ 106) as HdP.
  { split.
    - destruct (Z.le_gt_cases 105 dP); [done |].
      assert (2 ^ dP ≤ 2 ^ 104) by (apply Z.pow_le_mono_r; lia). lia.
    - destruct (Z.le_gt_cases dP 106); [done |].
      assert (2 ^ 106 ≤ 2 ^ (dP - 1)) by (apply Z.pow_le_mono_r; lia). lia. }
  destruct (binary_round_aux_normal_lower P (Ex + Ey) loc_Exact)
    as (M & E & -> & HEr & Hval); fold dP; try lia.
  exists M, E. split; [done |]. split; [lia |].
  set (nP := dP - 53) in *. set (δ := E - (Ex + Ey + nP)) in *.
  assert (0 < 2 ^ nP ≤ 2 ^ 53) as HY.
  { split; [apply Z.pow_pos_nonneg; lia | apply Z.pow_le_mono_r; lia]. }
  assert (0 < 2 ^ δ) as HX by (apply Z.pow_pos_nonneg; lia).
  replace (2 ^ (E - Ex - Ey)) with (2 ^ δ * 2 ^ nP)
    by (rewrite <- Z.pow_add_r by lia; f_equal; lia).
  assert (P - 2 ^ nP ≤ P `div` 2 ^ nP * 2 ^ nP) as HP'.
  { pose proof (Z.div_mod P (2 ^ nP) ltac:(lia)).
    pose proof (Z.mod_pos_bound P (2 ^ nP) ltac:(lia)). lia. }
  assert (P - 2 ^ nP ≤ Z.pos M * (2 ^ δ * 2 ^ nP)) as H1.
  { etrans; [exact HP' |]. rewrite Z.mul_assoc.
    apply Z.mul_le_mono_nonneg_r; [lia | done]. }
  assert (2 ^ nP * 2 ^ 51 ≤ P) as H2.
  { change (2 ^ 104) with (2 ^ 53 * 2 ^ 51) in HP. lia. }
  revert H1 H2. generalize (2 ^ nP) (2 ^ δ) (Z.pos M).
  intros Y X Mz H1 H2. lia.
Qed.

(** [math.floor] of a finite non-negative float, from below. *)
Lemma floor_lower M E f :
  floor (S754_finite false M E) = Ok f →
  ∀ g, 0 ≤ g → 0 ≤ E + g → Z.pos M * 2 ^ (E + g) < (f + 1) * 2 ^ g.
Proof.
  unfold floor. simpl cond_Zopp. intros [= <-] g Hg HEg.
  assert (0 < 2 ^ g) as HG by (apply Z.pow_pos_nonneg; lia).
  destruct (Z.le_gt_cases 0 E).
  - rewrite Z.shiftl_mul_pow2, Z.pow_add_r by lia.
    revert HG. generalize (2 ^ g) (2 ^ E) (Z.pos M). intros G X Mz HG. lia.
  - rewrite <- Z.shiftr_opp_r, Z.shiftr_div_pow2 by lia.
    assert (0 < 2 ^ (- E)) as HnE by (apply Z.pow_pos_nonneg; lia).
    pose proof (Z.div_mod (Z.pos M) (2 ^ (- E)) ltac:(lia)) as Hdiv.
    pose proof (Z.mod_pos_bound (Z.pos M) (2 ^ (- E)) HnE) as Hmod.
    replace g with ((- E) + (E + g)) at 2 by lia.
    rewrite (Z.pow_add_r 2 (- E) (E + g)) by lia.
    assert (0 < 2 ^ (E + g)) as HEG by (apply Z.pow_pos_nonneg; lia).
    revert Hdiv Hmod HEG. clear HnE.
    generalize (Z.pos M `div` 2 ^ (- E)). generalize (Z.pos M `mod` 2 ^ (- E)).
    generalize (2 ^ (E + g)). generalize (2 ^ (- E)). generalize (Z.pos M).
    intros Mz A X r q -> Hmod HEG. rewrite Z.mul_assoc.
    apply Z.mul_lt_mono_pos_r; [done |]. lia.
Qed.

(** [int(math.floor(remaining * (cap_rem / remaining_total)))] is less
    than one below the exact share when [remaining * cap_rem < 2**50]. *)
Lemma floor_share_lower remaining cap_rem remaining_total f :
  0 < remaining → 0 < cap_rem ≤ remaining_total →
  remaining * cap_rem < 2 ^ 50 → remaining_total < 2 ^ 1000 →
  (prop ← int_truediv cap_rem remaining_total ;
   x ← int_mul_float remaining prop ;
   floor x) = Ok f →
  remaining * cap_rem ≤ (f + 1) * remaining_total.
Proof.
  intros HR Hc Hsmall HT.
  assert (remaining < 2 ^ 53) as HR53.
  { destruct (Z.le_gt_cases (2 ^ 53) remaining); [| lia].
    assert (2 ^ 53 * 1 ≤ remaining * cap_rem) by nia. lia. }
  destruct (int_truediv_finite cap_rem remaining_total Hc HT)
    as (Mp & Ep & Hdiv & HMp & HEp & _).
  destruct (int_truediv_lower cap_rem remaining_total Hc HT)
    as (Mp' & Ep' & Hdiv' & _ & Hp).
  rewrite Hdiv in Hdiv'. injection Hdiv' as <- <-. rewrite Hdiv.
  destruct (of_int_finite remaining ltac:(lia))
    as (Mx & Ex & Hx & HMx & HEx & Hexact).
  destruct (Hexact HR53) as [HEx0 HMxeq].
  destruct (mul_lower Mx Ex Mp Ep HMx HMp ltac:(lia))
    as (My & Ey & Hy & HEy & Hmul).
  unfold mbind, res_bind, int_mul_float. rewrite Hx.
  unfold mbind, res_bind, ret. rewrite Hy. intros Hf.
  set (a := - Ep) in *. set (b := - Ex) in *.
  assert (0 < 2 ^ a) as HA by (apply Z.pow_pos_nonneg; lia).
  assert (0 < 2 ^ b) as HB by (apply Z.pow_pos_nonneg; lia).
  pose proof (floor_lower My Ey f Hf (a + b) ltac:(lia) ltac:(lia)) as Hfl.
  replace (Ey + (a + b)) with (Ey - Ex - Ep) in Hfl by lia.
  rewrite Z.pow_add_r in Hfl by lia. rewrite HMxeq in Hmul.
  assert (remaining * Z.pos Mp * (2 ^ 51 - 1) < (f + 1) * 2 ^ a * 2 ^ 51) as H1.
  { apply (Z.mul_lt_mono_pos_r (2 ^ b)); [done |]. nia. }
  assert (remaining * cap_rem * ((2 ^ 51 - 1) * (2 ^ 51 - 1))
            < (f + 1) * remaining_total * 2 ^ 102) as H2.
  { change (2 ^ 102) with (2 ^ 51 * 2 ^ 51).
    apply (Z.mul_lt_mono_pos_r (2 ^ a)); [done |].
    eapply Z.le_lt_trans
      with (remaining * (2 ^ 51 - 1) * (Z.pos Mp * 2 ^ 51 * remaining_total)).
    - trans (remaining * (2 ^ 51 - 1) * (cap_rem * (2 ^ 51 - 1) * 2 ^ a));
        [lia |].
      apply Z.mul_le_mono_nonneg_l; [lia | done].
    - assert (0 < remaining_total * 2 ^ 51) by lia. nia. }
  assert (remaining * cap_rem - 1 < (f + 1) * remaining_total); [| lia].
  apply (Z.mul_lt_mono_pos_r (2 ^ 102)); [done |].
  eapply Z.le_lt_trans; [| exact H2].
  change ((2 ^ 51 - 1) * (2 ^ 51 - 1)) with (2 ^ 102 - (2 ^ 52 - 1)).
  assert (remaining * cap_rem * (2 ^ 52 - 1) ≤ 2 ^ 102); [| lia].
  change (2 ^ 102) with (2 ^ 50 * 2 ^ 52). nia.
Qed.

End Binary64Lower.

(** ** The leftover loop hands out what is left

    The loop visits the sorted keys in order; a key below its remaining
    capacity takes one unit.  When there are at least [leftover] such
    keys, one pass of the loop uses the leftover up. *)

Section LeftoverPass.
Context {K : Type} `{EqDecision K}.
Implicit Types (d rc : dict K) (k : K) (ks sk : list K).

(** The keys of [ks] that can still take a unit. *)
Definition headroom rc d ks : list K :=
  filter (λ k, item d k < item rc k) ks.

Lemma headroom_set_item rc d ks k v :
  k ∉ ks → headroom rc (set_item d k v) ks = headroom rc d ks.
Proof.
  unfold headroom. induction ks as [|k' ks IH]; intros Hk; [done |].
  apply not_elem_of_cons in Hk as [Hne Hk].
  rewrite !filter_cons, item_set_item, (decide_False (P := k = k')), IH by done.
  done.
Qed.

Lemma leftover_loop_pass rc sk n i l d :
  NoDup sk → (∀ k, k ∈ sk → k ∈ keys d) →
  (length sk - i ≤ n)%nat →
  0 ≤ l ≤ len (headroom rc d (drop i sk)) →
  let d' := leftover_loop rc sk n i l d in
  keys d' = keys d ∧ sum (values d') = sum (values d) + l ∧
  (∀ k, k ∉ drop i sk → item d' k = item d k) ∧
  (∀ k, item d k ≤ item d' k ≤ item d k + 1).
Proof.
  intros Hnd. revert i l d.
  induction n as [|n IH]; intros i l d Hkeys Hfuel Hl; cbn [leftover_loop].
  { rewrite drop_ge in Hl by lia. unfold headroom, len in Hl. simpl in Hl.
    split; [done |]. split; [lia |]. split; [done |]. intros k. lia. }
  destruct (Z.ltb_spec 0 l) as [Hpos|Hzero].
  2: { split; [done |]. split; [lia |]. split; [done |]. intros k. lia. }
  assert (i < length sk)%nat as Hi.
  { destruct (Nat.lt_ge_cases i (length sk)); [done |].
    rewrite drop_ge in Hl by lia. unfold headroom, len in Hl. simpl in Hl. lia. }
  rewrite Nat.mod_small by done.
  destruct (lookup_lt_is_Some_2 sk i Hi) as [k Hk]. rewrite Hk.
  rewrite (drop_S _ _ _ Hk) in Hl |- *.
  assert (k ∉ drop (S i) sk) as Hfresh.
  { rewrite <- (take_drop_middle _ _ _ Hk) in Hnd.
    apply NoDup_app in Hnd as (_ & _ & Hnd). apply NoDup_cons in Hnd as [Hnot _].
    done. }
  assert (k ∈ keys d) as Hkd by (eapply Hkeys, list_elem_of_lookup_2; done).
  unfold headroom in Hl. rewrite filter_cons in Hl.
  fold (headroom rc d (drop (S i) sk)) in Hl.
  destruct (Z.ltb_spec (item d k) (item rc k)) as [Hroom|Hfull].
  - rewrite decide_True in Hl by done. unfold len in Hl. simpl in Hl.
    destruct (IH (S i) (l - 1) (set_item d k (item d k + 1)))
      as (Hk' & Hs' & Hsame & Hstep).
    + intros k' Hk'. rewrite keys_set_item by done. by apply Hkeys.
    + lia.
    + rewrite headroom_set_item by done. unfold len. lia.
    + rewrite Hk', Hs', keys_set_item, sum_set_item by done.
      split; [done |]. split; [lia |]. split.
      * intros k' [Hne Hk'']%not_elem_of_cons.
        rewrite Hsame, item_set_item, decide_False by done. done.
      * intros k'. destruct (decide (k = k')) as [<-|Hne].
        -- rewrite Hsame, item_set_item, decide_True by done. lia.
        -- specialize (Hstep k'). rewrite item_set_item, decide_False in Hstep by done.
           done.
  - rewrite decide_False in Hl by lia.
    destruct (IH (S i) l d) as (Hk' & Hs' & Hsame & Hstep); [done | lia | done |].
    split; [done |]. split; [done |]. split; [| done].
    intros k' [_ Hk'']%not_elem_of_cons. by apply Hsame.
Qed.

Lemma sum_indicator (P : K → Prop) `{∀ k, Decision (P k)} (c : Z) ks :
  sum ((λ k, if decide (P k) then c else 0) <$> ks) = c * len (filter P ks).
Proof.
  unfold len. induction ks as [|k ks IH]; [simpl; lia |].
  rewrite fmap_cons, filter_cons. cbn [sum]. rewrite IH.
  case_decide; simpl length; lia.
Qed.

Lemma headroom_sorted rc d (key : K → Z) ks :
  len (headroom rc d (sorted_desc key ks)) = len (headroom rc d ks).
Proof.
  unfold len, headroom. f_equal. apply Permutation_length.
  apply filter_Permutation, sorted_desc_perm.
Qed.

End LeftoverPass.

(** ** Regime B on inputs the floats represent well *)

Section Exact.
Context {K : Type} `{EqDecision K}.
Implicit Types (d capacities : dict K) (k : K) (ks : list K).

(** One share of the proportional pass, from both sides: it is the
    floor of the exact share or one less, cut at the remaining capacity. *)
Lemma proportional_share_bounds R T rc add :
  0 < R → 0 < T → 0 ≤ rc ≤ T → R * T < 2 ^ 50 →
  proportional_share R T rc = Ok add →
  0 ≤ add ≤ rc ∧ add * T ≤ R * rc ∧ (add < rc → R * rc ≤ (add + 1) * T).
Proof.
  intros HR HT Hrc Hsmall Hshare.
  destruct (proportional_share_range R T rc add HR HT Hshare) as [H0 H1].
  destruct (Z.le_gt_cases rc 0) as [Hz|Hpos].
  { rewrite (H0 Hz). assert (rc = 0) as -> by lia. lia. }
  specialize (H1 Hpos).
  assert (R * rc ≤ R * T) as HRrc by (apply Z.mul_le_mono_nonneg_l; lia).
  assert (1 * T ≤ R * T) as HTle by (apply Z.mul_le_mono_nonneg_r; lia).
  assert (R * 1 ≤ R * T) as HRle by (apply Z.mul_le_mono_nonneg_l; lia).
  assert (2 ^ 50 < 2 ^ 1000) as Hbig by (by vm_compute).
  destruct (Binary64.floor_share R rc T) as (f & Hf & Hup); [lia | lia | lia |].
  specialize (Hup ltac:(lia)).
  pose proof (Binary64Lower.floor_share_lower R rc T f HR ltac:(lia)
                ltac:(lia) ltac:(lia) Hf) as Hlow.
  unfold proportional_share in Hshare.
  destruct (Z.leb_spec rc 0); [lia |].
  unfold mbind, res_bind in Hf, Hshare.
  destruct (PyFloat.int_truediv _ _) as [prop|]; [| done].
  destruct (PyFloat.int_mul_float _ _) as [x|]; [| done].
  rewrite Hf in Hshare. injection Hshare as <-.
  pose proof (Z.mul_div_le (R * rc) T HT) as Hdiv.
  assert (f * T ≤ R * rc) as HfT.
  { etrans; [| exact Hdiv]. rewrite (Z.mul_comm T).
    apply Z.mul_le_mono_nonneg_r; lia. }
  split; [lia |]. split.
  - etrans; [| exact HfT]. apply Z.mul_le_mono_nonneg_r; lia.
  - intros Hlt. rewrite Z.min_l by lia. done.
Qed.

(** Sums over the keys of a dictionary. *)
Lemma sum_fmap_scale (c : Z) (f : K → Z) ks :
  sum ((λ k, c * f k) <$> ks) = c * sum (f <$> ks).
Proof.
  induction ks as [|k ks IH]; [simpl; lia |].
  rewrite !fmap_cons. cbn [sum]. rewrite IH. lia.
Qed.

Lemma sum_fmap_eq (f g : K → Z) ks :
  (∀ k, k ∈ ks → f k = g k) → sum (f <$> ks) = sum (g <$> ks).
Proof.
  intros Heq. apply Z.le_antisymm; apply sum_fmap_le; intros k Hk;
    rewrite (Heq k Hk); done.
Qed.

Lemma sum_items d ks : keys d = ks → NoDup ks → sum (values d) = sum (item d <$> ks).
Proof. intros <- Hnd. by apply sum_values_items. Qed.

(** In regime B, below [2**25]: the quotas use the budget up, or the
    capacity when the budget is larger; and when the budget fits, what a
    stratum receives above its floor is its exact proportional share of
    what remained, up to one unit. *)
Lemma alloc_regime_B_spec total capacities m result :
  NoDup (keys capacities) → 0 ≤ m →
  0 < total < 2 ^ 25 → sum (values (live capacities)) < 2 ^ 25 →
  len (keys (live capacities)) * m ≤ total →
  alloc_proportional_with_min total capacities m = Ok result →
  sum (values result) = Z.min total (sum (values (live capacities))) ∧
  (total ≤ sum (values (live capacities)) →
   ∀ k, k ∈ keys (live capacities) →
     let floor := Z.min m (item (live capacities) k) in
     - remaining_total_of (live capacities) m
       ≤ (item result k - floor) * remaining_total_of (live capacities) m
         - remaining_of total (live capacities) m
           * (item (live capacities) k - floor)
       ≤ remaining_total_of (live capacities) m).
Proof.
  intros Hnd Hm [Htot Htot'] Hcap HB.
  unfold alloc_proportional_with_min. cbv zeta.
  fold (live capacities). set (caps := live capacities) in *.
  set (ks := keys caps) in *.
  pose proof (sum_live_nonneg capacities) as Hnn. fold caps in Hnn.
  destruct (bool_decide (keys capacities = [])) eqn:Hk0; simpl.
  { apply bool_decide_eq_true in Hk0. intros [= <-].
    assert (capacities = []) as Hnil by (by destruct capacities).
    subst ks caps. rewrite Hnil. simpl. split; [lia |].
    intros _ k Hk. by apply elem_of_nil in Hk. }
  destruct (Z.leb_spec total 0) as [|_]; [lia |].
  destruct (bool_decide (ks = [])) eqn:Hks.
  { apply bool_decide_eq_true in Hks. intros [= <-].
    assert (caps = []) as Hnil by (by destruct caps).
    rewrite Hks, Hnil. simpl. split; [lia |].
    intros _ k Hk. by apply elem_of_nil in Hk. }
  apply bool_decide_eq_false in Hks.
  assert (caps ≠ []) as Hcaps by (intros Heq; apply Hks; unfold ks; by rewrite Heq).
  pose proof (sum_live_positive capacities Hcaps) as Hpop. fold caps in Hpop.
  destruct (Z.eqb_spec (sum (values caps)) 0) as [|_]; [lia |].
  assert (NoDup ks) as Hndks by (by apply NoDup_keys_filter).
  destruct (Z.ltb_spec total (len ks * m)) as [|_]; [lia |].
  change (from_keys (λ k, Z.min m (item caps k)) ks) with (floor_alloc caps m).
  set (alloc := floor_alloc caps m).
  change (total - sum (values alloc)) with (remaining_of total caps m).
  set (R := remaining_of total caps m).
  change (from_keys (λ k, item caps k - item alloc k) ks)
    with (remaining_capacity_of caps m).
  set (rc := remaining_capacity_of caps m).
  change (sum (filter (λ v, 0 < v) (values rc)))
    with (remaining_total_of caps m).
  set (T := remaining_total_of caps m).
  destruct (floor_alloc_bounds caps m (live_all_positive capacities Hnd))
    as (_ & HTeq & _ & _ & Hrc).
  fold ks T rc in HTeq, Hrc.
  pose proof (live_all_positive capacities Hnd) as Hpos. fold caps ks in Hpos.
  assert (sum (values alloc) = sum ((λ k, Z.min m (item caps k)) <$> ks)) as Hsa.
  { unfold alloc, floor_alloc. by rewrite values_from_keys. }
  assert (sum (values caps) = sum (item caps <$> ks)) as Hsc
    by (by apply sum_values_items).
  assert (sum (item rc <$> ks) = T) as HsumRC.
  { rewrite HTeq. apply sum_fmap_eq. intros k Hk. rewrite Hrc by done.
    specialize (Hpos k Hk). lia. }
  assert (sum (values caps) = sum (values alloc) + T) as HTval.
  { rewrite Hsc, Hsa, <- HsumRC, <- sum_fmap_add. apply sum_fmap_eq.
    intros k Hk. rewrite Hrc by done. lia. }
  assert (sum (values alloc) ≤ total) as Hfloor.
  { trans (len ks * m); [| done]. rewrite Hsa, <- sum_fmap_const.
    apply sum_fmap_le. intros k _. lia. }
  assert (0 ≤ sum (values alloc)) as Hfl0.
  { rewrite Hsa. trans (sum ((λ _ : K, 0) <$> ks)).
    - rewrite sum_fmap_const. lia.
    - apply sum_fmap_le. intros k Hk. specialize (Hpos k Hk). lia. }
  assert (∀ k, k ∈ ks → 0 ≤ item rc k ≤ T) as Hrcb.
  { intros k Hk. split; [rewrite Hrc by done; lia |].
    rewrite HTeq. trans (Z.max 0 (item rc k)); [lia |]. rewrite Hrc by done.
    apply (elem_le_sum
             (λ k, Z.max 0 (item caps k - Z.min m (item caps k)))); [lia | done]. }
  assert (0 ≤ T) as HT0.
  { destruct ks as [|k ks']; [done |]. specialize (Hrcb k ltac:(left)). lia. }
  assert (sum (item alloc <$> ks) = sum (values alloc)) as Hsia.
  { symmetry. apply sum_items; [apply keys_from_keys | done]. }
  assert (∀ k, k ∈ ks → item alloc k = Z.min m (item caps k)) as Hia.
  { intros k Hk. unfold alloc, floor_alloc. by rewrite item_from_keys. }
  assert (R = total - sum (values alloc)) as HRval by done.
  destruct (Z.leb_spec R 0) as [Hrem|Hrem].
  { intros [= <-]. split; [lia |]. intros _ k Hk. cbv zeta.
    rewrite (Hia k Hk). assert (R = 0) as -> by lia. lia. }
  destruct (Z.leb_spec T 0) as [HT|HT].
  { intros [= <-]. split; [lia |]. intros _ k Hk. cbv zeta.
    rewrite (Hia k Hk). specialize (Hrcb k Hk). rewrite Hrc in Hrcb by done.
    assert (item caps k - m `min` item caps k = 0) as -> by lia. lia. }
  destruct (proportional_pass _ _ _ _) as [[extra running]|] eqn:Hpass;
    [| done]. simpl.
  intros [= <-].
  destruct (proportional_pass_spec _ _ _ _ _ _ Hrem HT Hpass)
    as (Hkeys & Hrun & Hshare).
  assert (R ≤ total) as HRle by (unfold R, remaining_of; fold alloc; lia).
  assert (R * T < 2 ^ 50) as Hsmall.
  { change (2 ^ 50) with (2 ^ 25 * 2 ^ 25).
    apply Z.mul_lt_mono_nonneg; lia. }
  assert (∀ k, k ∈ ks →
            0 ≤ item extra k ≤ item rc k ∧
            item extra k * T ≤ R * item rc k ∧
            (item extra k < item rc k → R * item rc k ≤ (item extra k + 1) * T))
    as Hb.
  { intros k Hk.
    apply (proportional_share_bounds R T); auto. }
  assert (running = sum (item extra <$> ks)) as Hrun'.
  { rewrite Hrun. by apply sum_items. }
  set (extra' := if 0 <? R - running then _ else extra).
  assert (keys extra' = ks ∧ sum (values extra') = Z.min R T ∧
          (R ≤ T → ∀ k, item extra k ≤ item extra' k ≤ item extra k + 1))
    as (Hkeys' & Hsum' & Hstep).
  { destruct (Z.le_gt_cases R T) as [HRT|HRT].
    - (* the budget fits: one pass of the leftover loop uses it up *)
      assert (T * running ≤ R * T) as Hwithin.
      { rewrite Hrun', <- sum_fmap_scale, <- HsumRC, <- sum_fmap_scale.
        apply sum_fmap_le. intros k Hk. destruct (Hb k Hk) as (_ & Hle & _). lia. }
      assert (running ≤ R) as Hle.
      { apply (Z.mul_le_mono_pos_l _ _ T); [done |]. lia. }
      rewrite Z.min_l by done. unfold extra'.
      destruct (Z.ltb_spec 0 (R - running)) as [Hl|Hl].
      2: { split; [done |]. split; [lia |]. intros _ k. lia. }
      set (sk := sorted_desc (λ k, item rc k - item extra k) ks).
      assert (R - running ≤ len (headroom rc extra ks)) as Hroom.
      { apply (Z.mul_le_mono_pos_l _ _ T); [done |].
        unfold headroom.
        rewrite <- (sum_indicator (λ k, item extra k < item rc k)).
        assert (R * T ≤ T * running
                  + sum ((λ k, if decide (item extra k < item rc k)
                               then T else 0) <$> ks)); [| lia].
        rewrite Hrun', <- sum_fmap_scale, <- sum_fmap_add.
        rewrite <- HsumRC, <- sum_fmap_scale.
        apply sum_fmap_le. intros k Hk.
        destruct (Hb k Hk) as ((He0 & Hecap) & _ & Hlow).
        case_decide as Hroom; [specialize (Hlow Hroom); lia |].
        assert (item extra k = item rc k) as -> by lia.
        assert (item rc k * R ≤ item rc k * T)
          by (apply Z.mul_le_mono_nonneg_l; lia). lia. }
      destruct (leftover_loop_pass rc sk (length sk + (length sk + 0)) 0
                  (R - running) extra)
        as (Hk' & Hs' & _ & Hst).
      + unfold sk. by rewrite sorted_desc_perm.
      + intros k Hk. rewrite Hkeys. by apply elem_of_sorted_desc in Hk.
      + lia.
      + rewrite drop_0. unfold sk. rewrite headroom_sorted. lia.
      + split; [by rewrite Hk' |]. split; [rewrite Hs'; lia | done].
    - (* the budget exceeds the capacity: every stratum is filled *)
      rewrite Z.min_r by lia.
      assert (∀ k, k ∈ ks → item extra k = item rc k) as Hfull.
      { intros k Hk. destruct (Hb k Hk) as ((He0 & Hecap) & _ & Hlow).
        destruct (Z.lt_ge_cases (item extra k) (item rc k)) as [Hroom|]; [| lia].
        specialize (Hlow Hroom). exfalso.
        assert ((item extra k + 1) * T ≤ item rc k * T)
          by (apply Z.mul_le_mono_nonneg_r; lia).
        assert (T * item rc k < R * item rc k)
          by (apply Z.mul_lt_mono_pos_r; lia). lia. }
      assert (sum (values extra) = T) as Hse.
      { rewrite <- Hrun, Hrun', <- HsumRC. by apply sum_fmap_eq. }
      unfold extra'.
      destruct (Z.ltb_spec 0 (R - running)) as [Hl|Hl]; [| split; [done | lia]].
      set (sk := sorted_desc (λ k, item rc k - item extra k) ks).
      destruct (leftover_loop_between rc ks
                  (λ k, item rc k - item extra k)
                  (length sk + (length sk + 0))
                  0 (R - running) extra) as [[Hk' Hbt] _].
      * split; [done |]. intros k Hk. rewrite (Hfull k Hk). lia.
      * lia.
      * split; [done |]. split; [| lia]. rewrite (sum_items _ ks) by done.
        rewrite <- HsumRC. apply sum_fmap_eq. intros k Hk.
        specialize (Hbt k Hk). rewrite (Hfull k Hk) in Hbt. fold sk in Hbt.
        lia. }
  split.
  - rewrite values_from_keys, sum_fmap_add, Hsia.
    rewrite <- (sum_items extra' ks) by done. lia.
  - intros Hfit k Hk. cbv zeta. rewrite item_from_keys, (Hia k Hk) by done.
    specialize (Hstep ltac:(lia) k).
    destruct (Hb k Hk) as ((He0 & Hecap) & Hup & Hlow).
    rewrite Hrc in Hecap, Hup, Hlow by done.
    set (rck := item caps k - m `min` item caps k) in *.
    assert (R * rck ≤ (item extra k + 1) * T) as Hlow'.
    { destruct (Z.lt_ge_cases (item extra k) rck) as [Hroom|]; [by apply Hlow |].
      assert (item extra k = rck) as -> by lia.
      assert (rck * R ≤ rck * T) by (apply Z.mul_le_mono_nonneg_l; lia). lia. }
    replace (m `min` item caps k + item extra' k - m `min` item caps k)
      with (item extra' k) by lia.
    destruct (decide (item extra' k = item extra k)) as [->|Hne]; [lia |].
    assert (item extra' k = item extra k + 1) as -> by lia. lia.
Qed.

End Exact.

(** ** More of the allocator's contract *)

Section AllocExtras.
Context {K : Type} `{EqDecision K}.
Implicit Types (d capacities result : dict K) (k : K) (ks : list K).

Lemma sum_fmap_eq_pointwise (f g : K → Z) ks :
  (∀ k, k ∈ ks → f k ≤ g k) → sum (f <$> ks) = sum (g <$> ks) →
  ∀ k, k ∈ ks → f k = g k.
Proof.
  induction ks as [|k0 ks IH]; intros Hle Hsum k Hk;
    [by apply elem_of_nil in Hk |].
  rewrite !fmap_cons in Hsum. cbn [sum] in Hsum.
  pose proof (Hle k0 ltac:(left)) as H0.
  assert (sum (f <$> ks) ≤ sum (g <$> ks)) as Hrest.
  { apply sum_fmap_le. intros k' Hk'. apply Hle. by right. }
  apply elem_of_cons in Hk as [->|Hk]; [lia |].
  apply IH; [| lia | done]. intros k' Hk'. apply Hle. by right.
Qed.

(** X1.  Once [total > 0], the result has one entry for each key of
    positive capacity, in the order of the input, and no other. *)
Theorem alloc_result_keys total capacities m result :
  NoDup (keys capacities) → 0 < total →
  alloc_proportional_with_min total capacities m = Ok result →
  keys result = keys (filter (λ kv, 0 < kv.2) capacities) ∧
  NoDup (keys result).
Proof.
  intros Hnd Htot Hres.
  destruct (alloc_main total capacities m result Hnd Htot Hres) as [[Hks _] _].
  rewrite Hks. split; [done |]. by apply NoDup_keys_filter.
Qed.

(** X2.  With a non-negative [min_per_stratum] no quota is negative,
    whatever [total] is. *)
Theorem quotas_nonnegative total capacities m result :
  NoDup (keys capacities) → 0 ≤ m →
  alloc_proportional_with_min total capacities m = Ok result →
  Forall (λ q, 0 ≤ q) (values result).
Proof.
  intros Hnd Hm Hres. apply Forall_forall. intros q Hq.
  apply list_elem_of_fmap in Hq as ([k q'] & -> & Hin).
  by apply (quota_nonneg total capacities m result k q').
Qed.

(** X3.  The floor of a quota.  When [total] covers [min_per_stratum]
    for every stratum of positive capacity, a stratum receives at least
    [min_per_stratum], or its whole capacity if that is less; otherwise
    it receives at least the even share [total // n], or its whole
    capacity. *)
Theorem quota_floor total capacities m result k q :
  NoDup (keys capacities) → 0 < total →
  alloc_proportional_with_min total capacities m = Ok result →
  (k, q) ∈ result →
  let n := len (keys (filter (λ kv, 0 < kv.2) capacities)) in
  (n * m ≤ total → Z.min m (item capacities k) ≤ q) ∧
  (total < n * m → Z.min (total `div` n) (item capacities k) ≤ q).
Proof.
  intros Hnd Htot Hres Hin n.
  destruct (alloc_main total capacities m result Hnd Htot Hres) as [Hb _].
  destruct (between_elem_of _ _ _ _ k q (NoDup_keys_filter _ _ Hnd) Hb Hin)
    as [Hk [Hq _]].
  destruct (live_positive capacities k Hnd Hk) as [Heq _].
  unfold lower in Hq. rewrite Heq in Hq. fold (live capacities) in n. fold n in Hq.
  split; intros Hcase.
  - destruct (Z.ltb_spec total (n * m)); [lia | done].
  - destruct (Z.ltb_spec total (n * m)); [done | lia].
Qed.

(** X4.  The allocator returns: always when [total ≤ 0] or when [total]
    is too small for the minimum (no float is computed then), and
    otherwise as long as the numbers stay below [2**999], beyond which
    the conversion to float can overflow. *)
Theorem alloc_returns total capacities m :
  NoDup (keys capacities) →
  total ≤ 0 ∨
  total < len (keys (filter (λ kv, 0 < kv.2) capacities)) * m ∨
  (0 ≤ m ∧ total < 2 ^ 999 ∧
   sum (values (filter (λ kv, 0 < kv.2) capacities)) < 2 ^ 999) →
  ∃ result, alloc_proportional_with_min total capacities m = Ok result.
Proof.
  intros Hnd [Hle | [HA | (Hm & Htot & Hcap)]].
  - rewrite alloc_early by (by right). by eexists.
  - unfold alloc_proportional_with_min. cbv zeta.
    destruct (_ || _); [by eexists |].
    destruct (bool_decide _); [by eexists |].
    destruct (_ =? _); [by eexists |].
    destruct (Z.ltb_spec total
                (len (keys (filter (λ kv, 0 < kv.2) capacities)) * m));
      [by eexists | lia].
  - apply alloc_ok; [done |]. fold (live capacities) in Hcap |- *.
    rewrite Z.max_l, Z.mul_0_r by lia.
    assert (2 ^ 999 + 2 ^ 999 = 2 ^ 1000) by (by vm_compute). lia.
Qed.

(** X5.  The budget bound where the code keeps it: in the fallback for a
    [total] too small for the minimum, which uses no float, for numbers
    of any size; and otherwise for a non-negative [min_per_stratum] while
    [total] and the capacities stay below [2**25]. *)
Theorem budget_bound_in_range total capacities m result :
  NoDup (keys capacities) → 0 ≤ total →
  total < len (keys (filter (λ kv, 0 < kv.2) capacities)) * m ∨
  (0 ≤ m ∧ total < 2 ^ 25 ∧
   sum (values (filter (λ kv, 0 < kv.2) capacities)) < 2 ^ 25) →
  alloc_proportional_with_min total capacities m = Ok result →
  sum (values result) ≤ total.
Proof.
  intros Hnd Htot Hcase Hres.
  destruct Hcase as [HA | (Hm & Hsmall & Hcap)].
  - destruct (Z.le_gt_cases total 0) as [Hle|Hgt].
    + rewrite alloc_early in Hres by (by right). injection Hres as <-.
      rewrite values_from_keys, sum_fmap_const. lia.
    + destruct (alloc_main total capacities m result Hnd Hgt Hres)
        as (_ & _ & HboundA). by apply HboundA.
  - by apply (budget_bound_small total capacities m).
Qed.

(** X6.  The budget is used up.  For a non-negative [min_per_stratum]
    that [total] covers, and numbers below [2**25], the quotas sum to
    [total] exactly, or to the whole capacity when [total] exceeds it. *)
Theorem quotas_use_budget total capacities m result :
  NoDup (keys capacities) → 0 ≤ m →
  0 < total < 2 ^ 25 →
  sum (values (filter (λ kv, 0 < kv.2) capacities)) < 2 ^ 25 →
  len (keys (filter (λ kv, 0 < kv.2) capacities)) * m ≤ total →
  alloc_proportional_with_min total capacities m = Ok result →
  sum (values result)
    = Z.min total (sum (values (filter (λ kv, 0 < kv.2) capacities))).
Proof.
  intros Hnd Hm Htot Hcap HB Hres.
  by destruct (alloc_regime_B_spec total capacities m result Hnd Hm Htot Hcap
                 HB Hres) as [Hsum _].
Qed.

(** X7.  A [total] that covers the whole capacity selects everything:
    under the conditions of X6, every stratum receives its capacity. *)
Theorem quotas_fill_capacity total capacities m result k q :
  NoDup (keys capacities) → 0 ≤ m →
  0 < total < 2 ^ 25 →
  sum (values (filter (λ kv, 0 < kv.2) capacities)) ≤ total →
  len (keys (filter (λ kv, 0 < kv.2) capacities)) * m ≤ total →
  alloc_proportional_with_min total capacities m = Ok result →
  (k, q) ∈ result →
  q = item capacities k.
Proof.
  intros Hnd Hm Htot Hcap HB Hres Hin.
  fold (live capacities) in Hcap, HB.
  destruct (alloc_regime_B_spec total capacities m result Hnd Hm Htot
              ltac:(unfold live in *; lia) HB Hres) as [Hsum _].
  rewrite Z.min_r in Hsum by done.
  destruct (alloc_main total capacities m result Hnd ltac:(lia) Hres)
    as [Hb _].
  pose proof (NoDup_keys_filter (λ kv : K * Z, 0 < kv.2) _ Hnd) as Hndl.
  fold (live capacities) in Hndl.
  destruct (between_elem_of _ _ _ _ k q Hndl Hb Hin) as [Hk _].
  destruct Hb as [Hks Hb].
  rewrite <- (item_elem_of result k q) by (by rewrite ?Hks).
  destruct (live_positive capacities k Hnd Hk) as [<- _].
  apply (sum_fmap_eq_pointwise (item result) (item (live capacities))
           (keys (live capacities))); [| | done].
  - intros k' Hk'. by apply Hb.
  - rewrite <- Hks at 1. rewrite <- !sum_values_items by (by rewrite ?Hks).
    done.
Qed.

(** X8.  Proportionality.  Under the conditions of X6 and a [total]
    within the capacity, what a stratum receives above its floor
    [min(min_per_stratum, capacity)] is its proportional share
    [remaining * cap_rem / remaining_total] of what the floors left, up
    to one unit. *)
Theorem quota_proportional total capacities m result k q :
  NoDup (keys capacities) → 0 ≤ m →
  0 < total < 2 ^ 25 →
  sum (values (live capacities)) < 2 ^ 25 →
  len (keys (live capacities)) * m ≤ total →
  total ≤ sum (values (live capacities)) →
  alloc_proportional_with_min total capacities m = Ok result →
  (k, q) ∈ result →
  let floor := Z.min m (item capacities k) in
  let remaining := remaining_of total (live capacities) m in
  let remaining_total := remaining_total_of (live capacities) m in
  let cap_rem := item capacities k - floor in
  - remaining_total
    ≤ (q - floor) * remaining_total - remaining * cap_rem
    ≤ remaining_total.
Proof.
  intros Hnd Hm Htot Hcap HB Hfit Hres Hin. cbv zeta.
  destruct (alloc_regime_B_spec total capacities m result Hnd Hm Htot Hcap
              HB Hres) as [_ Hprop].
  destruct (alloc_main total capacities m result Hnd ltac:(lia) Hres)
    as [Hb _].
  pose proof (NoDup_keys_filter (λ kv : K * Z, 0 < kv.2) _ Hnd) as Hndl.
  fold (live capacities) in Hndl.
  destruct (between_elem_of _ _ _ _ k q Hndl Hb Hin) as [Hk _].
  specialize (Hprop Hfit k Hk). cbv zeta in Hprop.
  destruct (live_positive capacities k Hnd Hk) as [Heq _].
  rewrite Heq in Hprop.
  rewrite (item_elem_of result k q) in Hprop; [done | | done].
  by rewrite (proj1 Hb).
Qed.

End AllocExtras.

(** The allocator on three strata, one of them empty. *)
Definition three_strata : dict string := [("A", 100); ("Z", 0); ("B", 5)]%string.

Lemma alloc_result_keys_witness :
  keys [("A", 18); ("B", 2)]%string
    = keys (filter (λ kv, 0 < kv.2) three_strata) ∧
  NoDup (keys [("A", 18); ("B", 2)]%string).
Proof.
  apply (alloc_result_keys 20 three_strata 2).
  - by_decide.
  - lia.
  - by vm_compute.
Defined.

Lemma quotas_nonnegative_witness :
  Forall (λ q, 0 ≤ q) (values [("A", 18); ("B", 2)]%string).
Proof.
  apply (quotas_nonnegative 20 three_strata 2).
  - by_decide.
  - lia.
  - by vm_compute.
Defined.

Lemma quota_floor_witness :
  let n := len (keys (filter (λ kv, 0 < kv.2) three_strata)) in
  (n * 2 ≤ 3 → Z.min 2 (item three_strata "B"%string) ≤ 1) ∧
  (3 < n * 2 → Z.min (3 `div` n) (item three_strata "B"%string) ≤ 1).
Proof.
  apply (quota_floor 3 three_strata 2 [("A", 2); ("B", 1)]%string).
  - by_decide.
  - lia.
  - by vm_compute.
  - right. by left.
Defined.

Lemma alloc_returns_witness :
  ∃ result, alloc_proportional_with_min 20 three_strata 2 = Ok result.
Proof.
  apply alloc_returns.
  - by_decide.
  - right. right. split; [lia |]. split; by vm_compute.
Defined.

Lemma budget_bound_in_range_witness :
  sum (values [("A", 18); ("B", 2)]%string) ≤ 20.
Proof.
  apply (budget_bound_in_range 20 three_strata 2).
  - by_decide.
  - lia.
  - right. split; [lia |]. split; by vm_compute.
  - by vm_compute.
Defined.

Lemma quotas_use_budget_witness :
  sum (values [("A", 18); ("B", 2)]%string)
    = Z.min 20 (sum (values (filter (λ kv, 0 < kv.2) three_strata))).
Proof.
  apply (quotas_use_budget 20 three_strata 2).
  - by_decide.
  - lia.
  - split; by vm_compute.
  - by vm_compute.
  - by vm_compute.
  - by vm_compute.
Defined.

Lemma quotas_fill_capacity_witness : 5 = item three_strata "B"%string.
Proof.
  apply (quotas_fill_capacity 200 three_strata 2 [("A", 100); ("B", 5)]%string).
  - by_decide.
  - lia.
  - split; by vm_compute.
  - by vm_compute.
  - by vm_compute.
  - by vm_compute.
  - right. by left.
Defined.

Lemma quota_proportional_witness :
  let floor := Z.min 2 (item three_strata "A"%string) in
  let remaining := remaining_of 20 (live three_strata) 2 in
  let remaining_total := remaining_total_of (live three_strata) 2 in
  let cap_rem := item three_strata "A"%string - floor in
  - remaining_total
    ≤ (18 - floor) * remaining_total - remaining * cap_rem
    ≤ remaining_total.
Proof.
  apply (quota_proportional 20 three_strata 2 [("A", 18); ("B", 2)]%string).
  - by_decide.
  - lia.
  - split; by vm_compute.
  - by vm_compute.
  - by vm_compute.
  - by vm_compute.
  - by vm_compute.
  - by left.
Defined.

(** ** More on the selection: columns and strata *)

Section ColumnFacts.
Implicit Types (d w : DataFrame) (cols : list string).

Lemma remove_dups_NoDup {A} `{EqDecision A} (l : list A) :
  NoDup l → remove_dups l = l.
Proof.
  induction 1 as [|x l Hx Hnd IH]; [done |].
  simpl. destruct (decide_rel elem_of x l); [done | by f_equal].
Qed.

Lemma remove_dups_app_absorb {A} `{EqDecision A} (l1 l2 : list A) :
  (∀ x, x ∈ l1 → x ∈ l2) → remove_dups (l1 ++ l2) = remove_dups l2.
Proof.
  induction l1 as [|x l1 IH]; intros Hin; [done |].
  simpl. destruct (decide_rel elem_of x (l1 ++ l2)) as [_|Hnot].
  - apply IH. intros y Hy. apply Hin. by right.
  - exfalso. apply Hnot. apply elem_of_app. right. apply Hin. by left.
Qed.

(** Concatenating frames that all have the columns [cs] gives the
    columns [cs]. *)
Lemma remove_dups_copies {A} `{EqDecision A} (cs : list A) (ls : list (list A)) :
  NoDup cs → Forall (λ l, l = cs) ls → ls ≠ [] → remove_dups (mjoin ls) = cs.
Proof.
  intros Hnd. induction ls as [|l ls IH]; intros Hall Hne; [done |].
  apply Forall_cons in Hall as [-> Hall]. simpl.
  destruct ls as [|l' ls'].
  - simpl. rewrite app_nil_r. by apply remove_dups_NoDup.
  - rewrite remove_dups_app_absorb; [by apply IH |].
    intros x Hx. apply Forall_cons in Hall as [-> _]. simpl.
    apply elem_of_app. by left.
Qed.

Lemma columns_standardised d cols :
  (∀ c, c ∈ cols → c ∈ columns d) → columns (standardised d cols) = columns d.
Proof.
  revert d. induction cols as [|col cols IH]; intros d Hin; [done |].
  unfold standardised in *. simpl. rewrite IH.
  - simpl. rewrite decide_True; [done |]. apply Hin. by left.
  - intros c Hc. simpl. rewrite decide_True by (apply Hin; by left).
    apply Hin. by right.
Qed.

Lemma columns_working d id_col cols :
  (∀ c, c ∈ cols → c ∈ columns d) →
  columns (working d id_col cols)
    = if decide (stratum_key ∈ columns d) then columns d
      else columns d ++ [stratum_key].
Proof.
  intros Hin. unfold working. cbv zeta. unfold set_column at 1. simpl.
  by rewrite columns_standardised.
Qed.

Lemma columns_working_key d id_col cols :
  (∀ c, c ∈ cols → c ∈ columns d) →
  stratum_key ∈ columns (working d id_col cols).
Proof.
  intros Hin. rewrite columns_working by done.
  case_decide; [done |]. apply elem_of_app. right. by left.
Qed.

Lemma columns_working_NoDup d id_col cols :
  (∀ c, c ∈ cols → c ∈ columns d) → NoDup (columns d) →
  NoDup (columns (working d id_col cols)).
Proof.
  intros Hin Hnd. rewrite columns_working by done.
  case_decide as Hk; [done |]. apply NoDup_app. split; [done |].
  split; [| apply NoDup_singleton].
  intros c Hc ->%list_elem_of_singleton. done.
Qed.

Lemma columns_working_dropped d id_col cols :
  (∀ c, c ∈ cols → c ∈ columns d) →
  filter (λ c, c ∉ [stratum_key]) (columns (working d id_col cols))
    = filter (λ c, c ≠ stratum_key) (columns d).
Proof.
  intros Hin. rewrite columns_working by done.
  assert (∀ l : list string,
            filter (λ c, c ∉ [stratum_key]) l = filter (λ c, c ≠ stratum_key) l)
    as Heq.
  { intros l. apply list_filter_iff. intros c.
    by rewrite list_elem_of_singleton. }
  case_decide; [apply Heq |].
  rewrite filter_app, Heq. simpl.
  rewrite filter_cons, decide_False, filter_nil, app_nil_r; [done |].
  intros Hnot. apply Hnot. by left.
Qed.

End ColumnFacts.

Section DrawMore.
Context `{Random}.
Implicit Types (d w : DataFrame) (r : Row) (quotas : dict value).

Lemma df_sample_columns d n random_state s :
  df_sample d n random_state = Ok s → columns s = columns d.
Proof.
  unfold df_sample. destruct (_ || _); [done |]. destruct (_ || _); [done |].
  by intros [= <-].
Qed.

(** Quotas that are not positive draw nothing and use no random number. *)
Lemma draw_strata_skip w quotas rng parts :
  (∀ k q, (k, q) ∈ quotas → q ≤ 0) →
  draw_strata w quotas rng parts = Ok (rng, parts).
Proof.
  induction quotas as [|[k q] quotas IH]; intros Hq; [done |].
  cbn [draw_strata]. specialize (Hq k q ltac:(left)) as Hk.
  destruct (Z.leb_spec q 0); [| lia].
  apply IH. intros k' q' Hin. apply (Hq k' q'). by right.
Qed.

Lemma filter_key_outside (ks : list value) (l new : list Row) k :
  new ⊆+ filter (in_strata ks) l → k ∉ ks →
  filter (λ r : Row, r !! stratum_key = Some k) new = [].
Proof.
  intros Hsub Hk. apply filter_none. intros r Hr Hkey.
  apply (elem_of_submseteq _ _ _ Hr) in Hsub.
  apply list_elem_of_filter in Hsub as [Hin _].
  unfold in_strata in Hin. rewrite Hkey in Hin. done.
Qed.

(** The loop over the quotas, stratum by stratum: of the rows it appends,
    those of a stratum are as many as [drawn_from] says; and every part
    has the columns of the frame. *)
Lemma draw_strata_more w quotas rng parts rng' parts' :
  NoDup (keys quotas) →
  draw_strata w quotas rng parts = Ok (rng', parts') →
  ∃ new,
    mjoin (rows <$> parts') = mjoin (rows <$> parts) ++ new ∧
    (∀ k q, (k, q) ∈ quotas →
       len (filter (λ r : Row, r !! stratum_key = Some k) new)
         = drawn_from w (k, q)) ∧
    (Forall (λ p, columns p = columns w) parts →
     Forall (λ p, columns p = columns w) parts').
Proof.
  revert rng parts. induction quotas as [|[key quota] quotas IH];
    intros rng parts Hnd Hdraw.
  { injection Hdraw as <- <-. exists [].
    split; [by rewrite app_nil_r |]. split; [| done].
    intros k q Hin. by apply elem_of_nil in Hin. }
  simpl in Hnd. apply NoDup_cons in Hnd as [Hkey Hnd].
  assert (∀ q, (key, q) ∈ quotas → False) as Hfresh.
  { intros q Hin. apply Hkey. apply elem_of_keys. eauto. }
  cbn [draw_strata] in Hdraw.
  destruct (Z.leb_spec quota 0) as [Hq|Hq].
  { destruct (draw_strata_spec _ _ _ _ _ _ Hnd Hdraw) as (new0 & Hrows0 & Hsub & _).
    destruct (IH _ _ Hnd Hdraw) as (new & Hrows & Hcount & Hcols).
    assert (new0 = new) as -> by (rewrite Hrows0 in Hrows; by apply app_inv_head in Hrows).
    exists new. split; [done |]. split; [| done].
    intros k q [[= -> ->]|Hin]%elem_of_cons; [| by apply Hcount].
    rewrite (filter_key_outside _ _ _ _ Hsub Hkey). unfold drawn_from. simpl.
    by destruct (Z.leb_spec quota 0); [| lia]. }
  cbv zeta in Hdraw. unfold filter_rows in Hdraw. simpl rows in Hdraw.
  fold (stratum w key) in Hdraw.
  case_bool_decide as Hempty.
  { destruct (draw_strata_spec _ _ _ _ _ _ Hnd Hdraw) as (new0 & Hrows0 & Hsub & _).
    destruct (IH _ _ Hnd Hdraw) as (new & Hrows & Hcount & Hcols).
    assert (new0 = new) as -> by (rewrite Hrows0 in Hrows; by apply app_inv_head in Hrows).
    exists new. split; [done |]. split; [| done].
    intros k q [[= -> ->]|Hin]%elem_of_cons; [| by apply Hcount].
    rewrite (filter_key_outside _ _ _ _ Hsub Hkey). unfold drawn_from. simpl.
    rewrite Hempty. change (len (@nil Row)) with 0.
    destruct (Z.leb_spec quota 0); lia. }
  destruct (rng_integers rng 0 1000000) as [random_state rng1].
  destruct (df_sample _ _ _) as [sampled|] eqn:Hsample; [| done].
  cbn [mbind res_bind] in Hdraw.
  pose proof (df_sample_columns _ _ _ _ Hsample) as Hcs. simpl in Hcs.
  apply df_sample_spec in Hsample as (Hn & Hsampled & Hlen1).
  simpl in Hsampled, Hlen1, Hn.
  destruct (draw_strata_spec _ _ _ _ _ _ Hnd Hdraw) as (new0 & Hrows0 & Hsub & _).
  destruct (IH _ _ Hnd Hdraw) as (new & Hrows & Hcount & Hcols).
  assert (new0 = new) as -> by (rewrite Hrows0 in Hrows; by apply app_inv_head in Hrows).
  exists (rows sampled ++ new). split; [| split].
  - rewrite Hrows, fmap_app, join_app. simpl. by rewrite app_nil_r, <- app_assoc.
  - intros k q [[= -> ->]|Hin]%elem_of_cons.
    + rewrite filter_app, (filter_key_outside _ _ _ _ Hsub Hkey), app_nil_r.
      rewrite filter_all.
      * rewrite Hlen1. unfold drawn_from. simpl.
        destruct (Z.leb_spec quota 0); [lia | done].
      * intros r Hr. apply (elem_of_submseteq _ _ _ Hr) in Hsampled.
        by apply list_elem_of_filter in Hsampled as [? _].
    + rewrite filter_app, filter_none, app_nil_l; [by apply Hcount |].
      intros r Hr Hk. apply (elem_of_submseteq _ _ _ Hr) in Hsampled.
      apply list_elem_of_filter in Hsampled as [Hkey' _].
      rewrite Hkey' in Hk. injection Hk as <-. by apply (Hfresh q).
  - intros Hall. apply Hcols. apply Forall_app. split; [done |].
    by apply Forall_singleton.
Qed.

End DrawMore.

Section SelectMore.
Context `{Random}.
Implicit Types (d w : DataFrame) (r : Row) (quotas : dict value).

Lemma columns_concat parts sel :
  concat parts = Ok sel → columns sel = remove_dups (mjoin (columns <$> parts)).
Proof. destruct parts; [done |]. by intros [= <-]. Qed.

(** What [select] returns, with its columns and its strata. *)
Lemma select_full_spec os_entropy w id_col target_n random_state m sel :
  keyed w → stratum_key ∈ columns w → NoDup (columns w) →
  select os_entropy w id_col target_n random_state m = Ok sel →
  let total := Z.min target_n (len (rows w)) in
  ∃ quotas S A,
    alloc_proportional_with_min total
      (value_counts (get_column w stratum_key)) m = Ok quotas ∧
    S ⊆+ rows w ∧
    (∀ k q, (k, q) ∈ quotas →
       len (filter (λ r : Row, r !! stratum_key = Some k) S)
         = drawn_from w (k, q)) ∧
    A ⊆+ unselected id_col S w ∧
    len A = (if len S <? total
             then Z.min (total - len S) (len (unselected id_col S w))
             else 0) ∧
    rows sel = (λ r : Row, delete stratum_key r) <$> (S ++ A) ∧
    columns sel = filter (λ c, c ∉ [stratum_key]) (columns w).
Proof.
  intros Hkeyed Hkey Hndc Hsel total. unfold select in Hsel. cbv zeta in Hsel.
  fold total in Hsel.
  destruct (capacities_spec w Hkeyed) as (Hnd & _).
  destruct (alloc_proportional_with_min _ _ _) as [quotas|] eqn:Halloc; [| done].
  cbn [mbind res_bind] in Hsel.
  destruct (default_rng _ _) as [rng|]; [| done]. cbn [mbind res_bind] in Hsel.
  destruct (draw_strata _ _ _ _) as [[rng' parts]|] eqn:Hdraw; [| done].
  cbn [mbind res_bind] in Hsel.
  assert (NoDup (keys quotas)) as Hndq.
  { rewrite (keys_alloc _ _ _ _ Hnd Halloc). case_decide; [| done].
    by apply NoDup_keys_filter. }
  destruct (draw_strata_spec _ _ _ _ _ _ Hndq Hdraw) as (S & Hrows & Hsub & _).
  destruct (draw_strata_more _ _ _ _ _ _ Hndq Hdraw) as (S' & Hrows' & Hcount & Hcols).
  assert (S' = S) as -> by (rewrite Hrows' in Hrows; by apply app_inv_head in Hrows).
  specialize (Hcols ltac:(done)). clear Hrows'. simpl in Hrows.
  assert (S ⊆+ rows w) as HS.
  { etrans; [exact Hsub |]. apply sublist_submseteq, sublist_filter. }
  destruct (if bool_decide (parts ≠ []) then concat parts else ret (head0 w))
    as [selected|] eqn:Hselected; [| done].
  cbn [mbind res_bind] in Hsel.
  assert (rows selected = S ∧ columns selected = columns w) as [Hrs Hcs].
  { destruct (decide (parts = [])) as [Hnil|Hne].
    - subst parts. rewrite bool_decide_false in Hselected by (by intros ?).
      by injection Hselected as <-.
    - rewrite bool_decide_true in Hselected by done.
      rewrite (rows_concat _ _ Hselected), (columns_concat _ _ Hselected).
      split; [done |].
      apply (remove_dups_copies (columns w) (columns <$> parts)); [done | |].
      + apply Forall_fmap. by eapply Forall_impl; [exact Hcols |].
      + by destruct parts. }
  rewrite Hrs in Hsel. fold (unselected id_col S w) in Hsel.
  exists quotas, S.
  assert (∃ A before, A ⊆+ unselected id_col S w ∧
            len A = (if len S <? total
                     then Z.min (total - len S) (len (unselected id_col S w))
                     else 0) ∧
            rows before = S ++ A ∧ columns before = columns w ∧
            sel = (if bool_decide (stratum_key ∈ columns before)
                   then drop_columns [stratum_key] before else before))
    as (A & before & HA & HlenA & Hbefore & Hcb & ->).
  { destruct (Z.ltb_spec (len S) total) as [Hlt|Hge].
    - unfold filter_rows in Hsel. simpl rows in Hsel.
      fold (unselected id_col S w) in Hsel.
      case_bool_decide as Hrem.
      + destruct (rng_integers rng' 0 1000000) as [sample_seed ?].
        destruct (df_sample _ _ _) as [additional|] eqn:Hadd; [| done].
        cbn [mbind res_bind] in Hsel.
        pose proof (df_sample_columns _ _ _ _ Hadd) as Hca. simpl in Hca.
        apply df_sample_spec in Hadd as (_ & Hsubadd & Hlenadd).
        simpl in Hsubadd, Hlenadd.
        destruct (concat [selected; additional]) as [both|] eqn:Hboth; [| done].
        cbn [mbind res_bind] in Hsel. injection Hsel as <-.
        exists (rows additional), both. split; [done |]. split; [done |].
        split; [| split; [| done]].
        * rewrite (rows_concat _ _ Hboth). simpl. by rewrite Hrs, app_nil_r.
        * rewrite (columns_concat _ _ Hboth).
          apply (remove_dups_copies (columns w)
                   [columns selected; columns additional]); [done | | done].
          by repeat constructor.
      + cbn [mbind res_bind] in Hsel. injection Hsel as <-.
        exists [], selected. split; [apply submseteq_nil_l |].
        split; [rewrite Hrem; change (len (@nil Row)) with 0; lia |].
        split; [by rewrite app_nil_r | done].
    - cbn [mbind res_bind] in Hsel. injection Hsel as <-.
      exists [], selected. split; [apply submseteq_nil_l |].
      split; [done |]. split; [by rewrite app_nil_r | done]. }
  exists A. split; [done |]. split; [done |]. split; [done |].
  split; [done |]. split; [done |].
  rewrite bool_decide_true by (by rewrite Hcb).
  unfold drop_columns. simpl. by rewrite Hbefore, Hcb.
Qed.

Lemma filter_submseteq {A} (P : A → Prop) `{∀ x, Decision (P x)} (S l : list A) :
  S ⊆+ l → filter P S ⊆+ filter P l.
Proof.
  induction 1 as [|x S l _ IH|x y l|x S l _ IH|S l1 l2 _ IH1 _ IH2].
  - done.
  - rewrite !filter_cons. case_decide; [by apply submseteq_skip | done].
  - rewrite !filter_cons. repeat case_decide; try done. apply submseteq_swap.
  - rewrite filter_cons. case_decide; [by apply submseteq_cons | done].
  - by etrans.
Qed.

(** Rows drawn from [l], then rows drawn from those whose identifier is
    not yet taken: together still rows of [l], none more often than [l]
    has it. *)
Lemma submseteq_top_up {A B} `{EqDecision B} (f : A → B) (l S T : list A) :
  S ⊆+ l → T ⊆+ filter (λ x, f x ∉ f <$> S) l → S ++ T ⊆+ l.
Proof.
  intros HS HT.
  assert (S ⊆+ filter (λ x, ¬ (f x ∉ f <$> S)) l) as HS'.
  { rewrite <- (filter_all (λ x, ¬ (f x ∉ f <$> S)) S) at 1.
    - by apply filter_submseteq.
    - intros x Hx Hnot. apply Hnot. by apply list_elem_of_fmap_2. }
  etrans; [apply submseteq_app; [exact HS' | exact HT] |].
  apply Permutation_submseteq. rewrite Permutation_app_comm.
  apply filter_app_complement.
Qed.

(** With nothing to select, nothing is selected and no random number is
    drawn. *)
Lemma select_nothing os_entropy w id_col target_n random_state m :
  stratum_key ∈ columns w → ¬ negative_seed random_state →
  Z.min target_n (len (rows w)) ≤ 0 →
  select os_entropy w id_col target_n random_state m
    = Ok {| columns := filter (λ c, c ∉ [stratum_key]) (columns w);
            rows := [] |}.
Proof.
  intros Hkey Hseed Hzero. unfold select. cbv zeta.
  rewrite alloc_early by (by right). cbn [mbind res_bind].
  assert (∃ rng, default_rng os_entropy random_state = Ok rng) as [rng ->].
  { destruct random_state as [s|]; simpl; [| by eexists].
    destruct (Z.ltb_spec s 0); [| by eexists].
    exfalso. apply Hseed. by exists s. }
  cbn [mbind res_bind]. rewrite draw_strata_skip.
  - cbn [mbind res_bind]. rewrite bool_decide_false by (by intros ?).
    unfold ret. cbn [mbind res_bind]. change (len (rows (head0 w))) with 0.
    destruct (Z.ltb_spec 0 (Z.min target_n (len (rows w)))); [lia |].
    cbn [mbind res_bind]. by rewrite bool_decide_true.
  - intros k q (k' & [= -> ->] & _)%list_elem_of_fmap. done.
Qed.

End SelectMore.
